(** * WaveSim: the wave model, its boundary accessor and its ripples

    A shallow embedding of the simulation core of wavesim.js (classes
    [Utils], [WaveModel] and [Ripple]) and the properties of it that the
    specification states.

    Number model.  JavaScript numbers are idealised:
    - indices, grid dimensions, tick counters ([wavelength], [iWave],
      [nRipples]) are integers, [Z]; [%] on them is [Z.rem] (sign of the
      dividend) and is NaN for a zero divisor;
    - configuration literals and [Math.random()] draws are rationals, [Q],
      so that spawning and position rounding compute;
    - buffer cells, forces, magnitudes and the damping factor are real
      numbers, [R], because [Math.PI] and [Math.sin] leave the rationals.
    A place where the script would produce NaN (reading a missing cell,
    dividing by a zero wavelength, indexing with NaN) or throw is an
    explicit error result.

    Object model.  Arrays are only ever indexed, never asked for their
    [length], so an array is a finite map from integer keys; a missing key
    reads [undefined].  The five grid buffers are distinct objects with
    distinct rows (the constructor allocates each, [modelStep] exchanges
    the references through locals), so they are held by value.  The two
    ripple arrays and the ripple objects are shared and mutated through
    references, so they live in a store that is part of the state. *)

From Stdlib Require Import ZArith QArith Qround Qreals Reals Psatz.
From stdpp Require Import gmap list.

Local Open Scope Z_scope.

(** ** Results of script code *)

Inductive jserr : Type :=
  | TypeError      (* property access on [undefined] *)
  | RangeError     (* [Array(n)] with an invalid length *)
  | NotANumber     (* the script computes NaN: outside the real-number model *)
  | OutOfFuel.     (* a [while] loop did not reach its exit within its fuel *)

Inductive jsres (A : Type) : Type :=
  | Ok (a : A)
  | Err (e : jserr).
Arguments Ok {A} a.
Arguments Err {A} e.

#[global] Instance jsres_ret : MRet jsres := λ A a, Ok a.
#[global] Instance jsres_bind : MBind jsres := λ A B f m,
  match m with Ok a => f a | Err e => Err e end.

(** [for(i = 0; i < n; i++) body] over a threaded state. *)
Definition for_loop {S : Type} (n : Z) (body : Z → S → jsres S) (s : S) : jsres S :=
  foldl (λ acc i, s' ← acc; body i s') (Ok s) (seqZ 0 n).

(** ** Arrays as integer-keyed maps *)

Abbreviation grid := (gmap Z (gmap Z R)).

(** [g[r][c]] as an rvalue: a missing row throws, a missing cell is
    [undefined], which every caller feeds to arithmetic at once. *)
Definition read2 (g : grid) (r c : Z) : jsres R :=
  match g !! r with
  | None => Err TypeError
  | Some row => match row !! c with
                | None => Err NotANumber
                | Some v => Ok v
                end
  end.

(** [g[r][c] = v]: a missing row throws, a missing cell is created. *)
Definition write2 (g : grid) (r c : Z) (v : R) : jsres grid :=
  match g !! r with
  | None => Err TypeError
  | Some row => Ok (<[r := <[c := v]> row]> g)
  end.

(** The stored cell, when there is one. *)
Definition cell (g : grid) (r c : Z) : option R :=
  g !! r ≫= λ row, row !! c.

(** ** Class Utils *)

Module Utils.

(** [a % b] on integers; [None] is NaN. *)
Definition rem (a b : Z) : option Z :=
  if b =? 0 then None else Some (Z.rem a b).

(** [Utils.mod = function(n, m){ return n >= 0 ? n % m : ((n % m) + m) % n; }] *)
Definition mod_ (n m : Z) : option Z :=
  if n >=? 0 then rem n m
  else x ← rem n m; rem (x + m) n.

(** [Utils.boundVal = function(v, min, max){ return Math.max(Math.min(v, max), min); }] *)
Definition boundVal (v min max : Q) : Q :=
  Qminmax.Qmax (Qminmax.Qmin v max) min.

(** [Array(n)]: the keys [0 .. n-1], or a RangeError for a length that
    is negative or not below 2^32. *)
Definition Array (n : Z) : jsres (list Z) :=
  if (0 <=? n) && (n <? 2 ^ 32) then Ok (seqZ 0 n) else Err RangeError.

(** [Utils.numArray(size, val)]: [val = val || 0], then an array of
    [size] copies of it. *)
Definition numArray (size : Z) (val : option R) : jsres (gmap Z R) :=
  let v := default 0%R val in
  keys ← Array size;
  Ok (list_to_map ((λ k, (k, v)) <$> keys)).

(** [Utils.numArray2D(rows, cols, val)]: one fresh row per key; the row
    constructor only runs when there is a key. *)
Definition numArray2D (rows cols : Z) (val : option R) : jsres grid :=
  keys ← Array rows;
  match keys with
  | [] => Ok ∅
  | _ => row ← numArray cols val;
         Ok (list_to_map ((λ k, (k, row)) <$> keys))
  end.

End Utils.

(** [~~x]: truncate towards zero, then wrap into the signed 32-bit range. *)
Definition toInt32 (q : Q) : Z :=
  let t := Z.quot (Qnum q) (Z.pos (Qden q)) in
  (t + 2 ^ 31) mod 2 ^ 32 - 2 ^ 31.

(** ** Configuration *)

(** A model configuration (the entries of [WaveModel.Conf]); a spawn
    fraction that is NaN is [None]. *)
Module Conf.
Record t : Type := {
  isTorus    : bool;
  ripples    : Q;
  wavelength : Q;
  magnitude  : Q;
  damping    : R;
  spawnCol   : option Q;
  spawnRow   : option Q
}.
End Conf.

(** ** Class Ripple *)

(** The ripple's [model] back reference is an explicit argument: [init]
    gets the model's configuration and dimensions and the values that its
    [Math.random()] calls return, [applyForce] gets the model's force
    buffer and returns it updated together with the updated ripple. *)
Module Ripple.

Record t : Type := {
  wavelength : Z;
  iWave      : Z;
  r          : Z;
  c          : Z;
  mag        : R
}.

(** [Ripple.prototype.init]; [rnd k], [rnd (k+1)], ... are the coming
    random draws, the result carries the index of the next unused one. *)
Definition init (conf : Conf.t) (rows cols : Z) (rnd : nat → Q) (k : nat) : t * nat :=
  let '(w, k) :=
    if Qlt_le_dec (Conf.wavelength conf) 0
    then ((rnd k * - Conf.wavelength conf)%Q, S k)
    else (Conf.wavelength conf, k) in
  let wl := 1 + toInt32 w in
  let '(fr, k) :=
    match Conf.spawnRow conf with
    | None => (rnd k, S k)
    | Some x => (x, k)
    end in
  let '(fc, k) :=
    match Conf.spawnCol conf with
    | None => (rnd k, S k)
    | Some x => (x, k)
    end in
  let '(m, k) :=
    if Qlt_le_dec (Conf.magnitude conf) 0
    then ((rnd k * - Conf.magnitude conf)%Q, S k)
    else (Conf.magnitude conf, k) in
  ({| wavelength := wl;
      iWave := wl;
      r := toInt32 (fr * inject_Z rows);
      c := toInt32 (fc * inject_Z cols);
      mag := Q2R m |}, k).

(** The force that [applyForce] writes:
    [this.mag * Math.sin(wavePos * Math.PI * 2)] with
    [wavePos = (this.wavelength - this.iWave) / this.wavelength]. *)
Definition force (rp : t) : R :=
  let wavePos := (IZR (wavelength rp - iWave rp) / IZR (wavelength rp))%R in
  (mag rp * sin (wavePos * PI * 2))%R.

(** [Ripple.prototype.applyForce].  A zero wavelength makes [wavePos]
    infinite or NaN. *)
Definition applyForce (rp : t) (F : grid) : jsres (bool * t * grid) :=
  if wavelength rp =? 0 then Err NotANumber else
  F' ← write2 F (r rp) (c rp) (force rp);
  let rp' := {| wavelength := wavelength rp;
                iWave := iWave rp - 1;
                r := r rp; c := c rp; mag := mag rp |} in
  Ok (negb (iWave rp' =? 0), rp', F').

End Ripple.

(** ** Class WaveModel *)

Inductive aref : Type := Arr0 | Arr1.

#[global] Instance aref_eq_dec : EqDecision aref.
Proof. solve_decision. Defined.

Abbreviation rid := nat.

Module WaveModel.

(** [var FORCE_INFLUENCE = 0.1;] *)
Definition FORCE_INFLUENCE : R := (1 / 10)%R.

(** A model object with the store it points into.  [ripples] and
    [ripples_] are references to one of the two arrays that the
    constructor allocates, [array0] and [array1]; an array entry is a
    reference into [objs], the ripple objects.  [Math_random] lists
    the values that successive [Math.random()] calls return and
    [nRandom] counts the calls made. *)
Record t : Type := {
  rows : Z;
  cols : Z;
  conf : Conf.t;
  F  : grid;
  V  : grid;
  V_ : grid;
  M  : grid;
  M_ : grid;
  ripples  : aref;
  ripples_ : aref;
  nRipples : Z;
  ripplesToGen : Q;
  array0 : gmap Z rid;
  array1 : gmap Z rid;
  objs : gmap rid Ripple.t;
  nextId : rid;
  Math_random : nat → Q;
  nRandom : nat
}.

Definition set_grids (this : t) (f v v' m m' : grid) : t :=
  {| rows := rows this; cols := cols this; conf := conf this;
     F := f; V := v; V_ := v'; M := m; M_ := m';
     ripples := ripples this; ripples_ := ripples_ this;
     nRipples := nRipples this; ripplesToGen := ripplesToGen this;
     array0 := array0 this; array1 := array1 this;
     objs := objs this; nextId := nextId this;
     Math_random := Math_random this; nRandom := nRandom this |}.

Definition set_F (this : t) (f : grid) : t :=
  set_grids this f (V this) (V_ this) (M this) (M_ this).

Definition set_objs (this : t) (o : gmap rid Ripple.t) (next : rid) (k : nat) : t :=
  {| rows := rows this; cols := cols this; conf := conf this;
     F := F this; V := V this; V_ := V_ this; M := M this; M_ := M_ this;
     ripples := ripples this; ripples_ := ripples_ this;
     nRipples := nRipples this; ripplesToGen := ripplesToGen this;
     array0 := array0 this; array1 := array1 this;
     objs := o; nextId := next;
     Math_random := Math_random this; nRandom := k |}.

Definition set_ripples (this : t) (a a' : aref) (n : Z) (q : Q) : t :=
  {| rows := rows this; cols := cols this; conf := conf this;
     F := F this; V := V this; V_ := V_ this; M := M this; M_ := M_ this;
     ripples := a; ripples_ := a';
     nRipples := n; ripplesToGen := q;
     array0 := array0 this; array1 := array1 this;
     objs := objs this; nextId := nextId this;
     Math_random := Math_random this; nRandom := nRandom this |}.

(** The array behind a reference, and [a[k] = id]. *)
Definition deref (a : aref) (this : t) : gmap Z rid :=
  match a with Arr0 => array0 this | Arr1 => array1 this end.

Definition store (a : aref) (k : Z) (id : rid) (this : t) : t :=
  {| rows := rows this; cols := cols this; conf := conf this;
     F := F this; V := V this; V_ := V_ this; M := M this; M_ := M_ this;
     ripples := ripples this; ripples_ := ripples_ this;
     nRipples := nRipples this; ripplesToGen := ripplesToGen this;
     array0 := match a with Arr0 => <[k := id]> (array0 this) | Arr1 => array0 this end;
     array1 := match a with Arr0 => array1 this | Arr1 => <[k := id]> (array1 this) end;
     objs := objs this; nextId := nextId this;
     Math_random := Math_random this; nRandom := nRandom this |}.

(** [new WaveModel(rows, cols, conf)], with the random sequence of the
    run.  [ripplesToGen = conf.ripples < 0 ? -conf.ripples : 0]. *)
Definition new (rows cols : Z) (conf : Conf.t) (rnd : nat → Q) : jsres t :=
  f  ← Utils.numArray2D rows cols None;
  v  ← Utils.numArray2D rows cols None;
  v' ← Utils.numArray2D rows cols None;
  m  ← Utils.numArray2D rows cols None;
  m' ← Utils.numArray2D rows cols None;
  Ok {| rows := rows; cols := cols; conf := conf;
        F := f; V := v; V_ := v'; M := m; M_ := m';
        ripples := Arr0; ripples_ := Arr1;
        nRipples := 0;
        ripplesToGen := if Qlt_le_dec (Conf.ripples conf) 0
                        then (- Conf.ripples conf)%Q else 0%Q;
        array0 := ∅; array1 := ∅;
        objs := ∅; nextId := O;
        Math_random := rnd; nRandom := O |}.

(** [cells[r][c]] where an index may be NaN ([None]): [cells[NaN]] is
    [undefined], and so is [row[NaN]]. *)
Definition read2nan (cells : grid) (r c : option Z) : jsres R :=
  match r with
  | None => Err TypeError
  | Some r' =>
      match c with
      | None => match cells !! r' with
                | Some _ => Err NotANumber
                | None => Err TypeError
                end
      | Some c' => read2 cells r' c'
      end
  end.

(** [getterFactory.call(this, propName, defValue)]; the property is
    given by its projection.  The getter closes over the buffer, the
    torus flag and the dimensions, and has no effect on the store. *)
Definition getterFactory (this : t) (prop : t → grid) (defValue : R)
  : Z → Z → jsres R :=
  let cells := prop this in
  let isTorus := Conf.isTorus (conf this) in
  let rows := rows this in
  let cols := cols this in
  λ r c,
    if isTorus
    then read2nan cells (Utils.mod_ r rows) (Utils.mod_ c cols)
    else if (r <? 0) || (r >=? rows) || (c <? 0) || (c >=? cols)
         then Ok defValue
         else read2 cells r c.

(** The buffers that the loops of [modelStep] write: the locals [F],
    [V_] and [M_].  [V] and [M] are only read. *)
Record bufs : Type := { bF : grid; bV_ : grid; bM_ : grid }.

(** The body of the inner loop of [modelStep], statement by statement. *)
Definition cellStep (this : t) (getM : Z → Z → jsres R) (r c : Z) (b : bufs)
  : jsres bufs :=
  (* V_[r][c] = V[r][c] * (1 - conf.damping); *)
  v ← read2 (V this) r c;
  V1 ← write2 (bV_ b) r c (v * (1 - Conf.damping (conf this)))%R;
  (* F[r][c] += - M[r][c] * (4 + 4 * Math.PI) + getM(...) ... *)
  f0 ← read2 (bF b) r c;
  m ← read2 (M this) r c;
  a1 ← getM (r - 1) (c - 1);
  a2 ← getM r (c - 1);
  a3 ← getM (r + 1) (c - 1);
  a4 ← getM (r - 1) c;
  a5 ← getM (r + 1) c;
  a6 ← getM (r - 1) (c + 1);
  a7 ← getM r (c + 1);
  a8 ← getM (r + 1) (c + 1);
  F1 ← write2 (bF b) r c
         (f0 + (- m * (4 + 4 * PI) + a1 + a2 * PI + a3 + a4 * PI
                + a5 * PI + a6 + a7 * PI + a8))%R;
  (* V_[r][c] += F[r][c] * FORCE_INFLUENCE; *)
  v1 ← read2 V1 r c;
  f1 ← read2 F1 r c;
  V2 ← write2 V1 r c (v1 + f1 * FORCE_INFLUENCE)%R;
  (* M_[r][c] = M[r][c] + V_[r][c]; *)
  m' ← read2 (M this) r c;
  v2 ← read2 V2 r c;
  M1 ← write2 (bM_ b) r c (m' + v2)%R;
  (* F[r][c] = 0; *)
  F2 ← write2 F1 r c 0%R;
  Ok {| bF := F2; bV_ := V2; bM_ := M1 |}.

(** [WaveModel.prototype.modelStep]: the two loops, then the swaps
    [this.V = V_; this.V_ = V; this.M = M_; this.M_ = M;]. *)
Definition modelStep (this : t) : jsres t :=
  let getM := getterFactory this M 0%R in
  b ← for_loop (rows this)
        (λ r b, for_loop (cols this) (λ c b', cellStep this getM r c b') b)
        {| bF := F this; bV_ := V_ this; bM_ := M_ this |};
  Ok (set_grids this (bF b) (bV_ b) (V this) (bM_ b) (M this)).

(** [new Ripple(this)]: a fresh object, initialised by [init]. *)
Definition newRipple (this : t) : rid * t :=
  let '(rp, k) := Ripple.init (conf this) (rows this) (cols this)
                    (Math_random this) (nRandom this) in
  let id := nextId this in
  (id, set_objs this (<[id := rp]> (objs this)) (S id) k).

(** [while(this.ripplesToGen >= 1){ ripples[nRipples++] = new Ripple(this);
    this.ripplesToGen--; }] with the locals [ripples] and [nRipples];
    [None] when the fuel runs out before the guard fails. *)
Fixpoint spawnLoop (fuel : nat) (ripples : aref) (nRipples : Z) (this : t)
  : option (Z * t) :=
  if Qle_bool 1 (ripplesToGen this) then
    match fuel with
    | O => None
    | S fuel' =>
        let '(id, this1) := newRipple this in
        let this2 := store ripples nRipples id this1 in
        let this3 := set_ripples this2 (WaveModel.ripples this2)
                       (WaveModel.ripples_ this2) (WaveModel.nRipples this2)
                       (ripplesToGen this2 - 1)%Q in
        spawnLoop fuel' ripples (nRipples + 1) this3
    end
  else Some (nRipples, this).

(** [id.applyForce()] through the reference: the ripple object and the
    model's force buffer are updated in the store. *)
Definition applyForce (id : rid) (this : t) : jsres (bool * t) :=
  match objs this !! id with
  | None => Err TypeError
  | Some rp =>
      '(b, rp', F') ← Ripple.applyForce rp (F this);
      Ok (b, set_objs (set_F this F') (<[id := rp']> (objs this))
               (nextId this) (nRandom this))
  end.

(** The body of the compaction loop of [genForces],
    [if(ripples[i].applyForce()){ ripples_[j++] = ripples[i]; }],
    on the loop state [(j, store)].  [applyForce] leaves the arrays
    alone, so the second read of [ripples[i]] gives the same reference
    as the first. *)
Definition applyRipple (ripples ripples_ : aref) (i : Z) (s : Z * t)
  : jsres (Z * t) :=
  let '(j, this) := s in
  match deref ripples this !! i with
  | None => Err TypeError
  | Some id =>
      '(b, this1) ← applyForce id this;
      if b : bool then Ok (j + 1, store ripples_ j id this1)
      else Ok (j, this1)
  end.

(** The first half of [genForces]: the spawn quota is topped up when
    the rate is positive, then the [while] loop runs, with one unit of
    fuel per whole ripple in the quota.  The result is the local
    [nRipples] and the store. *)
Definition spawnRipples (this : t) : option (Z * t) :=
  let ripples := WaveModel.ripples this in
  let ripples_ := WaveModel.ripples_ this in
  let nRipples := WaveModel.nRipples this in
  let this1 :=
    if Qlt_le_dec 0 (Conf.ripples (conf this))
    then set_ripples this ripples ripples_ nRipples
           (ripplesToGen this + Conf.ripples (conf this))%Q
    else this in
  spawnLoop (Z.to_nat (Qfloor (ripplesToGen this1))) ripples nRipples this1.

(** [WaveModel.prototype.genForces].  The locals [ripples] and
    [ripples_] are read before anything is written.  The last three
    statements are [this.ripples = ripples_; this.ripples_ =
    this.ripples; this.nRipples = j;]: the second one reads the field
    that the first one has just written. *)
Definition genForces (this : t) : jsres t :=
  let ripples := WaveModel.ripples this in
  let ripples_ := WaveModel.ripples_ this in
  match spawnRipples this with
  | None => Err OutOfFuel
  | Some (nRipples, this2) =>
      '(j, this3) ← for_loop nRipples (applyRipple ripples ripples_) (0, this2);
      let this4 := set_ripples this3 ripples_ (WaveModel.ripples_ this3)
                     (WaveModel.nRipples this3) (ripplesToGen this3) in
      let this5 := set_ripples this4 (WaveModel.ripples this4) (WaveModel.ripples this4)
                     (WaveModel.nRipples this4) (ripplesToGen this4) in
      Ok (set_ripples this5 (WaveModel.ripples this5) (WaveModel.ripples_ this5)
            j (ripplesToGen this5))
  end.

(** [WaveModel.prototype.insertRipple]:
    [this.ripples[this.nRipples++] = ripple;] *)
Definition insertRipple (ripple : rid) (this : t) : t :=
  let this1 := store (WaveModel.ripples this) (WaveModel.nRipples this) ripple this in
  set_ripples this1 (WaveModel.ripples this1) (WaveModel.ripples_ this1)
    (WaveModel.nRipples this1 + 1) (ripplesToGen this1).

End WaveModel.

(** ** Notions used in the statements *)

(** The active ripple set: the first [nRipples] entries of
    [this.ripples]; [None] when one of them is missing. *)
Definition active (this : WaveModel.t) : option (list rid) :=
  mapM (λ i, WaveModel.deref (WaveModel.ripples this) this !! i)
       (seqZ 0 (WaveModel.nRipples this)).

(** Every cell of [[0,rows) x [0,cols)] is there. *)
Definition shaped (g : grid) (rows cols : Z) : Prop :=
  ∀ r c, 0 ≤ r < rows → 0 ≤ c < cols → is_Some (cell g r c).

(** Every cell of [[0,rows) x [0,cols)] holds exactly zero. *)
Definition zero_on (g : grid) (rows cols : Z) : Prop :=
  ∀ r c, 0 ≤ r < rows → 0 ≤ c < cols → cell g r c = Some 0%R.

(** [n] successive [applyForce] calls on one ripple: what each call
    returns and what it leaves in the force buffer at the ripple's cell. *)
Fixpoint calls (n : nat) (rp : Ripple.t) (F : grid) : jsres (list (bool * option R)) :=
  match n with
  | O => Ok []
  | S n' =>
      '(b, rp', F') ← Ripple.applyForce rp F;
      rest ← calls n' rp' F';
      Ok ((b, cell F' (Ripple.r rp) (Ripple.c rp)) :: rest)
  end.

(** The sum of the forces in a list of call records. *)
Definition total_force (l : list (bool * option R)) : R :=
  foldr (λ x acc, (default 0 (snd x) + acc)%R) 0%R l.

(** The number stored in a cell, 0 where there is none. *)
Definition val (g : grid) (r c : Z) : R := default 0%R (cell g r c).

(** What the magnitude accessor of [modelStep] returns, 0 where it fails. *)
Definition neighbour (this : WaveModel.t) (r c : Z) : R :=
  match WaveModel.getterFactory this WaveModel.M 0%R r c with
  | Ok v => v
  | Err _ => 0%R
  end.

(** The force of the magnitudes on a cell: the right-hand side of the
    [F[r][c] += ...] statement of [modelStep]. *)
Definition pull (this : WaveModel.t) (r c : Z) : R :=
  (- val (WaveModel.M this) r c * (4 + 4 * PI)
   + neighbour this (r - 1) (c - 1) + neighbour this r (c - 1) * PI
   + neighbour this (r + 1) (c - 1)
   + neighbour this (r - 1) c * PI + neighbour this (r + 1) c * PI
   + neighbour this (r - 1) (c + 1) + neighbour this r (c + 1) * PI
   + neighbour this (r + 1) (c + 1))%R.

(** The velocity of a cell after one [modelStep]. *)
Definition next_velocity (this : WaveModel.t) (r c : Z) : R :=
  (val (WaveModel.V this) r c * (1 - Conf.damping (WaveModel.conf this))
   + (val (WaveModel.F this) r c + pull this r c) * WaveModel.FORCE_INFLUENCE)%R.

(** All five buffers have all their cells. *)
Definition buffers_shaped (this : WaveModel.t) : Prop :=
  let rows := WaveModel.rows this in
  let cols := WaveModel.cols this in
  shaped (WaveModel.F this) rows cols ∧ shaped (WaveModel.V this) rows cols
  ∧ shaped (WaveModel.V_ this) rows cols ∧ shaped (WaveModel.M this) rows cols
  ∧ shaped (WaveModel.M_ this) rows cols.

(** [n] calls of [modelStep] in a row. *)
Fixpoint steps (n : nat) (this : WaveModel.t) : jsres WaveModel.t :=
  match n with
  | O => Ok this
  | S n' => this' ← WaveModel.modelStep this; steps n' this'
  end.

(** A small torus model whose two rows hold different magnitudes. *)
Definition torus_conf : Conf.t :=
  {| Conf.isTorus := true; Conf.ripples := 0; Conf.wavelength := 4;
     Conf.magnitude := 10; Conf.damping := 0%R;
     Conf.spawnCol := None; Conf.spawnRow := None |}.

Definition zeros_2x1 : grid := {[ 0 := {[ 0 := 0%R ]}; 1 := {[ 0 := 0%R ]} ]}.

Definition torus_2x1 : WaveModel.t :=
  {| WaveModel.rows := 2; WaveModel.cols := 1; WaveModel.conf := torus_conf;
     WaveModel.F := zeros_2x1; WaveModel.V := zeros_2x1; WaveModel.V_ := zeros_2x1;
     WaveModel.M := {[ 0 := {[ 0 := 1%R ]}; 1 := {[ 0 := 2%R ]} ]};
     WaveModel.M_ := zeros_2x1;
     WaveModel.ripples := Arr0; WaveModel.ripples_ := Arr1;
     WaveModel.nRipples := 0; WaveModel.ripplesToGen := 0;
     WaveModel.array0 := ∅; WaveModel.array1 := ∅;
     WaveModel.objs := ∅; WaveModel.nextId := O;
     WaveModel.Math_random := λ _, 0%Q; WaveModel.nRandom := O |}.

(** The sum of [sin (k a)] over [k = 0 .. n-1]. *)
Definition sine_sum (a : R) (n : nat) : R :=
  foldr (λ k acc, (sin (INR k * a) + acc)%R) 0%R (seq 0 n).

(** The record of the [i]-th coming call (counting from 0) of a ripple. *)
Definition call_record (rp : Ripple.t) (i : nat) : bool * option R :=
  (negb (Ripple.iWave rp - 1 - Z.of_nat i =? 0),
   Some (Ripple.mag rp *
         sin (IZR (Ripple.wavelength rp - (Ripple.iWave rp - Z.of_nat i))
              / IZR (Ripple.wavelength rp) * PI * 2))%R).

(** Sample ripples. *)
Definition ripple_w5 : Ripple.t :=
  {| Ripple.wavelength := 5; Ripple.iWave := 5;
     Ripple.r := 0; Ripple.c := 0; Ripple.mag := 10%R |}.

Definition ripple_w8 : Ripple.t :=
  {| Ripple.wavelength := 8; Ripple.iWave := 6;
     Ripple.r := 0; Ripple.c := 0; Ripple.mag := 3%R |}.

(** The state of the pass when it is about to treat cell [(i, k)]:
    the cells before it in row-major order hold their new values, the
    force buffer is unread elsewhere, and no row has been lost. *)
Definition pass_inv (this : WaveModel.t) (i k : Z) (b : WaveModel.bufs) : Prop :=
  let rows := WaveModel.rows this in
  let cols := WaveModel.cols this in
  (∀ r, 0 ≤ r < rows → 0 < cols →
     is_Some (WaveModel.bF b !! r) ∧ is_Some (WaveModel.bV_ b !! r)
     ∧ is_Some (WaveModel.bM_ b !! r))
  ∧ (∀ r c, 0 ≤ r < rows → 0 ≤ c < cols →
       (r < i ∨ (r = i ∧ c < k) →
          cell (WaveModel.bF b) r c = Some 0%R
          ∧ cell (WaveModel.bV_ b) r c = Some (next_velocity this r c)
          ∧ cell (WaveModel.bM_ b) r c
            = Some (val (WaveModel.M this) r c + next_velocity this r c)%R)
       ∧ (¬ (r < i ∨ (r = i ∧ c < k)) →
          cell (WaveModel.bF b) r c = cell (WaveModel.F this) r c)).

(** A one-cell buffer, and a one-cell model with full damping that is
    displaced and moving. *)
Definition one_cell (x : R) : grid := {[ 0 := {[ 0 := x ]} ]}.

Definition damped_conf : Conf.t :=
  {| Conf.isTorus := false; Conf.ripples := 0; Conf.wavelength := 4;
     Conf.magnitude := 10; Conf.damping := 1%R;
     Conf.spawnCol := None; Conf.spawnRow := None |}.

Definition moving_1x1 : WaveModel.t :=
  {| WaveModel.rows := 1; WaveModel.cols := 1; WaveModel.conf := damped_conf;
     WaveModel.F := one_cell 0; WaveModel.V := one_cell 1; WaveModel.V_ := one_cell 0;
     WaveModel.M := one_cell 1; WaveModel.M_ := one_cell 0;
     WaveModel.ripples := Arr0; WaveModel.ripples_ := Arr1;
     WaveModel.nRipples := 0; WaveModel.ripplesToGen := 0;
     WaveModel.array0 := ∅; WaveModel.array1 := ∅;
     WaveModel.objs := ∅; WaveModel.nextId := O;
     WaveModel.Math_random := λ _, 0%Q; WaveModel.nRandom := O |}.

(** The compaction of [genForces] on plain lists: [applyForce] on each
    ripple of the list in turn, keeping those for which it returns true.
    It threads the ripple objects and the force buffer, the two things
    that [applyForce] writes. *)
Fixpoint apply_all (ids : list rid) (objs : gmap rid Ripple.t) (F : grid)
  : jsres (list rid * gmap rid Ripple.t * grid) :=
  match ids with
  | [] => Ok ([], objs, F)
  | id :: ids' =>
      match objs !! id with
      | None => Err TypeError
      | Some rp =>
          '(b, rp', F') ← Ripple.applyForce rp F;
          '(keep, objs2, F2) ← apply_all ids' (<[id := rp']> objs) F';
          Ok (if b : bool then id :: keep else keep, objs2, F2)
      end
  end.

(** The array [arr] holds the list [l] from index [from] on. *)
Definition holds (arr : gmap Z rid) (from : Z) (l : list rid) : Prop :=
  ∀ (k : nat) (id : rid), l !! k = Some id → arr !! (from + Z.of_nat k) = Some id.

(** The fields that neither spawning nor applying a ripple writes. *)
Definition fixed_part (this : WaveModel.t) :=
  (WaveModel.rows this, WaveModel.cols this, WaveModel.conf this,
   (WaveModel.V this, WaveModel.V_ this, WaveModel.M this, WaveModel.M_ this),
   WaveModel.Math_random this).

(** Every ripple of the list is an object with a nonzero wavelength
    whose row is in the force buffer. *)
Definition appliable (ids : list rid) (this : WaveModel.t) : Prop :=
  ∀ id, id ∈ ids →
    ∃ rp, WaveModel.objs this !! id = Some rp
          ∧ Ripple.wavelength rp ≠ 0
          ∧ is_Some (WaveModel.F this !! Ripple.r rp).

(** The counters that applying a ripple leaves alone. *)
Definition counters (this : WaveModel.t) :=
  (WaveModel.nextId this, WaveModel.nRandom this, WaveModel.ripplesToGen this).

(** The state of the compaction loop of [genForces] before it treats
    index [i]: the kept ripples of the first [i] are the first [j] entries
    of the target array, the rest of the source array is still to come,
    and what the rest will keep completes the list [surv]. *)
Definition compact_inv (src dst : aref) (n : Z) (s0 : WaveModel.t)
    (surv : list rid) (oF : gmap rid Ripple.t) (FF : grid)
    (i : Z) (s : Z * WaveModel.t) : Prop :=
  ∃ prefix rest keep,
    s.1 = Z.of_nat (length prefix)
    ∧ s.1 ≤ i
    ∧ Z.of_nat (length rest) = n - i
    ∧ holds (WaveModel.deref src s.2) i rest
    ∧ holds (WaveModel.deref dst s.2) 0 prefix
    ∧ apply_all rest (WaveModel.objs s.2) (WaveModel.F s.2) = Ok (keep, oF, FF)
    ∧ surv = prefix ++ keep
    ∧ fixed_part s.2 = fixed_part s0
    ∧ counters s.2 = counters s0.

(** One tick as the driver runs it: [genForces()], then [modelStep()]. *)
Definition tick (this : WaveModel.t) : jsres WaveModel.t :=
  this1 ← WaveModel.genForces this; WaveModel.modelStep this1.

(** A model at rest (zero force, velocity and magnitude) with nothing to
    spawn and one active ripple, the object [id] with state [rp], on a
    cell of the grid. *)
Definition one_ripple_at_rest (this : WaveModel.t) (id : rid) (rp : Ripple.t) : Prop :=
  let rows := WaveModel.rows this in
  let cols := WaveModel.cols this in
  buffers_shaped this
  ∧ zero_on (WaveModel.F this) rows cols
  ∧ zero_on (WaveModel.V this) rows cols
  ∧ zero_on (WaveModel.M this) rows cols
  ∧ (Conf.ripples (WaveModel.conf this) <= 0)%Q
  ∧ (WaveModel.ripplesToGen this < 1)%Q
  ∧ WaveModel.nRipples this = 1
  ∧ WaveModel.deref (WaveModel.ripples this) this !! 0 = Some id
  ∧ WaveModel.objs this !! id = Some rp
  ∧ Ripple.wavelength rp ≠ 0
  ∧ 0 ≤ Ripple.r rp < rows
  ∧ 0 ≤ Ripple.c rp < cols.

(** The ripple after one more [applyForce]. *)
Definition ticked (rp : Ripple.t) : Ripple.t :=
  {| Ripple.wavelength := Ripple.wavelength rp;
     Ripple.iWave := Ripple.iWave rp - 1;
     Ripple.r := Ripple.r rp; Ripple.c := Ripple.c rp;
     Ripple.mag := Ripple.mag rp |}.

(** The end-to-end scenario: a 5 x 5 non-torus model with damping 0 that
    spawns nothing by itself, and whose [new Ripple(model)] is a ripple
    on cell (2,2) with resolved wavelength 4 and magnitude 10. *)
Definition pond_conf : Conf.t :=
  {| Conf.isTorus := false; Conf.ripples := 0; Conf.wavelength := 3;
     Conf.magnitude := 10; Conf.damping := 0%R;
     Conf.spawnCol := Some (2 # 5); Conf.spawnRow := Some (2 # 5) |}.

Definition pond : jsres WaveModel.t :=
  WaveModel.new 5 5 pond_conf (λ _, 0%Q).

(** [var ripple = new Ripple(model); model.insertRipple(ripple);] *)
Definition pond_with_ripple : jsres WaveModel.t :=
  this ← pond;
  let '(id, this1) := WaveModel.newRipple this in
  Ok (WaveModel.insertRipple id this1).

Definition pond_ripple : Ripple.t :=
  {| Ripple.wavelength := 4; Ripple.iWave := 4;
     Ripple.r := 2; Ripple.c := 2; Ripple.mag := Q2R 10 |}.

(** Sample stores: a two-row torus model that is all zeros, a buffer
    with the single cell (2,2), and a model in the state that a first
    [genForces] call leaves, with both ripple fields on the same array and
    two active ripples, the first of which is on its last tick. *)
Definition still_2x1 : WaveModel.t :=
  {| WaveModel.rows := 2; WaveModel.cols := 1; WaveModel.conf := torus_conf;
     WaveModel.F := zeros_2x1; WaveModel.V := zeros_2x1; WaveModel.V_ := zeros_2x1;
     WaveModel.M := zeros_2x1; WaveModel.M_ := zeros_2x1;
     WaveModel.ripples := Arr0; WaveModel.ripples_ := Arr1;
     WaveModel.nRipples := 0; WaveModel.ripplesToGen := 0;
     WaveModel.array0 := ∅; WaveModel.array1 := ∅;
     WaveModel.objs := ∅; WaveModel.nextId := O;
     WaveModel.Math_random := λ _, 0%Q; WaveModel.nRandom := O |}.

Definition cell_2_2 : grid := {[ 2 := {[ 2 := 0%R ]} ]}.

Definition ripple_last : Ripple.t :=
  {| Ripple.wavelength := 5; Ripple.iWave := 1;
     Ripple.r := 0; Ripple.c := 0; Ripple.mag := 10%R |}.

Definition two_ripples : WaveModel.t :=
  {| WaveModel.rows := 2; WaveModel.cols := 1; WaveModel.conf := torus_conf;
     WaveModel.F := zeros_2x1; WaveModel.V := zeros_2x1; WaveModel.V_ := zeros_2x1;
     WaveModel.M := zeros_2x1; WaveModel.M_ := zeros_2x1;
     WaveModel.ripples := Arr1; WaveModel.ripples_ := Arr1;
     WaveModel.nRipples := 2; WaveModel.ripplesToGen := 0;
     WaveModel.array0 := ∅;
     WaveModel.array1 := {[ 0 := 0%nat; 1 := 1%nat ]};
     WaveModel.objs := {[ 0%nat := ripple_last; 1%nat := ripple_w8 ]};
     WaveModel.nextId := 2%nat;
     WaveModel.Math_random := λ _, 0%Q; WaveModel.nRandom := O |}.

(** ** Class WaveSim: the arithmetic of the driver *)

(** The canvas, the timer and the event wiring are left out; what is
    kept is what the driver computes: the grid position of a pointer
    position, the ripple that a mouse press adds, the colour of a
    magnitude and the rectangle of a cell. *)
Module WaveSim.

(** [toGridPos]: [{ r: ~~(y * this.conf.rows / this.canvas.height),
    c: ~~(x * this.conf.cols / this.canvas.width) }], with the grid and
    canvas dimensions as arguments. *)
Definition toGridPos (rows cols : Z) (width height : Q) (x y : Q) : Z * Z :=
  (toInt32 (y * inject_Z rows / height), toInt32 (x * inject_Z cols / width)).

(** [WaveSim.prototype.addRipple(pos, delay)] on the optional model of
    the simulation: nothing without a model; otherwise [new
    Ripple(model)], the four field assignments ([iWave] is not among
    them) and [insertRipple]. *)
Definition addRipple (pos : Z * Z) (delay : Q) (waveModel : option WaveModel.t)
  : option WaveModel.t :=
  match waveModel with
  | None => None
  | Some this =>
      let '(ripple, this1) := WaveModel.newRipple this in
      let assign (rp : Ripple.t) : Ripple.t :=
        {| Ripple.wavelength := toInt32 (Utils.boundVal (delay / 20 + 10) 10 50);
           Ripple.iWave := Ripple.iWave rp;
           Ripple.r := pos.1;
           Ripple.c := pos.2;
           Ripple.mag := Q2R (Utils.boundVal (delay / 40 + 5) 5 50) |} in
      let this2 := WaveModel.set_objs this1 (alter assign ripple (WaveModel.objs this1))
                     (WaveModel.nextId this1) (WaveModel.nRandom this1) in
      Some (WaveModel.insertRipple ripple this2)
  end.

(** [~~x] on a magnitude-derived number: truncate towards zero, then
    wrap into the signed 32-bit range. *)
Definition truncR (x : R) : Z :=
  if Rle_dec 0 x then Int_part x else - Int_part (- x).

Definition toInt32R (x : R) : Z :=
  (truncR x + 2 ^ 31) mod 2 ^ 32 - 2 ^ 31.

(** [Utils.boundVal] at the numbers of the renderer:
    [Math.max(Math.min(v, max), min)]. *)
Definition boundValR (v min max : R) : R := Rmax (Rmin v max) min.

(** A base colour [{r, g, b}] and the colour object [col = {r, g, b, a}]
    that [magToCol] fills. *)
Record rgb : Type := { base_r : R; base_g : R; base_b : R }.
Record colour : Type := { col_r : Z; col_g : Z; col_b : Z; col_a : R }.

(** [magToCol(mag, base, alpha, col)]; the updated [col] is returned. *)
Definition magToCol (mag : R) (base : rgb) (alpha : R) (col : colour) : colour :=
  let '(a, mag) :=
    if Rlt_dec alpha 1
    then (boundValR (alpha + Rabs mag * (1 - alpha)) 0 1,
          if Rlt_dec mag 0 then (8 / 10)%R else (12 / 10)%R)
    else (col_a col, (mag + 1)%R) in
  {| col_r := toInt32R (boundValR (base_r base * mag) 0 255);
     col_g := toInt32R (boundValR (base_g base * mag) 0 255);
     col_b := toInt32R (boundValR (base_b base * mag) 0 255);
     col_a := a |}.

(** The calls that [drawSquare] makes on the 2D context. *)
Inductive ctx_call (style : Type) : Type :=
| fillStyle (col : style)
| clearRect (x y w h : Z)
| fillRect (x y w h : Z).
Arguments fillStyle {style} col.
Arguments clearRect {style} x y w h.
Arguments fillRect {style} x y w h.

(** [drawSquare(r, c, col, toClear)] for a canvas of [width] by [height]
    pixels and a grid of [rows] by [cols] cells:
    [w = width / cols; h = height / rows; x = Math.floor(c * w);
     y = Math.floor(r * h); w = Math.ceil(w); h = Math.ceil(h)]. *)
Definition drawSquare {style : Type} (width height rows cols : Z)
    (r c : Z) (col : style) (toClear : bool) : list (ctx_call style) :=
  let w := (inject_Z width / inject_Z cols)%Q in
  let h := (inject_Z height / inject_Z rows)%Q in
  let x := Qfloor (inject_Z c * w) in
  let y := Qfloor (inject_Z r * h) in
  let w := Qceiling w in
  let h := Qceiling h in
  fillStyle col ::
  (if toClear then [clearRect x y w h] else []) ++ [fillRect x y w h].

(** The pixels [[x, x + w) x [y, y + h)] of the rectangle that a call
    sequence fills. *)
Definition filled {style : Type} (calls : list (ctx_call style)) (px py : Z) : Prop :=
  ∃ x y w h, fillRect x y w h ∈ calls ∧ x ≤ px < x + w ∧ y ≤ py < y + h.

End WaveSim.

(** ** Further notions used in the statements *)

(** The mathematical floor of a rational below 2^31 is what [~~] gives
    on the non-negative ones. *)
Definition in_int32 (q : Q) : Prop := (0 <= q)%Q ∧ (q < inject_Z (2 ^ 31))%Q.

(** A draw of [Math.random()] lies in [[0,1)]. *)
Definition unit_draws (rnd : nat → Q) : Prop := ∀ k, (0 <= rnd k)%Q ∧ (rnd k < 1)%Q.

(** A spawn fraction, when configured, lies in [[0,1)]. *)
Definition unit_fraction (f : option Q) : Prop :=
  match f with
  | None => True
  | Some x => (0 <= x)%Q ∧ (x < 1)%Q
  end.

(** [n] calls of [genForces] in a row. *)
Fixpoint gens (n : nat) (this : WaveModel.t) : jsres WaveModel.t :=
  match n with
  | O => Ok this
  | S n' => this' ← WaveModel.genForces this; gens n' this'
  end.



(** Nothing left to spawn: a rate that is not positive and a quota below 1. *)
Definition idle (this : WaveModel.t) : Prop :=
  (Conf.ripples (WaveModel.conf this) <= 0)%Q ∧ (WaveModel.ripplesToGen this < 1)%Q.




(** The spawn quota once [genForces] has topped it up:
    [if(conf.ripples > 0){ this.ripplesToGen += conf.ripples; }]. *)
Definition topped_up (this : WaveModel.t) : Q :=
  if Qlt_le_dec 0 (Conf.ripples (WaveModel.conf this))
  then (WaveModel.ripplesToGen this + Conf.ripples (WaveModel.conf this))%Q
  else WaveModel.ripplesToGen this.

(** Every cell of the force buffer of [s] either is as in [F0] or is
    the cell of a ripple object of [s]. *)
Definition written_by_ripples (F0 : grid) (s : Z * WaveModel.t) : Prop :=
  ∀ r c, cell (WaveModel.F s.2) r c = cell F0 r c
         ∨ ∃ id rp, WaveModel.objs s.2 !! id = Some rp
                    ∧ (Ripple.r rp, Ripple.c rp) = (r, c).

(** An idle two-row model whose one active ripple has wavelength 5 and
    all its ticks remaining. *)
Definition one_ripple_2x1 : WaveModel.t :=
  {| WaveModel.rows := 2; WaveModel.cols := 1; WaveModel.conf := torus_conf;
     WaveModel.F := zeros_2x1; WaveModel.V := zeros_2x1; WaveModel.V_ := zeros_2x1;
     WaveModel.M := zeros_2x1; WaveModel.M_ := zeros_2x1;
     WaveModel.ripples := Arr0; WaveModel.ripples_ := Arr1;
     WaveModel.nRipples := 1; WaveModel.ripplesToGen := 0;
     WaveModel.array0 := {[ 0 := 0%nat ]}; WaveModel.array1 := ∅;
     WaveModel.objs := {[ 0%nat := ripple_w5 ]};
     WaveModel.nextId := 1%nat;
     WaveModel.Math_random := λ _, 0%Q; WaveModel.nRandom := O |}.

(** A configuration that spawns one ripple at the start, on the row
    fraction 1. *)
Definition edge_conf : Conf.t :=
  {| Conf.isTorus := false; Conf.ripples := -1; Conf.wavelength := 3;
     Conf.magnitude := 10; Conf.damping := 0%R;
     Conf.spawnCol := Some (2 # 5); Conf.spawnRow := Some 1%Q |}.

(** * Properties *)

(** ** Grid reads and writes *)

Lemma read2_cell (g : grid) r c v : read2 g r c = Ok v ↔ cell g r c = Some v.
Proof.
  unfold read2, cell. destruct (g !! r) as [row|]; simpl.
  - destruct (row !! c); split; intros H; inversion H; done.
  - split; intros H; inversion H.
Qed.

Lemma read2_of_cell (g : grid) r c v : cell g r c = Some v → read2 g r c = Ok v.
Proof. apply read2_cell. Qed.

Lemma write2_ok (g : grid) r c v :
  is_Some (g !! r) → ∃ g', write2 g r c v = Ok g'.
Proof. intros [row Hrow]. unfold write2. rewrite Hrow. eauto. Qed.

Lemma cell_write2 (g g' : grid) r c v r' c' :
  write2 g r c v = Ok g' →
  cell g' r' c' = if decide (r = r' ∧ c = c') then Some v else cell g r' c'.
Proof.
  unfold write2, cell. destruct (g !! r) as [row|] eqn:Hrow; intros H; inversion H; subst.
  destruct (decide (r = r')) as [->|Hr].
  - rewrite lookup_insert_eq. simpl. rewrite Hrow. simpl.
    destruct (decide (c = c')) as [->|Hc].
    + rewrite lookup_insert_eq. rewrite decide_True; done.
    + rewrite lookup_insert_ne by done. rewrite decide_False; [done|]. intros [_ ?]; done.
  - rewrite lookup_insert_ne by done. rewrite decide_False; [done|]. intros [? _]; done.
Qed.

Lemma cell_write2_eq (g g' : grid) r c v :
  write2 g r c v = Ok g' → cell g' r c = Some v.
Proof. intros H. rewrite (cell_write2 _ _ _ _ _ _ _ H). rewrite decide_True; done. Qed.

Lemma cell_write2_ne (g g' : grid) r c v r' c' :
  write2 g r c v = Ok g' → (r, c) ≠ (r', c') → cell g' r' c' = cell g r' c'.
Proof.
  intros H Hne. rewrite (cell_write2 _ _ _ _ _ _ _ H).
  rewrite decide_False; [done|]. intros [-> ->]. done.
Qed.

Lemma row_write2 (g g' : grid) r c v r' :
  write2 g r c v = Ok g' → is_Some (g' !! r') ↔ is_Some (g !! r').
Proof.
  unfold write2. destruct (g !! r) as [row|] eqn:Hrow; intros H; inversion H; subst.
  destruct (decide (r = r')) as [->|Hr].
  - rewrite lookup_insert_eq, Hrow. split; eauto.
  - rewrite lookup_insert_ne by done. done.
Qed.

Lemma cell_row (g : grid) r c : is_Some (cell g r c) → is_Some (g !! r).
Proof. unfold cell. destruct (g !! r); simpl; [eauto|]. intros [? ?]; done. Qed.

(** ** The loop rule *)

Lemma for_loop_inv {S : Type} (I : Z → S → Prop) (n : Z) (body : Z → S → jsres S) (s : S) :
  I 0 s →
  (∀ i s0, 0 ≤ i < n → I i s0 → ∃ s1, body i s0 = Ok s1 ∧ I (i + 1) s1) →
  ∃ s', for_loop n body s = Ok s' ∧ I (Z.max 0 n) s'.
Proof.
  intros H0 Hstep. unfold for_loop.
  destruct (Z.le_gt_cases n 0) as [Hn|Hn].
  { rewrite seqZ_nil by lia. simpl. exists s. rewrite Z.max_l by lia. done. }
  rewrite Z.max_r by lia.
  assert (Hk : ∀ k : nat, (Z.of_nat k ≤ n) →
     ∃ s', foldl (λ acc i, s' ← acc; body i s') (Ok s) (seqZ 0 (Z.of_nat k)) = Ok s'
           ∧ I (Z.of_nat k) s').
  { induction k as [|k IH]; intros Hle.
    - simpl. eauto.
    - destruct IH as (s1 & Hf & HI); [lia|].
      replace (Z.of_nat (Datatypes.S k)) with (Z.of_nat k + 1) by lia.
      rewrite seqZ_app by lia. rewrite foldl_app, Hf.
      replace (seqZ (0 + Z.of_nat k) 1) with [Z.of_nat k].
      2:{ change 1 with (Z.succ 0). rewrite seqZ_cons by lia. rewrite seqZ_nil by lia.
          f_equal. }
      simpl. destruct (Hstep (Z.of_nat k) s1) as (s2 & Hb & HI2); [lia|done|].
      exists s2. split; [|done]. unfold mbind, jsres_bind. done. }
  destruct (Hk (Z.to_nat n)) as (s' & Hf & HI); [lia|].
  rewrite Z2Nat.id in Hf, HI by lia. eauto.
Qed.

(** ** Utils.mod and the boundary accessor *)

Lemma mod_nonneg n m : 0 ≤ n → m ≠ 0 → Utils.mod_ n m = Some (Z.rem n m).
Proof.
  intros Hn Hm. unfold Utils.mod_, Utils.rem.
  destruct (n >=? 0) eqn:E; [|lia].
  destruct (m =? 0) eqn:E'; [lia|done].
Qed.

Lemma mod_in_range n m : 0 ≤ n < m → Utils.mod_ n m = Some n.
Proof. intros H. rewrite mod_nonneg by lia. f_equal. apply Z.rem_small. lia. Qed.

Lemma mod_self m : 1 ≤ m → Utils.mod_ m m = Some 0.
Proof. intros H. rewrite mod_nonneg by lia. f_equal. apply Z.rem_same. lia. Qed.

(** The negative branch ends in [% n]: at [n = -1] it gives 0 whatever
    the modulus is. *)
Lemma mod_minus_one m : m ≠ 0 → Utils.mod_ (-1) m = Some 0.
Proof.
  intros Hm. unfold Utils.mod_, Utils.rem. simpl.
  destruct (m =? 0) eqn:E; [lia|]. simpl. f_equal.
  pose proof (Z.rem_bound_abs (Z.rem (-1) m + m) (-1)). lia.
Qed.

(** What [modelStep] asks of the wrap: [r - 1], [r] and [r + 1] of an
    in-range [r] are sent into the range. *)
Lemma mod_step_range n m :
  1 ≤ m → -1 ≤ n ≤ m → ∃ k, Utils.mod_ n m = Some k ∧ 0 ≤ k < m.
Proof.
  intros Hm Hn.
  destruct (decide (n = -1)) as [->|];
    [exists 0; rewrite mod_minus_one by lia; split; [done|lia]|].
  destruct (decide (n = m)) as [->|];
    [exists 0; rewrite mod_self by lia; split; [done|lia]|].
  exists n. rewrite mod_in_range by lia. split; [done|lia].
Qed.


(** C1 (evaluation of the code).  In torus mode the accessor does not
    wrap row -1 to the last row: on a grid of two rows holding 1 and 2,
    [get(-1, 0)] reads row 0 (value 1) while [get(rows - 1, 0)] is 2, so
    the two differ; and the helper leaves the range altogether at
    [mod(-10, 5) = 5], where the accessor throws on a 5-row grid. *)
Theorem torus_getter_minus_one_reads_row_zero :
  let get := WaveModel.getterFactory torus_2x1 WaveModel.M 0%R in
  get (-1) 0 = Ok 1%R
  ∧ get (WaveModel.rows torus_2x1 - 1) 0 = Ok 2%R
  ∧ get (-1) 0 ≠ get (WaveModel.rows torus_2x1 - 1) 0
  ∧ Utils.mod_ (-10) 5 = Some 5.
Proof.
  assert (H1 : WaveModel.getterFactory torus_2x1 WaveModel.M 0%R (-1) 0 = Ok 1%R)
    by reflexivity.
  assert (H2 : WaveModel.getterFactory torus_2x1 WaveModel.M 0%R
                 (WaveModel.rows torus_2x1 - 1) 0 = Ok 2%R) by reflexivity.
  cbv zeta. rewrite H1, H2. repeat split; try done.
  intros H. inversion H. lra.
Qed.

(** In torus mode the accessor sends row -1 to row 0 on every grid. *)
Lemma torus_getter_minus_one (this : WaveModel.t) (prop : WaveModel.t → grid) d c :
  Conf.isTorus (WaveModel.conf this) = true →
  1 ≤ WaveModel.rows this →
  WaveModel.getterFactory this prop d (-1) c = WaveModel.getterFactory this prop d 0 c.
Proof.
  intros HT Hr. unfold WaveModel.getterFactory. rewrite HT.
  rewrite mod_minus_one by lia. rewrite (mod_in_range 0) by lia. done.
Qed.

Section NonTorus.
Variable this : WaveModel.t.
Variable prop : WaveModel.t → grid.
Variable defValue : R.
Hypothesis flat : Conf.isTorus (WaveModel.conf this) = false.

Let get := WaveModel.getterFactory this prop defValue.
Let rows := WaveModel.rows this.
Let cols := WaveModel.cols this.

Lemma getter_outside r c :
  r < 0 ∨ rows ≤ r ∨ c < 0 ∨ cols ≤ c → get r c = Ok defValue.
Proof.
  intros H. unfold get, WaveModel.getterFactory. rewrite flat.
  unfold rows, cols in *.
  destruct (_ || _) eqn:E; [done|].
  rewrite !orb_false_iff, !Z.geb_leb, !Z.ltb_ge, !Z.leb_gt in E. lia.
Qed.

Lemma getter_inside r c :
  0 ≤ r < rows → 0 ≤ c < cols → get r c = read2 (prop this) r c.
Proof.
  intros Hr Hc. unfold get, WaveModel.getterFactory. rewrite flat.
  unfold rows, cols in *.
  destruct (_ || _) eqn:E; [|done].
  rewrite !orb_true_iff, !Z.geb_leb, !Z.ltb_lt, !Z.leb_le in E. lia.
Qed.

(** C9.  In non-torus mode, on a buffer that has all its cells, the
    accessor returns the default value at every out-of-range position
    (in particular at rows -1 and [rows] for an in-range column), the
    stored value at every in-range position, and a value at every
    position whatsoever.  The accessor is a function of the buffer and
    the position alone: it has no store to write to. *)
Theorem nontorus_getter_default_outside_stored_inside :
  shaped (prop this) rows cols →
  (∀ r c, r < 0 ∨ rows ≤ r ∨ c < 0 ∨ cols ≤ c → get r c = Ok defValue)
  ∧ (∀ c, 0 ≤ c < cols → get (-1) c = Ok defValue ∧ get rows c = Ok defValue)
  ∧ (∀ r c, 0 ≤ r < rows → 0 ≤ c < cols →
       ∃ v, cell (prop this) r c = Some v ∧ get r c = Ok v)
  ∧ (∀ r c, ∃ v, get r c = Ok v).
Proof.
  intros Hshape.
  assert (Hin : ∀ r c, 0 ≤ r < rows → 0 ≤ c < cols →
       ∃ v, cell (prop this) r c = Some v ∧ get r c = Ok v).
  { intros r c Hr Hc. destruct (Hshape r c Hr Hc) as [v Hv].
    exists v. split; [done|]. rewrite getter_inside by done. by apply read2_of_cell. }
  repeat split.
  - apply getter_outside.
  - apply getter_outside. lia.
  - apply getter_outside. lia.
  - exact Hin.
  - intros r c.
    destruct (decide (0 ≤ r < rows ∧ 0 ≤ c < cols)) as [[Hr Hc]|Hout].
    + destruct (Hin r c Hr Hc) as (v & _ & Hv). eauto.
    + exists defValue. apply getter_outside. lia.
Qed.
End NonTorus.

(** ** One full sine period sums to zero *)


Lemma sine_sum_S a n : sine_sum a (S n) = (sine_sum a n + sin (INR n * a))%R.
Proof.
  unfold sine_sum. rewrite seq_S, foldr_app. simpl.
  generalize (seq 0 n). intros l. induction l as [|k l IH]; simpl.
  - lra.
  - rewrite IH. lra.
Qed.

Lemma sine_sum_telescope a n :
  (2 * sin (a / 2) * sine_sum a n = cos (a / 2) - cos ((INR n - / 2) * a))%R.
Proof.
  induction n as [|n IH].
  - unfold sine_sum. simpl.
    replace ((0 - / 2) * a)%R with (- (a / 2))%R by lra.
    rewrite cos_neg. lra.
  - rewrite sine_sum_S, Rmult_plus_distr_l, IH, S_INR.
    replace ((INR n - / 2) * a)%R with (INR n * a - a / 2)%R by lra.
    replace ((INR n + 1 - / 2) * a)%R with (INR n * a + a / 2)%R by lra.
    rewrite cos_minus, cos_plus. lra.
Qed.

Lemma sine_sum_full_period (w : nat) :
  (1 ≤ w)%nat → sine_sum (2 * PI / INR w) w = 0%R.
Proof.
  intros Hw.
  destruct (decide (w = 1%nat)) as [->|Hne].
  { unfold sine_sum. simpl. rewrite Rmult_0_l, sin_0. lra. }
  assert (Hw2 : (2 <= INR w)%R).
  { change 2%R with (INR 2). apply le_INR. lia. }
  assert (HPI := PI_RGT_0).
  set (a := (2 * PI / INR w)%R).
  assert (Ha : (a / 2 = PI / INR w)%R) by (unfold a; field; lra).
  assert (Hpos : (0 < PI / INR w)%R).
  { apply Rdiv_lt_0_compat; lra. }
  assert (Hlt : (PI / INR w < PI)%R).
  { apply (Rmult_lt_reg_r (INR w)); [lra|].
    replace (PI / INR w * INR w)%R with PI by (field; lra). nra. }
  assert (Hsin : (0 < sin (a / 2))%R) by (rewrite Ha; apply sin_gt_0; lra).
  pose proof (sine_sum_telescope a w) as Ht.
  replace ((INR w - / 2) * a)%R with (2 * PI - a / 2)%R in Ht
    by (unfold a; field; lra).
  rewrite cos_minus, cos_2PI, sin_2PI in Ht.
  assert (Hz : (2 * sin (a / 2) * sine_sum a w = 0)%R) by lra.
  apply Rmult_integral in Hz. destruct Hz as [Hz|Hz]; [lra|done].
Qed.

(** ** Class Ripple: successive applyForce calls *)

Lemma applyForce_ok (rp : Ripple.t) (F : grid) :
  Ripple.wavelength rp ≠ 0 → is_Some (F !! Ripple.r rp) →
  ∃ F', write2 F (Ripple.r rp) (Ripple.c rp) (Ripple.force rp) = Ok F'
        ∧ Ripple.applyForce rp F =
            Ok (negb (Ripple.iWave rp - 1 =? 0),
                {| Ripple.wavelength := Ripple.wavelength rp;
                   Ripple.iWave := Ripple.iWave rp - 1;
                   Ripple.r := Ripple.r rp; Ripple.c := Ripple.c rp;
                   Ripple.mag := Ripple.mag rp |}, F').
Proof.
  intros Hw Hrow. destruct (write2_ok F (Ripple.r rp) (Ripple.c rp) (Ripple.force rp) Hrow)
    as [F' HF'].
  exists F'. split; [done|]. unfold Ripple.applyForce.
  destruct (Ripple.wavelength rp =? 0) eqn:E; [lia|]. rewrite HF'. done.
Qed.


Lemma calls_records (n : nat) : ∀ (rp : Ripple.t) (F : grid),
  Ripple.wavelength rp ≠ 0 → is_Some (F !! Ripple.r rp) →
  calls n rp F = Ok (call_record rp <$> seq 0 n).
Proof.
  induction n as [|n IH]; intros rp F Hw Hrow; [done|].
  destruct (applyForce_ok rp F Hw Hrow) as (F' & HF' & Happ).
  cbn [calls]. rewrite Happ. cbn [mbind jsres_bind].
  rewrite IH; cbn [Ripple.wavelength Ripple.r]; [|done|by apply (row_write2 _ _ _ _ _ _ HF')].
  cbn [mbind jsres_bind].
  rewrite (cell_write2_eq _ _ _ _ _ HF').
  cbn [seq fmap list_fmap]. rewrite <- seq_shift, <- list_fmap_compose.
  f_equal. f_equal.
  - unfold call_record, Ripple.force. cbn [Z.of_nat]. by rewrite !Z.sub_0_r.
  - apply list_fmap_ext. intros _ i _. unfold call_record, compose.
    cbn [Ripple.iWave Ripple.wavelength Ripple.mag].
    replace (Ripple.iWave rp - 1 - Z.of_nat (S i)) with (Ripple.iWave rp - 1 - 1 - Z.of_nat i) by lia.
    replace (Ripple.iWave rp - Z.of_nat (S i)) with (Ripple.iWave rp - 1 - Z.of_nat i) by lia.
    done.
Qed.

Lemma fmap_all_true {A : Type} (f : A → bool) (l : list A) :
  (∀ x, x ∈ l → f x = true) → f <$> l = replicate (length l) true.
Proof.
  induction l as [|x l IH]; intros H; [done|].
  cbn [fmap list_fmap length replicate]. rewrite H by left.
  f_equal. apply IH. intros y Hy. apply H. by right.
Qed.

(** C5.  A ripple with resolved wavelength [w >= 1] and all its ticks
    remaining returns true from [applyForce] on its first [w - 1] calls
    and false on call [w]; every call decrements the remaining ticks and
    returns whether they are nonzero afterwards. *)
Theorem ripple_active_until_last_tick (rp : Ripple.t) (F : grid) (w : Z) :
  1 ≤ w →
  Ripple.wavelength rp = w →
  Ripple.iWave rp = w →
  is_Some (F !! Ripple.r rp) →
  (∃ l, calls (Z.to_nat w) rp F = Ok l
        ∧ fst <$> l = replicate (Z.to_nat (w - 1)) true ++ [false])
  ∧ (∃ b rp' F', Ripple.applyForce rp F = Ok (b, rp', F')
        ∧ Ripple.iWave rp' = Ripple.iWave rp - 1
        ∧ b = negb (Ripple.iWave rp' =? 0)).
Proof.
  intros Hw Hwl Hi Hrow. split.
  - exists (call_record rp <$> seq 0 (Z.to_nat w)). split.
    { apply calls_records; [lia|done]. }
    replace (Z.to_nat w) with (S (Z.to_nat (w - 1))) by lia.
    rewrite seq_S, !fmap_app. f_equal.
    + rewrite <- list_fmap_compose.
      rewrite fmap_all_true; [by rewrite length_seq|].
      intros i Hin. apply elem_of_seq in Hin. unfold compose, call_record. cbn [fst].
      apply negb_true_iff, Z.eqb_neq. lia.
    + cbn. f_equal. apply negb_false_iff, Z.eqb_eq. lia.
  - destruct (applyForce_ok rp F) as (F' & _ & Happ); [lia|done|].
    eexists _, _, _. split; [exact Happ|]. done.
Qed.


Lemma zeros_2x1_row0 : is_Some (zeros_2x1 !! 0).
Proof. exists {[ 0 := 0%R ]}. reflexivity. Defined.

(** A ripple of wavelength 5 is active for 4 calls and inactive on the 5th. *)
Lemma ripple_active_until_last_tick_witness :
  ∃ l, calls 5 ripple_w5 zeros_2x1 = Ok l
       ∧ fst <$> l = [true; true; true; true; false].
Proof.
  refine (proj1 (ripple_active_until_last_tick ripple_w5 zeros_2x1 5 _ _ _ _)).
  - lia.
  - reflexivity.
  - reflexivity.
  - exact zeros_2x1_row0.
Defined.

Lemma total_force_records (rp : Ripple.t) (n : nat) (l : list nat) :
  (1 ≤ n)%nat →
  Ripple.wavelength rp = Z.of_nat n →
  Ripple.iWave rp = Z.of_nat n →
  total_force (call_record rp <$> l) =
  (Ripple.mag rp * foldr (λ k acc, sin (INR k * (2 * PI / INR n)) + acc) 0 l)%R.
Proof.
  intros Hn Hw Hi.
  assert (HnR : (INR n ≠ 0)%R) by (apply not_0_INR; lia).
  induction l as [|k l IH]; cbn [fmap list_fmap foldr total_force].
  - lra.
  - fold (total_force (call_record rp <$> l)). rewrite IH.
    unfold call_record. cbn [snd default].
    rewrite Hw, Hi.
    replace (Z.of_nat n - (Z.of_nat n - Z.of_nat k)) with (Z.of_nat k) by lia.
    rewrite <- !INR_IZR_INZ.
    replace (INR k / INR n * PI * 2)%R with (INR k * (2 * PI / INR n))%R by (field; done).
    unfold Datatypes.id. lra.
Qed.

(** C7.  Over its [w] calls a ripple of resolved wavelength [w >= 1] and
    peak magnitude [m] writes the forces [m * sin(2 pi k / w)],
    [k = 0 .. w-1], and their sum is exactly zero. *)
Theorem ripple_lifetime_force_sums_to_zero (rp : Ripple.t) (F : grid) (w : Z) :
  1 ≤ w →
  Ripple.wavelength rp = w →
  Ripple.iWave rp = w →
  is_Some (F !! Ripple.r rp) →
  ∃ l, calls (Z.to_nat w) rp F = Ok l
       ∧ snd <$> l = (λ k : nat, Some (Ripple.mag rp * sin (2 * PI * INR k / IZR w))%R)
                       <$> seq 0 (Z.to_nat w)
       ∧ total_force l = 0%R.
Proof.
  intros Hw Hwl Hi Hrow.
  assert (HwR : (IZR w ≠ 0)%R) by (apply not_0_IZR; lia).
  exists (call_record rp <$> seq 0 (Z.to_nat w)). split; [|split].
  - apply calls_records; [lia|done].
  - rewrite <- list_fmap_compose. apply list_fmap_ext. intros _ k _.
    unfold compose, call_record. cbn [snd]. rewrite Hwl, Hi.
    replace (w - (w - Z.of_nat k)) with (Z.of_nat k) by lia.
    rewrite <- INR_IZR_INZ. do 3 f_equal. field. done.
  - rewrite (total_force_records rp (Z.to_nat w)) by lia.
    fold (sine_sum (2 * PI / INR (Z.to_nat w)) (Z.to_nat w)).
    rewrite sine_sum_full_period by lia. lra.
Qed.

Lemma ripple_lifetime_force_sums_to_zero_witness :
  ∃ l, calls 5 ripple_w5 zeros_2x1 = Ok l
       ∧ snd <$> l = (λ k : nat, Some (10 * sin (2 * PI * INR k / 5))%R) <$> seq 0 5
       ∧ total_force l = 0%R.
Proof.
  refine (ripple_lifetime_force_sums_to_zero ripple_w5 zeros_2x1 5 _ _ _ _).
  - lia.
  - reflexivity.
  - reflexivity.
  - exact zeros_2x1_row0.
Defined.

(** C8.  [applyForce] assigns the force buffer at the ripple's cell: when
    two ripples on the same cell are applied one after the other, the
    cell holds the second ripple's force alone afterwards, whatever the
    buffer held before and whatever the first ripple wrote. *)
Theorem applyForce_overwrites_cell (a b : Ripple.t) (F : grid) :
  Ripple.wavelength a ≠ 0 →
  Ripple.wavelength b ≠ 0 →
  Ripple.r a = Ripple.r b →
  Ripple.c a = Ripple.c b →
  is_Some (F !! Ripple.r a) →
  ∃ ba a' F1 bb b' F2,
    Ripple.applyForce a F = Ok (ba, a', F1)
    ∧ cell F1 (Ripple.r a) (Ripple.c a) = Some (Ripple.force a)
    ∧ Ripple.applyForce b F1 = Ok (bb, b', F2)
    ∧ cell F2 (Ripple.r b) (Ripple.c b) = Some (Ripple.force b).
Proof.
  intros Ha Hb Hr Hc Hrow.
  destruct (applyForce_ok a F Ha Hrow) as (F1 & HF1 & Happ1).
  assert (Hrow1 : is_Some (F1 !! Ripple.r b)).
  { apply (row_write2 _ _ _ _ _ _ HF1). by rewrite <- Hr. }
  destruct (applyForce_ok b F1 Hb Hrow1) as (F2 & HF2 & Happ2).
  eexists _, _, F1, _, _, F2. split; [exact Happ1|]. split; [|split; [exact Happ2|]].
  - by apply (cell_write2_eq _ _ _ _ _ HF1).
  - by apply (cell_write2_eq _ _ _ _ _ HF2).
Qed.


Lemma applyForce_overwrites_cell_witness :
  ∃ ba a' F1 bb b' F2,
    Ripple.applyForce ripple_w5 zeros_2x1 = Ok (ba, a', F1)
    ∧ cell F1 0 0 = Some (Ripple.force ripple_w5)
    ∧ Ripple.applyForce ripple_w8 F1 = Ok (bb, b', F2)
    ∧ cell F2 0 0 = Some (Ripple.force ripple_w8).
Proof.
  refine (applyForce_overwrites_cell ripple_w5 ripple_w8 zeros_2x1 _ _ _ _ _).
  - discriminate.
  - discriminate.
  - reflexivity.
  - reflexivity.
  - exact zeros_2x1_row0.
Defined.

Lemma init_iWave conf rows cols rnd k :
  Ripple.iWave (Ripple.init conf rows cols rnd k).1
  = Ripple.wavelength (Ripple.init conf rows cols rnd k).1.
Proof.
  unfold Ripple.init.
  destruct (Qlt_le_dec (Conf.wavelength conf) 0), (Conf.spawnRow conf),
    (Conf.spawnCol conf), (Qlt_le_dec (Conf.magnitude conf) 0); reflexivity.
Qed.

Lemma force_at_start (rp : Ripple.t) :
  Ripple.iWave rp = Ripple.wavelength rp → Ripple.force rp = 0%R.
Proof.
  intros H. unfold Ripple.force. rewrite H, Z.sub_diag.
  unfold Rdiv. rewrite !Rmult_0_l, sin_0. lra.
Qed.

(** C10.  The first [applyForce] call of a freshly initialised ripple
    writes exactly zero at its cell: its progress is 0 and sin 0 = 0. *)
Theorem fresh_ripple_first_force_is_zero
    (conf : Conf.t) (rows cols : Z) (rnd : nat → Q) (k : nat) (F : grid) :
  let rp := (Ripple.init conf rows cols rnd k).1 in
  Ripple.wavelength rp ≠ 0 →
  is_Some (F !! Ripple.r rp) →
  ∃ b rp' F', Ripple.applyForce rp F = Ok (b, rp', F')
              ∧ Ripple.force rp = 0%R
              ∧ cell F' (Ripple.r rp) (Ripple.c rp) = Some 0%R.
Proof.
  intros rp Hw Hrow.
  destruct (applyForce_ok rp F Hw Hrow) as (F' & HF' & Happ).
  pose proof (force_at_start rp (init_iWave conf rows cols rnd k)) as H0.
  eexists _, _, F'. split; [exact Happ|]. split; [exact H0|].
  rewrite (cell_write2_eq _ _ _ _ _ HF'). by rewrite H0.
Qed.

(** ** modelStep *)

Lemma val_cell (g : grid) r c v : cell g r c = Some v → val g r c = v.
Proof. unfold val. intros ->. done. Qed.

Lemma shaped_cell (g : grid) rows cols r c :
  shaped g rows cols → 0 ≤ r < rows → 0 ≤ c < cols → cell g r c = Some (val g r c).
Proof. intros H Hr Hc. destruct (H r c Hr Hc) as [v Hv]. by rewrite (val_cell _ _ _ _ Hv). Qed.

Section ModelStep.
Variable this : WaveModel.t.
Hypothesis shape : buffers_shaped this.

Let rows := WaveModel.rows this.
Let cols := WaveModel.cols this.
Let getM := WaveModel.getterFactory this WaveModel.M 0%R.

(** The accessor succeeds on the eight neighbours of an in-range cell,
    in both modes. *)
Lemma getM_neighbour r c r' c' :
  0 ≤ r < rows → 0 ≤ c < cols → r - 1 ≤ r' ≤ r + 1 → c - 1 ≤ c' ≤ c + 1 →
  getM r' c' = Ok (neighbour this r' c').
Proof.
  intros Hr Hc Hr' Hc'.
  assert (HM : shaped (WaveModel.M this) rows cols) by apply shape.
  assert (∃ v, getM r' c' = Ok v) as [v Hv].
  { unfold getM, WaveModel.getterFactory. fold rows cols.
    destruct (Conf.isTorus (WaveModel.conf this)).
    - destruct (mod_step_range r' rows) as (kr & -> & Hkr); [lia|lia|].
      destruct (mod_step_range c' cols) as (kc & -> & Hkc); [lia|lia|].
      cbn [WaveModel.read2nan]. exists (val (WaveModel.M this) kr kc).
      apply read2_of_cell. by apply (shaped_cell _ rows cols).
    - destruct (_ || _) eqn:E; [eauto|].
      rewrite !orb_false_iff, !Z.geb_leb, !Z.ltb_ge, !Z.leb_gt in E.
      exists (val (WaveModel.M this) r' c').
      apply read2_of_cell. apply (shaped_cell _ rows cols); [done|lia|lia]. }
  rewrite Hv. unfold neighbour. fold getM. by rewrite Hv.
Qed.

(** One cell of the pass: the three writes land on the cell, every
    other cell and every row is left as it was. *)
Lemma cellStep_cell r c (b : WaveModel.bufs) f :
  0 ≤ r < rows → 0 ≤ c < cols →
  cell (WaveModel.bF b) r c = Some f →
  is_Some (WaveModel.bV_ b !! r) → is_Some (WaveModel.bM_ b !! r) →
  ∃ b', WaveModel.cellStep this getM r c b = Ok b'
    ∧ (let v' := (val (WaveModel.V this) r c * (1 - Conf.damping (WaveModel.conf this))
                  + (f + pull this r c) * WaveModel.FORCE_INFLUENCE)%R in
       cell (WaveModel.bF b') r c = Some 0%R
       ∧ cell (WaveModel.bV_ b') r c = Some v'
       ∧ cell (WaveModel.bM_ b') r c = Some (val (WaveModel.M this) r c + v')%R)
    ∧ (∀ r' c', (r, c) ≠ (r', c') →
         cell (WaveModel.bF b') r' c' = cell (WaveModel.bF b) r' c'
         ∧ cell (WaveModel.bV_ b') r' c' = cell (WaveModel.bV_ b) r' c'
         ∧ cell (WaveModel.bM_ b') r' c' = cell (WaveModel.bM_ b) r' c')
    ∧ (∀ r', (is_Some (WaveModel.bF b' !! r') ↔ is_Some (WaveModel.bF b !! r'))
           ∧ (is_Some (WaveModel.bV_ b' !! r') ↔ is_Some (WaveModel.bV_ b !! r'))
           ∧ (is_Some (WaveModel.bM_ b' !! r') ↔ is_Some (WaveModel.bM_ b !! r'))).
Proof.
  intros Hr Hc Hf HrowV HrowM.
  destruct shape as (_ & HV & _ & HM & _).
  pose proof (shaped_cell _ _ _ r c HV Hr Hc) as Hv.
  pose proof (shaped_cell _ _ _ r c HM Hr Hc) as Hm.
  assert (HrowF : is_Some (WaveModel.bF b !! r)) by (apply (cell_row _ r c); eauto).
  unfold WaveModel.cellStep.
  rewrite (read2_of_cell _ _ _ _ Hv). cbn [mbind jsres_bind].
  destruct (write2_ok (WaveModel.bV_ b) r c
    (val (WaveModel.V this) r c * (1 - Conf.damping (WaveModel.conf this)))%R HrowV)
    as [V1 HV1].
  rewrite HV1. cbn [mbind jsres_bind].
  rewrite (read2_of_cell _ _ _ _ Hf). cbn [mbind jsres_bind].
  rewrite (read2_of_cell _ _ _ _ Hm). cbn [mbind jsres_bind].
  rewrite (getM_neighbour r c (r - 1) (c - 1)) by lia. cbn [mbind jsres_bind].
  rewrite (getM_neighbour r c r (c - 1)) by lia. cbn [mbind jsres_bind].
  rewrite (getM_neighbour r c (r + 1) (c - 1)) by lia. cbn [mbind jsres_bind].
  rewrite (getM_neighbour r c (r - 1) c) by lia. cbn [mbind jsres_bind].
  rewrite (getM_neighbour r c (r + 1) c) by lia. cbn [mbind jsres_bind].
  rewrite (getM_neighbour r c (r - 1) (c + 1)) by lia. cbn [mbind jsres_bind].
  rewrite (getM_neighbour r c r (c + 1)) by lia. cbn [mbind jsres_bind].
  rewrite (getM_neighbour r c (r + 1) (c + 1)) by lia. cbn [mbind jsres_bind].
  fold (pull this r c).
  destruct (write2_ok (WaveModel.bF b) r c (f + pull this r c)%R HrowF) as [F1 HF1].
  rewrite HF1. cbn [mbind jsres_bind].
  rewrite (read2_of_cell _ _ _ _ (cell_write2_eq _ _ _ _ _ HV1)). cbn [mbind jsres_bind].
  rewrite (read2_of_cell _ _ _ _ (cell_write2_eq _ _ _ _ _ HF1)). cbn [mbind jsres_bind].
  set (v' := (val (WaveModel.V this) r c * (1 - Conf.damping (WaveModel.conf this))
              + (f + pull this r c) * WaveModel.FORCE_INFLUENCE)%R).
  destruct (write2_ok V1 r c v') as [V2 HV2].
  { by apply (row_write2 _ _ _ _ _ _ HV1). }
  rewrite HV2. cbn [mbind jsres_bind].
  rewrite (read2_of_cell _ _ _ _ (cell_write2_eq _ _ _ _ _ HV2)). cbn [mbind jsres_bind].
  destruct (write2_ok (WaveModel.bM_ b) r c (val (WaveModel.M this) r c + v')%R HrowM)
    as [M1 HM1].
  rewrite HM1. cbn [mbind jsres_bind].
  destruct (write2_ok F1 r c 0%R) as [F2 HF2].
  { by apply (row_write2 _ _ _ _ _ _ HF1). }
  rewrite HF2. cbn [mbind jsres_bind].
  eexists. split; [reflexivity|]. cbn [WaveModel.bF WaveModel.bV_ WaveModel.bM_].
  split; [|split].
  - cbv zeta. fold v'.
    rewrite (cell_write2_eq _ _ _ _ _ HF2), (cell_write2_eq _ _ _ _ _ HV2),
      (cell_write2_eq _ _ _ _ _ HM1). done.
  - intros r' c' Hne.
    rewrite (cell_write2_ne _ _ _ _ _ _ _ HF2 Hne), (cell_write2_ne _ _ _ _ _ _ _ HF1 Hne),
      (cell_write2_ne _ _ _ _ _ _ _ HV2 Hne), (cell_write2_ne _ _ _ _ _ _ _ HV1 Hne),
      (cell_write2_ne _ _ _ _ _ _ _ HM1 Hne). done.
  - intros r'.
    rewrite (row_write2 _ _ _ _ _ r' HF2), (row_write2 _ _ _ _ _ r' HF1),
      (row_write2 _ _ _ _ _ r' HV2), (row_write2 _ _ _ _ _ r' HV1),
      (row_write2 _ _ _ _ _ r' HM1). done.
Qed.


Lemma pass_inv_cell i k b :
  0 ≤ i < rows → 0 ≤ k < cols → pass_inv this i k b →
  ∃ b', WaveModel.cellStep this getM i k b = Ok b' ∧ pass_inv this i (k + 1) b'.
Proof.
  intros Hi Hk [Hrows Hcells].
  destruct shape as (HF & _).
  destruct (Hrows i Hi) as (_ & HrV & HrM); [lia|].
  destruct (Hcells i k Hi Hk) as [_ Hnot].
  assert (Hf : cell (WaveModel.bF b) i k = Some (val (WaveModel.F this) i k)).
  { rewrite Hnot by lia. by apply (shaped_cell _ rows cols). }
  destruct (cellStep_cell i k b _ Hi Hk Hf HrV HrM) as (b' & Hb' & Hnew & Hold & Hrow').
  exists b'. split; [done|]. split.
  - intros r Hr Hcols. destruct (Hrow' r) as (H1 & H2 & H3).
    destruct (Hrows r Hr Hcols) as (? & ? & ?). rewrite H1, H2, H3. done.
  - intros r c Hr Hc.
    destruct (decide ((i, k) = (r, c))) as [Heq|Hne].
    + inversion Heq; subst r c. split; [|lia]. intros _. exact Hnew.
    + destruct (Hold r c Hne) as (-> & -> & ->).
      destruct (Hcells r c Hr Hc) as [Hd Hn]. split.
      * intros Hdone. apply Hd.
        destruct Hdone as [?|[-> ?]]; [by left|]. right. split; [done|].
        assert (c ≠ k) by (intros ->; done). lia.
      * intros Hnd. apply Hn. lia.
Qed.

Lemma pass_inv_row i b :
  0 ≤ i < rows → pass_inv this i 0 b →
  ∃ b', for_loop cols (λ c b0, WaveModel.cellStep this getM i c b0) b = Ok b'
        ∧ pass_inv this (i + 1) 0 b'.
Proof.
  intros Hi Hinv.
  destruct (for_loop_inv (pass_inv this i) cols
              (λ c b0, WaveModel.cellStep this getM i c b0) b Hinv)
    as (b' & Hb' & [Hrows Hcells]).
  { intros k b0 Hk Hb0. by apply pass_inv_cell. }
  exists b'. split; [done|]. split; [done|].
  intros r c Hr Hc. destruct (Hcells r c Hr Hc) as [Hd Hn]. split.
  - intros Hdone. apply Hd. lia.
  - intros Hnd. apply Hn. lia.
Qed.

(** The whole pass: [modelStep] succeeds, every cell gets its new
    force, velocity and magnitude from the values at the start of the
    tick, and the old current buffers become the spare ones. *)
Lemma modelStep_cells :
  ∃ b, WaveModel.modelStep this
       = Ok (WaveModel.set_grids this (WaveModel.bF b) (WaveModel.bV_ b)
               (WaveModel.V this) (WaveModel.bM_ b) (WaveModel.M this))
    ∧ ∀ r c, 0 ≤ r < rows → 0 ≤ c < cols →
        cell (WaveModel.bF b) r c = Some 0%R
        ∧ cell (WaveModel.bV_ b) r c = Some (next_velocity this r c)
        ∧ cell (WaveModel.bM_ b) r c
          = Some (val (WaveModel.M this) r c + next_velocity this r c)%R.
Proof.
  destruct (for_loop_inv (λ i, pass_inv this i 0) rows
    (λ r b, for_loop cols (λ c b0, WaveModel.cellStep this getM r c b0) b)
    {| WaveModel.bF := WaveModel.F this; WaveModel.bV_ := WaveModel.V_ this;
       WaveModel.bM_ := WaveModel.M_ this |})
    as (b & Hb & [_ Hcells]).
  - destruct shape as (HF & _ & HV_ & _ & HM_). split.
    + intros r Hr Hc. cbn [WaveModel.bF WaveModel.bV_ WaveModel.bM_].
      repeat split; apply (cell_row _ r 0); [apply HF|apply HV_|apply HM_]; lia.
    + intros r c Hr Hc. split; [lia|]. done.
  - intros i b0 Hi Hb0. by apply pass_inv_row.
  - exists b. split.
    + unfold WaveModel.modelStep. fold getM rows cols. rewrite Hb. done.
    + intros r c Hr Hc. apply (Hcells r c Hr Hc). lia.
Qed.
End ModelStep.

(** ** The steady state *)

Lemma zero_on_shaped (g : grid) rows cols : zero_on g rows cols → shaped g rows cols.
Proof. intros H r c Hr Hc. rewrite (H r c Hr Hc). eauto. Qed.

Lemma zero_on_val (g : grid) rows cols r c :
  zero_on g rows cols → 0 ≤ r < rows → 0 ≤ c < cols → val g r c = 0%R.
Proof. intros H Hr Hc. apply val_cell. by apply H. Qed.

(** Over a magnitude buffer of zeros the accessor returns zero on the
    neighbours of every in-range cell, in both modes. *)
Lemma neighbour_zero (this : WaveModel.t) r c r' c' :
  zero_on (WaveModel.M this) (WaveModel.rows this) (WaveModel.cols this) →
  0 ≤ r < WaveModel.rows this → 0 ≤ c < WaveModel.cols this →
  r - 1 ≤ r' ≤ r + 1 → c - 1 ≤ c' ≤ c + 1 →
  neighbour this r' c' = 0%R.
Proof.
  intros HM Hr Hc Hr' Hc'. unfold neighbour, WaveModel.getterFactory.
  destruct (Conf.isTorus (WaveModel.conf this)).
  - destruct (mod_step_range r' (WaveModel.rows this)) as (kr & -> & Hkr); [lia|lia|].
    destruct (mod_step_range c' (WaveModel.cols this)) as (kc & -> & Hkc); [lia|lia|].
    cbn [WaveModel.read2nan]. by rewrite (read2_of_cell _ _ _ _ (HM kr kc Hkr Hkc)).
  - destruct (_ || _) eqn:E; [done|].
    rewrite !orb_false_iff, !Z.geb_leb, !Z.ltb_ge, !Z.leb_gt in E.
    rewrite (read2_of_cell _ _ _ 0%R); [done|]. apply HM; lia.
Qed.

Lemma pull_zero (this : WaveModel.t) r c :
  zero_on (WaveModel.M this) (WaveModel.rows this) (WaveModel.cols this) →
  0 ≤ r < WaveModel.rows this → 0 ≤ c < WaveModel.cols this →
  pull this r c = 0%R.
Proof.
  intros HM Hr Hc. unfold pull.
  rewrite (zero_on_val _ _ _ r c HM Hr Hc).
  rewrite !(neighbour_zero this r c) by (done || lia). lra.
Qed.

(** From rest (zero velocity and magnitude), one step turns the pending
    force of each cell into its velocity and magnitude. *)
Lemma modelStep_from_rest (this : WaveModel.t) :
  buffers_shaped this →
  zero_on (WaveModel.V this) (WaveModel.rows this) (WaveModel.cols this) →
  zero_on (WaveModel.M this) (WaveModel.rows this) (WaveModel.cols this) →
  ∃ st', WaveModel.modelStep this = Ok st'
    ∧ buffers_shaped st'
    ∧ st' = WaveModel.set_grids st' (WaveModel.F st') (WaveModel.V st')
              (WaveModel.V this) (WaveModel.M st') (WaveModel.M this)
    ∧ WaveModel.set_grids this ∅ ∅ ∅ ∅ ∅ = WaveModel.set_grids st' ∅ ∅ ∅ ∅ ∅
    ∧ zero_on (WaveModel.F st') (WaveModel.rows this) (WaveModel.cols this)
    ∧ ∀ r c, 0 ≤ r < WaveModel.rows this → 0 ≤ c < WaveModel.cols this →
        cell (WaveModel.V st') r c
          = Some (val (WaveModel.F this) r c * WaveModel.FORCE_INFLUENCE)%R
        ∧ cell (WaveModel.M st') r c
          = Some (val (WaveModel.F this) r c * WaveModel.FORCE_INFLUENCE)%R.
Proof.
  intros Hshape HV HM.
  destruct (modelStep_cells this Hshape) as (b & Hstep & Hcells).
  eexists. split; [exact Hstep|].
  assert (Hnv : ∀ r c, 0 ≤ r < WaveModel.rows this → 0 ≤ c < WaveModel.cols this →
     next_velocity this r c = (val (WaveModel.F this) r c * WaveModel.FORCE_INFLUENCE)%R).
  { intros r c Hr Hc. unfold next_velocity.
    rewrite (zero_on_val _ _ _ r c HV Hr Hc), (pull_zero this r c HM Hr Hc). lra. }
  split; [|split; [done|split; [done|split]]].
  - unfold buffers_shaped. cbn. repeat split.
    + intros r c Hr Hc. destruct (Hcells r c Hr Hc) as (-> & _). eauto.
    + intros r c Hr Hc. destruct (Hcells r c Hr Hc) as (_ & -> & _). eauto.
    + by apply zero_on_shaped.
    + intros r c Hr Hc. destruct (Hcells r c Hr Hc) as (_ & _ & ->). eauto.
    + by apply zero_on_shaped.
  - intros r c Hr Hc. cbn. by destruct (Hcells r c Hr Hc) as (-> & _).
  - intros r c Hr Hc. cbn. destruct (Hcells r c Hr Hc) as (_ & -> & ->).
    rewrite (Hnv r c Hr Hc), (zero_on_val _ _ _ r c HM Hr Hc). split; f_equal; lra.
Qed.

(** C2.  From all-zero force, velocity and magnitude buffers, any number
    of [modelStep] calls succeeds and leaves every cell's magnitude,
    velocity and force exactly zero.  ([modelStep] does not look at the
    ripples; they act through the force buffer only.) *)
Theorem zero_state_is_steady (n : nat) : ∀ this : WaveModel.t,
  buffers_shaped this →
  zero_on (WaveModel.F this) (WaveModel.rows this) (WaveModel.cols this) →
  zero_on (WaveModel.V this) (WaveModel.rows this) (WaveModel.cols this) →
  zero_on (WaveModel.M this) (WaveModel.rows this) (WaveModel.cols this) →
  ∃ st', steps n this = Ok st'
    ∧ zero_on (WaveModel.M st') (WaveModel.rows this) (WaveModel.cols this)
    ∧ zero_on (WaveModel.V st') (WaveModel.rows this) (WaveModel.cols this)
    ∧ zero_on (WaveModel.F st') (WaveModel.rows this) (WaveModel.cols this).
Proof.
  induction n as [|n IH]; intros this Hshape HF HV HM.
  - exists this. done.
  - destruct (modelStep_from_rest this Hshape HV HM)
      as (st1 & Hstep & Hshape1 & _ & Hframe & HF1 & Hcells).
    assert (Hrows : WaveModel.rows st1 = WaveModel.rows this)
      by (apply (f_equal WaveModel.rows) in Hframe; done).
    assert (Hcols : WaveModel.cols st1 = WaveModel.cols this)
      by (apply (f_equal WaveModel.cols) in Hframe; done).
    assert (Hz : ∀ r c, 0 ≤ r < WaveModel.rows this → 0 ≤ c < WaveModel.cols this →
              (val (WaveModel.F this) r c * WaveModel.FORCE_INFLUENCE)%R = 0%R).
    { intros r c Hr Hc. rewrite (zero_on_val _ _ _ r c HF Hr Hc). lra. }
    destruct (IH st1) as (st' & Hsteps & H1 & H2 & H3).
    + done.
    + by rewrite Hrows, Hcols.
    + rewrite Hrows, Hcols. intros r c Hr Hc.
      destruct (Hcells r c Hr Hc) as (-> & _). by rewrite Hz.
    + rewrite Hrows, Hcols. intros r c Hr Hc.
      destruct (Hcells r c Hr Hc) as (_ & ->). by rewrite Hz.
    + exists st'. cbn [steps]. rewrite Hstep. cbn [mbind jsres_bind].
      rewrite Hrows, Hcols in H1, H2, H3. done.
Qed.

(** ** Full damping *)

(** C4 (as the code has it).  With damping = 1 a step discards the
    previous velocity altogether: the new velocity of each cell is its
    total force (pending force plus the pull of the magnitudes) times
    [FORCE_INFLUENCE], whatever the velocity was, and so it is exactly
    zero exactly where that force is zero. *)
Theorem full_damping_velocity_is_force_alone (this : WaveModel.t) :
  buffers_shaped this →
  Conf.damping (WaveModel.conf this) = 1%R →
  ∃ st', WaveModel.modelStep this = Ok st'
    ∧ ∀ r c, 0 ≤ r < WaveModel.rows this → 0 ≤ c < WaveModel.cols this →
        cell (WaveModel.V st') r c
          = Some ((val (WaveModel.F this) r c + pull this r c)
                  * WaveModel.FORCE_INFLUENCE)%R
        ∧ (cell (WaveModel.V st') r c = Some 0%R
           ↔ (val (WaveModel.F this) r c + pull this r c)%R = 0%R).
Proof.
  intros Hshape Hd.
  destruct (modelStep_cells this Hshape) as (b & Hstep & Hcells).
  eexists. split; [exact Hstep|].
  intros r c Hr Hc. cbn. destruct (Hcells r c Hr Hc) as (_ & -> & _).
  unfold next_velocity, WaveModel.FORCE_INFLUENCE. rewrite Hd. split.
  - f_equal. lra.
  - split; intros H0.
    + inversion H0 as [H1]. lra.
    + f_equal. rewrite H0. lra.
Qed.

Lemma one_cell_shaped x : shaped (one_cell x) 1 1.
Proof.
  intros r c Hr Hc. assert (r = 0) as -> by lia. assert (c = 0) as -> by lia.
  exists x. reflexivity.
Defined.

Lemma moving_1x1_shaped : buffers_shaped moving_1x1.
Proof. repeat split; apply one_cell_shaped. Defined.

(** C4 (counterexample).  A one-cell model with damping 1 and no ripples
    whose cell has magnitude 1 and velocity 1: after the next tick the
    velocity is [-(4 + 4 pi) / 10], not zero. *)
Lemma full_damping_velocity_not_zero :
  Conf.damping (WaveModel.conf moving_1x1) = 1%R
  ∧ WaveModel.nRipples moving_1x1 = 0
  ∧ cell (WaveModel.V moving_1x1) 0 0 = Some 1%R
  ∧ ∃ st' v, WaveModel.modelStep moving_1x1 = Ok st'
      ∧ cell (WaveModel.V st') 0 0 = Some v
      ∧ v = (- (4 + 4 * PI) / 10)%R
      ∧ v ≠ 0%R.
Proof.
  split; [done|]. split; [done|]. split; [done|].
  destruct (modelStep_cells moving_1x1 moving_1x1_shaped) as (b & Hstep & Hcells).
  destruct (Hcells 0 0) as (_ & HV & _); [done|done|].
  eexists _, (next_velocity moving_1x1 0 0). split; [exact Hstep|]. split; [exact HV|].
  assert (Hn : next_velocity moving_1x1 0 0
               = (1 * (1 - 1)
                  + (0 + (- 1 * (4 + 4 * PI) + 0 + 0 * PI + 0
                          + 0 * PI + 0 * PI + 0 + 0 * PI + 0)) * (1 / 10))%R)
    by reflexivity.
  rewrite Hn. pose proof PI_RGT_0. split; lra.
Qed.

Lemma full_damping_velocity_is_force_alone_witness :
  ∃ st', WaveModel.modelStep moving_1x1 = Ok st'
    ∧ ∀ r c, 0 ≤ r < 1 → 0 ≤ c < 1 →
        cell (WaveModel.V st') r c
          = Some ((val (WaveModel.F moving_1x1) r c + pull moving_1x1 r c)
                  * WaveModel.FORCE_INFLUENCE)%R
        ∧ (cell (WaveModel.V st') r c = Some 0%R
           ↔ (val (WaveModel.F moving_1x1) r c + pull moving_1x1 r c)%R = 0%R).
Proof.
  exact (full_damping_velocity_is_force_alone moving_1x1 moving_1x1_shaped eq_refl).
Defined.

(** ** genForces: spawning *)

Lemma holds_nil arr from : holds arr from [].
Proof. intros k id H. done. Qed.

Lemma holds_cons arr from id l :
  holds arr from (id :: l) ↔ arr !! from = Some id ∧ holds arr (from + 1) l.
Proof.
  split.
  - intros H. split.
    + specialize (H O id eq_refl). by rewrite Z.add_0_r in H.
    + intros k id' Hk. specialize (H (S k) id' Hk).
      by replace (from + 1 + Z.of_nat k) with (from + Z.of_nat (S k)) by lia.
  - intros [H0 Ht] [|k] id' Hk.
    + cbn in Hk. inversion Hk; subst. by rewrite Z.add_0_r.
    + cbn in Hk. specialize (Ht k id' Hk).
      by replace (from + Z.of_nat (S k)) with (from + 1 + Z.of_nat k) by lia.
Qed.

Lemma holds_app arr from l1 l2 :
  holds arr from (l1 ++ l2) ↔ holds arr from l1 ∧ holds arr (from + Z.of_nat (length l1)) l2.
Proof.
  revert from. induction l1 as [|x l1 IH]; intros from; cbn [app length].
  - rewrite Z.add_0_r. split; [intros H; split; [apply holds_nil|done]|intros [_ H]; done].
  - rewrite !holds_cons, IH.
    replace (from + 1 + Z.of_nat (length l1)) with (from + Z.of_nat (S (length l1))) by lia.
    tauto.
Qed.

(** Entries at other keys carry over. *)
Lemma holds_ext arr arr' from l :
  (∀ k, from ≤ k < from + Z.of_nat (length l) → arr' !! k = arr !! k) →
  holds arr from l → holds arr' from l.
Proof.
  intros Hext H k id Hk. rewrite Hext; [by apply H|].
  apply lookup_lt_Some in Hk. lia.
Qed.

Lemma deref_store a a' k id this j :
  WaveModel.deref a (WaveModel.store a' k id this) !! j
  = if decide (a = a' ∧ j = k) then Some id else WaveModel.deref a this !! j.
Proof.
  destruct a, a'; cbn; try (rewrite decide_False; [done|intros [? _]; done]).
  - destruct (decide (j = k)) as [->|Hne].
    + rewrite lookup_insert_eq, decide_True; done.
    + rewrite lookup_insert_ne by done. rewrite decide_False; [done|intros [_ ?]; done].
  - destruct (decide (j = k)) as [->|Hne].
    + rewrite lookup_insert_eq, decide_True; done.
    + rewrite lookup_insert_ne by done. rewrite decide_False; [done|intros [_ ?]; done].
Qed.

(** The [while] loop of [genForces] with enough fuel: it ends by its
    guard, having appended freshly allocated ripples to the array. *)
Lemma spawnLoop_appends (fuel : nat) : ∀ (src : aref) (nR : Z) (this : WaveModel.t),
  (WaveModel.ripplesToGen this < inject_Z (Z.of_nat fuel) + 1)%Q →
  ∃ news st2,
    WaveModel.spawnLoop fuel src nR this = Some (nR + Z.of_nat (length news), st2)
    ∧ news = seq (WaveModel.nextId this) (length news)
    ∧ holds (WaveModel.deref src st2) nR news
    ∧ (∀ a k, (a ≠ src ∨ k < nR) →
         WaveModel.deref a st2 !! k = WaveModel.deref a this !! k)
    ∧ (∀ id, (id < WaveModel.nextId this)%nat →
         WaveModel.objs st2 !! id = WaveModel.objs this !! id)
    ∧ (∀ id, id ∈ news → is_Some (WaveModel.objs st2 !! id))
    ∧ WaveModel.nextId st2 = (WaveModel.nextId this + length news)%nat
    ∧ WaveModel.F st2 = WaveModel.F this
    ∧ fixed_part st2 = fixed_part this
    ∧ (WaveModel.ripplesToGen st2 < 1)%Q.
Proof.
  induction fuel as [|fuel IH]; intros src nR this Hq.
  - exists [], this. cbn [WaveModel.spawnLoop length].
    destruct (Qle_bool 1 (WaveModel.ripplesToGen this)) eqn:E.
    { apply Qle_bool_iff in E. change (inject_Z (Z.of_nat 0)) with 0%Q in Hq. lra. }
    rewrite Z.add_0_r. change (inject_Z (Z.of_nat 0)) with 0%Q in Hq.
    repeat split;
      first [done | apply holds_nil | by intros id Hid%elem_of_nil | cbn; lia | lra].
  - cbn [WaveModel.spawnLoop].
    destruct (Qle_bool 1 (WaveModel.ripplesToGen this)) eqn:E.
    2:{ exists [], this. rewrite Z.add_0_r.
        assert (WaveModel.ripplesToGen this < 1)%Q.
        { destruct (Qlt_le_dec (WaveModel.ripplesToGen this) 1) as [?|Hle]; [done|].
          apply Qle_bool_iff in Hle. congruence. }
        repeat split;
          first [done | apply holds_nil | by intros id Hid%elem_of_nil | cbn; lia]. }
    unfold WaveModel.newRipple.
    destruct (Ripple.init _ _ _ _ _) as [rp k].
    set (st3 := WaveModel.set_ripples _ _ _ _ _).
    destruct (IH src (nR + 1) st3) as
      (news & st2 & Hloop & Hnews & Hholds & Harr & Hobjs & Hlive & Hnext & HF & Hfix & Hq2).
    { subst st3. cbn [WaveModel.ripplesToGen WaveModel.set_ripples WaveModel.store
                      WaveModel.set_objs].
      rewrite Nat2Z.inj_succ in Hq. unfold Z.succ in Hq. rewrite inject_Z_plus in Hq.
      change (inject_Z 1) with 1%Q in Hq. lra. }
    exists (WaveModel.nextId this :: news), st2.
    cbn [length]. rewrite Hloop.
    assert (Hid3 : WaveModel.nextId st3 = S (WaveModel.nextId this)) by done.
    repeat split.
    + do 2 f_equal. lia.
    + cbn [seq]. f_equal. by rewrite Hid3 in Hnews.
    + apply holds_cons. split; [|done].
      rewrite Harr by (right; lia). subst st3.
      change (WaveModel.deref src (WaveModel.set_ripples ?s _ _ _ _))
        with (WaveModel.deref src s).
      rewrite deref_store, decide_True; done.
    + intros a j Hj. rewrite Harr by (destruct Hj; [by left|right; lia]).
      subst st3.
      change (WaveModel.deref a (WaveModel.set_ripples ?s _ _ _ _))
        with (WaveModel.deref a s).
      rewrite deref_store, decide_False; [by destruct a|].
      intros [-> ->]. destruct Hj; [done|lia].
    + intros id Hid. rewrite Hobjs by (rewrite Hid3; lia). subst st3. cbn.
      rewrite lookup_insert_ne; [done|lia].
    + intros id Hid. apply elem_of_cons in Hid as [->|Hid]; [|by apply Hlive].
      rewrite Hobjs by (rewrite Hid3; lia). subst st3. cbn.
      rewrite lookup_insert_eq. eauto.
    + rewrite Hnext, Hid3. lia.
    + by rewrite HF.
    + by rewrite Hfix.
    + done.
Qed.

(** ** genForces: compaction *)

Lemma spawnRipples_appends (this : WaveModel.t) :
  ∃ news st2,
    WaveModel.spawnRipples this
      = Some (WaveModel.nRipples this + Z.of_nat (length news), st2)
    ∧ news = seq (WaveModel.nextId this) (length news)
    ∧ holds (WaveModel.deref (WaveModel.ripples this) st2) (WaveModel.nRipples this) news
    ∧ (∀ a k, (a ≠ WaveModel.ripples this ∨ k < WaveModel.nRipples this) →
         WaveModel.deref a st2 !! k = WaveModel.deref a this !! k)
    ∧ (∀ id, (id < WaveModel.nextId this)%nat →
         WaveModel.objs st2 !! id = WaveModel.objs this !! id)
    ∧ (∀ id, id ∈ news → is_Some (WaveModel.objs st2 !! id))
    ∧ WaveModel.F st2 = WaveModel.F this
    ∧ fixed_part st2 = fixed_part this
    ∧ (WaveModel.ripplesToGen st2 < 1)%Q.
Proof.
  unfold WaveModel.spawnRipples.
  set (this1 := if Qlt_le_dec 0 _ then _ else this).
  assert (H1 : WaveModel.nextId this1 = WaveModel.nextId this
               ∧ WaveModel.F this1 = WaveModel.F this
               ∧ fixed_part this1 = fixed_part this
               ∧ WaveModel.objs this1 = WaveModel.objs this
               ∧ ∀ a, WaveModel.deref a this1 = WaveModel.deref a this).
  { subst this1. destruct (Qlt_le_dec 0 _); repeat split; try done; by intros []. }
  destruct H1 as (Hn1 & HF1 & Hfix1 & Ho1 & Ha1).
  destruct (spawnLoop_appends (Z.to_nat (Qfloor (WaveModel.ripplesToGen this1)))
              (WaveModel.ripples this) (WaveModel.nRipples this) this1)
    as (news & st2 & Hloop & Hnews & Hholds & Harr & Hobjs & Hlive & _ & HF & Hfix & Hq).
  { pose proof (Qlt_floor (WaveModel.ripplesToGen this1)) as Hfl.
    assert (Hle : Qfloor (WaveModel.ripplesToGen this1)
                  ≤ Z.of_nat (Z.to_nat (Qfloor (WaveModel.ripplesToGen this1)))) by lia.
    rewrite Zle_Qle in Hle. rewrite inject_Z_plus in Hfl.
    change (inject_Z 1) with 1%Q in Hfl. lra. }
  exists news, st2. rewrite Hloop. rewrite Hn1 in Hnews.
  repeat split; try done.
  - intros a k Hk. by rewrite Harr, Ha1.
  - intros id Hid. rewrite Hobjs, Ho1; [done|lia].
  - by rewrite HF.
  - by rewrite Hfix.
Qed.

Lemma mapM_holds (arr : gmap Z rid) (l : list rid) : ∀ from,
  holds arr from l →
  mapM (λ i, arr !! i) (seqZ from (Z.of_nat (length l))) = Some l.
Proof.
  induction l as [|x l IH]; intros from H; [done|].
  apply holds_cons in H as [Hx Hl].
  cbn [length]. rewrite Nat2Z.inj_succ, seqZ_cons by lia.
  rewrite Z.pred_succ. cbn [mapM]. rewrite Hx. cbn.
  unfold Z.succ. rewrite (IH _ Hl). done.
Qed.

Lemma holds_mapM (arr : gmap Z rid) (len : nat) : ∀ from l,
  mapM (λ i, arr !! i) (seqZ from (Z.of_nat len)) = Some l →
  length l = len ∧ holds arr from l.
Proof.
  induction len as [|len IH]; intros from l H.
  - cbn in H. inversion H; subst. split; [done|apply holds_nil].
  - rewrite Nat2Z.inj_succ, seqZ_cons in H by lia.
    rewrite Z.pred_succ in H. cbn [mapM] in H.
    destruct (arr !! from) as [x|] eqn:Hx; [|done]. cbn in H.
    destruct (mapM _ (seqZ (Z.succ from) _)) as [l'|] eqn:Hl'; [|done]. cbn in H.
    inversion H; subst. destruct (IH _ _ Hl') as [Hlen Hh].
    split; [by cbn; rewrite Hlen|]. apply holds_cons. done.
Qed.

(** The compaction loop computes what [apply_all] computes, whether or
    not the source and the target are the same array. *)
Lemma compact_refines (src dst : aref) (s0 : WaveModel.t) (all surv : list rid)
    (oF : gmap rid Ripple.t) (FF : grid) :
  holds (WaveModel.deref src s0) 0 all →
  apply_all all (WaveModel.objs s0) (WaveModel.F s0) = Ok (surv, oF, FF) →
  ∃ st, for_loop (Z.of_nat (length all)) (WaveModel.applyRipple src dst) (0, s0)
        = Ok (Z.of_nat (length surv), st)
    ∧ holds (WaveModel.deref dst st) 0 surv
    ∧ WaveModel.objs st = oF
    ∧ WaveModel.F st = FF
    ∧ fixed_part st = fixed_part s0
    ∧ counters st = counters s0.
Proof.
  intros Hall Happly.
  set (n := Z.of_nat (length all)).
  destruct (for_loop_inv (compact_inv src dst n s0 surv oF FF) n
              (WaveModel.applyRipple src dst) (0, s0))
    as ([j st] & Hloop & Hfin).
  - exists [], all, surv. cbn [fst snd length]. rewrite Z.sub_0_r.
    repeat split; first [done | apply holds_nil].
  - intros i [j st] Hi (prefix & rest & keep & Hj & Hji & Hlen & Hsrc & Hdst & Hap & Hs & Hfix & Hcnt).
    cbn [fst snd] in *.
    destruct rest as [|x rest]; [cbn in Hlen; lia|].
    apply holds_cons in Hsrc as [Hx Hsrc].
    cbn [apply_all] in Hap.
    destruct (WaveModel.objs st !! x) as [rp|] eqn:Hrp; [|done].
    destruct (Ripple.applyForce rp (WaveModel.F st)) as [[[b rp'] F']|] eqn:Hrap; [|done].
    cbn [mbind jsres_bind] in Hap.
    destruct (apply_all rest _ F') as [[[keep' o'] F'']|] eqn:Hrest; [|done].
    cbn [mbind jsres_bind] in Hap. inversion Hap; subst keep o' F''. clear Hap.
    unfold WaveModel.applyRipple, WaveModel.applyForce. rewrite Hx, Hrp, Hrap.
    cbn [mbind jsres_bind].
    set (st1 := WaveModel.set_objs _ _ _ _).
    assert (Harr1 : ∀ a, WaveModel.deref a st1 = WaveModel.deref a st) by (by intros []).
    cbn [length] in Hlen.
    destruct b.
    + eexists. split; [reflexivity|].
      exists (prefix ++ [x]), rest, keep'. cbn [fst snd].
      rewrite length_app. cbn [length].
      split; [lia|]. split; [lia|]. split; [lia|]. split; [|split; [|split; [|split]]].
      * apply (holds_ext (WaveModel.deref src st)); [|done].
        intros k Hk. rewrite deref_store, decide_False, Harr1; [done|lia].
      * apply holds_app. split.
        -- apply (holds_ext (WaveModel.deref dst st)); [|done].
           intros k Hk. rewrite deref_store, decide_False, Harr1; [done|lia].
        -- apply holds_cons. split; [|apply holds_nil].
           rewrite deref_store, decide_True; [done|]. split; [done|lia].
      * exact Hrest.
      * by rewrite <- app_assoc.
      * done.
    + eexists. split; [reflexivity|].
      exists prefix, rest, keep'. cbn [fst snd].
      split; [lia|]. split; [lia|]. split; [lia|]. split; [|split; [|split; [|split]]].
      * by rewrite Harr1.
      * by rewrite Harr1.
      * exact Hrest.
      * done.
      * done.
  - destruct Hfin as (prefix & rest & keep & Hj & _ & Hlen & _ & Hdst & Hap & Hs & Hfix & Hcnt).
    cbn [fst snd] in *.
    assert (rest = []) as -> by (destruct rest; [done|cbn in Hlen; lia]).
    cbn in Hap. inversion Hap; subst keep oF FF. rewrite app_nil_r in Hs. subst prefix.
    exists st. rewrite Hloop, Hj. done.
Qed.

Lemma applyForce_inv (rp rp' : Ripple.t) (F F' : grid) (b : bool) :
  Ripple.applyForce rp F = Ok (b, rp', F') →
  Ripple.wavelength rp ≠ 0
  ∧ write2 F (Ripple.r rp) (Ripple.c rp) (Ripple.force rp) = Ok F'
  ∧ b = negb (Ripple.iWave rp - 1 =? 0)
  ∧ Ripple.wavelength rp' = Ripple.wavelength rp
  ∧ Ripple.iWave rp' = Ripple.iWave rp - 1
  ∧ Ripple.r rp' = Ripple.r rp.
Proof.
  unfold Ripple.applyForce. destruct (Ripple.wavelength rp =? 0) eqn:E; [done|].
  destruct (write2 _ _ _ _) as [F1|] eqn:HF1; [|done].
  cbn [mbind jsres_bind]. intros H. inversion H; subst. split; [lia|]. done.
Qed.

Lemma apply_all_ok (l : list rid) : ∀ (objs : gmap rid Ripple.t) (F : grid),
  (∀ id, id ∈ l → ∃ rp, objs !! id = Some rp ∧ Ripple.wavelength rp ≠ 0
                         ∧ is_Some (F !! Ripple.r rp)) →
  ∃ surv o F', apply_all l objs F = Ok (surv, o, F').
Proof.
  induction l as [|x l IH]; intros objs F Hl; [cbn; eauto|].
  destruct (Hl x) as (rp & Hrp & Hw & Hrow); [by left|].
  destruct (applyForce_ok rp F Hw Hrow) as (F' & HF' & Happ).
  cbn [apply_all]. rewrite Hrp, Happ. cbn [mbind jsres_bind].
  set (rp' := Ripple.Build_t _ _ _ _ _).
  destruct (IH (<[x := rp']> objs) F') as (surv & o & F'' & Hrest).
  { intros id Hid. destruct (decide (id = x)) as [->|Hne].
    - exists rp'. rewrite lookup_insert_eq. split; [done|]. split; [done|].
      by apply (row_write2 _ _ _ _ _ _ HF').
    - destruct (Hl id) as (rq & Hrq & Hwq & Hrowq); [by right|].
      exists rq. rewrite lookup_insert_ne by done. split; [done|]. split; [done|].
      by apply (row_write2 _ _ _ _ _ _ HF'). }
  rewrite Hrest. cbn [mbind jsres_bind]. eauto.
Qed.

Lemma apply_all_sublist (l : list rid) : ∀ (objs o : gmap rid Ripple.t) (F F' : grid) surv,
  apply_all l objs F = Ok (surv, o, F') → surv `sublist_of` l.
Proof.
  induction l as [|x l IH]; intros objs o F F' surv H.
  - cbn in H. inversion H. constructor.
  - cbn [apply_all] in H.
    destruct (objs !! x) as [rp|]; [|done].
    destruct (Ripple.applyForce rp F) as [[[b rp'] F1]|]; [|done].
    cbn [mbind jsres_bind] in H.
    destruct (apply_all l _ F1) as [[[keep o1] F2]|] eqn:Hrest; [|done].
    cbn [mbind jsres_bind] in H. inversion H; subst.
    specialize (IH _ _ _ _ _ Hrest).
    destruct b; [by apply sublist_skip|by apply sublist_cons].
Qed.

(** On a list without repetitions, the kept ripples are those with more
    than one tick left, the ones for which [applyForce] returns true. *)
Lemma apply_all_kept (l : list rid) : ∀ (objs o : gmap rid Ripple.t) (F F' : grid) surv,
  NoDup l →
  apply_all l objs F = Ok (surv, o, F') →
  ∀ id, id ∈ surv ↔ id ∈ l ∧ ∃ rp, objs !! id = Some rp ∧ Ripple.iWave rp - 1 ≠ 0.
Proof.
  induction l as [|x l IH]; intros objs o F F' surv Hnd H id.
  - cbn in H. inversion H. split; [by intros ?%elem_of_nil|by intros [?%elem_of_nil _]].
  - apply NoDup_cons in Hnd as [Hx Hnd].
    cbn [apply_all] in H.
    destruct (objs !! x) as [rp|] eqn:Hrp; [|done].
    destruct (Ripple.applyForce rp F) as [[[b rp'] F1]|] eqn:Happ; [|done].
    cbn [mbind jsres_bind] in H.
    destruct (apply_all l _ F1) as [[[keep o1] F2]|] eqn:Hrest; [|done].
    cbn [mbind jsres_bind] in H. inversion H; subst. clear H.
    apply applyForce_inv in Happ as (_ & _ & Hb & _).
    pose proof (IH _ _ _ _ _ Hnd Hrest id) as Hkeep.
    assert (Htail : id ∈ keep ↔ id ∈ l ∧ ∃ rq, objs !! id = Some rq ∧ Ripple.iWave rq - 1 ≠ 0).
    { rewrite Hkeep. split; intros [Hin (rq & Hrq & Hi)]; (split; [done|]); exists rq;
        (rewrite lookup_insert_ne in * by (intros ->; done)); done. }
    assert (Hkx : id ∈ keep → id ≠ x) by (intros Hin%Htail ->; tauto).
    destruct (Ripple.iWave rp - 1 =? 0) eqn:E; cbn in Hb; subst b.
    + rewrite Htail, elem_of_cons. split; [tauto|].
      intros [[->|Hin] (rq & Hrq & Hi)]; [|eauto].
      rewrite Hrp in Hrq. inversion Hrq; subst. lia.
    + rewrite !elem_of_cons, Htail. split.
      * intros [->|[Hin Hex]]; [|tauto]. split; [by left|]. exists rp. split; [done|lia].
      * intros [[->|Hin] Hex]; [by left|right; done].
Qed.

(** With nothing to spawn, the first half of [genForces] changes nothing. *)
Lemma spawnRipples_idle (this : WaveModel.t) :
  (Conf.ripples (WaveModel.conf this) <= 0)%Q →
  (WaveModel.ripplesToGen this < 1)%Q →
  WaveModel.spawnRipples this = Some (WaveModel.nRipples this, this).
Proof.
  intros Hrate Hq. unfold WaveModel.spawnRipples.
  destruct (Qlt_le_dec 0 _) as [Hpos|_]; [lra|].
  assert (E : Qle_bool 1 (WaveModel.ripplesToGen this) = false).
  { destruct (Qle_bool 1 _) eqn:E; [|done]. apply Qle_bool_iff in E. lra. }
  destruct (Z.to_nat _); cbn [WaveModel.spawnLoop]; by rewrite E.
Qed.

(** The second half of [genForces]: on the store that spawning leaves,
    the loop and the final assignments compute what [apply_all] computes
    on the list of the active ripples. *)
Lemma genForces_after_spawn (this st2 : WaveModel.t) (all surv : list rid)
    (o : gmap rid Ripple.t) (F' : grid) :
  WaveModel.spawnRipples this = Some (Z.of_nat (length all), st2) →
  holds (WaveModel.deref (WaveModel.ripples this) st2) 0 all →
  apply_all all (WaveModel.objs st2) (WaveModel.F st2) = Ok (surv, o, F') →
  ∃ st', WaveModel.genForces this = Ok st'
    ∧ WaveModel.objs st' = o
    ∧ WaveModel.F st' = F'
    ∧ active st' = Some surv
    ∧ holds (WaveModel.deref (WaveModel.ripples st') st') 0 surv
    ∧ WaveModel.nRipples st' = Z.of_nat (length surv)
    ∧ WaveModel.ripples st' = WaveModel.ripples_ this
    ∧ WaveModel.ripples_ st' = WaveModel.ripples_ this
    ∧ fixed_part st' = fixed_part st2
    ∧ counters st' = counters st2.
Proof.
  intros Hspawn Hall Hrun.
  destruct (compact_refines (WaveModel.ripples this) (WaveModel.ripples_ this)
              st2 all surv o F' Hall Hrun)
    as (st3 & Hloop & Hdst & Ho & HF3 & Hfix3 & Hcnt3).
  eexists. split.
  { unfold WaveModel.genForces. rewrite Hspawn, Hloop. cbn [mbind jsres_bind].
    reflexivity. }
  cbn. split; [done|]. split; [done|].
  assert (Hd : holds (match WaveModel.ripples_ this with
                      | Arr0 => WaveModel.array0 st3
                      | Arr1 => WaveModel.array1 st3 end) 0 surv) by exact Hdst.
  split; [|done].
  unfold active. cbn. by apply mapM_holds.
Qed.

(** C6.  [genForces] first appends the newly allocated ripples to the
    prior active ones, and then — whenever each of them can be applied —
    it succeeds and leaves as active set (the first [nRipples] entries of
    [this.ripples]) exactly the list that applying them one by one and
    keeping those that return true gives: in the original order, nothing
    skipped, nothing repeated.  This holds whether or not [ripples] and
    [ripples_] are the same array, which they are after the first call. *)
Theorem genForces_keeps_exactly_the_active (this : WaveModel.t) (ids : list rid) :
  0 ≤ WaveModel.nRipples this →
  active this = Some ids →
  ∃ news st2,
    WaveModel.spawnRipples this
      = Some (WaveModel.nRipples this + Z.of_nat (length news), st2)
    ∧ news = seq (WaveModel.nextId this) (length news)
    ∧ holds (WaveModel.deref (WaveModel.ripples this) st2) 0 (ids ++ news)
    ∧ (appliable (ids ++ news) st2 →
       ∃ st' surv,
         WaveModel.genForces this = Ok st'
         ∧ apply_all (ids ++ news) (WaveModel.objs st2) (WaveModel.F st2)
           = Ok (surv, WaveModel.objs st', WaveModel.F st')
         ∧ active st' = Some surv
         ∧ WaveModel.nRipples st' = Z.of_nat (length surv)
         ∧ WaveModel.ripples st' = WaveModel.ripples_ this
         ∧ WaveModel.ripples_ st' = WaveModel.ripples_ this
         ∧ surv `sublist_of` (ids ++ news)
         ∧ (NoDup (ids ++ news) →
            NoDup surv
            ∧ ∀ id, id ∈ surv ↔
                id ∈ ids ++ news
                ∧ ∃ rp, WaveModel.objs st2 !! id = Some rp ∧ Ripple.iWave rp - 1 ≠ 0)).
Proof.
  intros Hn Hact.
  unfold active in Hact.
  rewrite <- (Z2Nat.id (WaveModel.nRipples this)) in Hact by done.
  apply holds_mapM in Hact as [Hlen Hids].
  destruct (spawnRipples_appends this)
    as (news & st2 & Hspawn & Hnews & Hholds & Harr & Hobjs & Hlive & HF & Hfix & Hq).
  assert (Hall : holds (WaveModel.deref (WaveModel.ripples this) st2) 0 (ids ++ news)).
  { apply holds_app. split.
    - apply (holds_ext (WaveModel.deref (WaveModel.ripples this) this)); [|done].
      intros k Hk. apply Harr. right. lia.
    - rewrite Hlen, Z2Nat.id by done. done. }
  exists news, st2. split; [done|]. split; [done|]. split; [done|].
  intros Hap.
  destruct (apply_all_ok (ids ++ news) (WaveModel.objs st2) (WaveModel.F st2) Hap)
    as (surv & o & F' & Hrun).
  assert (Hn2 : WaveModel.nRipples this + Z.of_nat (length news)
                = Z.of_nat (length (ids ++ news))).
  { rewrite length_app, Hlen. lia. }
  rewrite Hn2 in Hspawn.
  destruct (genForces_after_spawn this st2 (ids ++ news) surv o F' Hspawn Hall Hrun)
    as (st' & Hgen & Ho & HF' & Hact' & _ & HnR & Hr & Hr' & _).
  exists st', surv. rewrite Ho, HF'.
  split; [done|]. split; [done|]. split; [done|]. split; [done|].
  split; [done|]. split; [done|].
  split; [by apply (apply_all_sublist _ _ _ _ _ _ Hrun)|].
  intros Hnd. split.
  - exact (sublist_NoDup _ _ Hnd (apply_all_sublist _ _ _ _ _ _ Hrun)).
  - by apply (apply_all_kept _ _ _ _ _ _ Hnd Hrun).
Qed.

(** ** The constructor *)

Lemma const_map_lookup {A : Type} (l : list Z) (v : A) (k : Z) :
  k ∈ l → (list_to_map ((λ k, (k, v)) <$> l) : gmap Z A) !! k = Some v.
Proof.
  induction l as [|x l IH]; intros Hk; [by apply elem_of_nil in Hk|].
  cbn [fmap list_fmap list_to_map foldr]. cbn.
  destruct (decide (x = k)) as [->|Hne].
  - by rewrite lookup_insert_eq.
  - rewrite lookup_insert_ne by done. apply IH.
    apply elem_of_cons in Hk as [->|Hk]; done.
Qed.

Lemma Array_ok n : 0 ≤ n < 2 ^ 32 → Utils.Array n = Ok (seqZ 0 n).
Proof.
  intros Hn. unfold Utils.Array.
  destruct (0 <=? n) eqn:E1; [|lia]. destruct (n <? 2 ^ 32) eqn:E2; [done|lia].
Qed.

Lemma numArray2D_zero rows cols :
  0 ≤ rows < 2 ^ 32 → 0 ≤ cols < 2 ^ 32 →
  ∃ g, Utils.numArray2D rows cols None = Ok g ∧ zero_on g rows cols.
Proof.
  intros Hr Hc. unfold Utils.numArray2D, Utils.numArray.
  rewrite (Array_ok rows Hr), (Array_ok cols Hc). cbn [mbind jsres_bind default].
  destruct (seqZ 0 rows) as [|k0 ks] eqn:Hkeys.
  - exists ∅. split; [done|]. intros r c Hr' _.
    assert (r ∈ seqZ 0 rows) as Hin by (apply elem_of_seqZ; lia).
    rewrite Hkeys in Hin. by apply elem_of_nil in Hin.
  - eexists. split; [done|]. intros r c Hr' Hc'. unfold cell.
    rewrite const_map_lookup by (rewrite <- Hkeys; apply elem_of_seqZ; lia).
    cbn. apply const_map_lookup. apply elem_of_seqZ. lia.
Qed.

Lemma new_zero rows cols conf rnd :
  0 ≤ rows < 2 ^ 32 → 0 ≤ cols < 2 ^ 32 →
  ∃ f v v' m m',
    WaveModel.new rows cols conf rnd =
      Ok {| WaveModel.rows := rows; WaveModel.cols := cols; WaveModel.conf := conf;
            WaveModel.F := f; WaveModel.V := v; WaveModel.V_ := v';
            WaveModel.M := m; WaveModel.M_ := m';
            WaveModel.ripples := Arr0; WaveModel.ripples_ := Arr1;
            WaveModel.nRipples := 0;
            WaveModel.ripplesToGen :=
              if Qlt_le_dec (Conf.ripples conf) 0 then (- Conf.ripples conf)%Q else 0%Q;
            WaveModel.array0 := ∅; WaveModel.array1 := ∅;
            WaveModel.objs := ∅; WaveModel.nextId := O;
            WaveModel.Math_random := rnd; WaveModel.nRandom := O |}
    ∧ zero_on f rows cols ∧ zero_on v rows cols ∧ zero_on v' rows cols
    ∧ zero_on m rows cols ∧ zero_on m' rows cols.
Proof.
  intros Hr Hc. destruct (numArray2D_zero rows cols Hr Hc) as (g & Hg & Hz).
  exists g, g, g, g, g. unfold WaveModel.new. rewrite Hg. cbn [mbind jsres_bind].
  done.
Qed.

(** ** One tick with one ripple, from rest *)

Lemma fixed_part_eq (a b : WaveModel.t) :
  fixed_part a = fixed_part b →
  WaveModel.rows a = WaveModel.rows b ∧ WaveModel.cols a = WaveModel.cols b
  ∧ WaveModel.conf a = WaveModel.conf b
  ∧ WaveModel.V a = WaveModel.V b ∧ WaveModel.V_ a = WaveModel.V_ b
  ∧ WaveModel.M a = WaveModel.M b ∧ WaveModel.M_ a = WaveModel.M_ b
  ∧ WaveModel.Math_random a = WaveModel.Math_random b.
Proof. unfold fixed_part. intros H. injection H. intros. repeat split; assumption. Qed.

Lemma counters_eq (a b : WaveModel.t) :
  counters a = counters b →
  WaveModel.nextId a = WaveModel.nextId b ∧ WaveModel.nRandom a = WaveModel.nRandom b
  ∧ WaveModel.ripplesToGen a = WaveModel.ripplesToGen b.
Proof. unfold counters. intros H. injection H. intros. repeat split; assumption. Qed.

Lemma tick_one_ripple (this : WaveModel.t) (id : rid) (rp : Ripple.t) :
  one_ripple_at_rest this id rp →
  Ripple.iWave rp - 1 ≠ 0 →
  ∃ st', tick this = Ok st'
    ∧ WaveModel.rows st' = WaveModel.rows this
    ∧ WaveModel.cols st' = WaveModel.cols this
    ∧ WaveModel.conf st' = WaveModel.conf this
    ∧ (∀ r c, 0 ≤ r < WaveModel.rows this → 0 ≤ c < WaveModel.cols this →
         cell (WaveModel.M st') r c
         = Some (if decide ((Ripple.r rp, Ripple.c rp) = (r, c))
                 then Ripple.force rp * WaveModel.FORCE_INFLUENCE else 0)%R)
    ∧ (Ripple.force rp = 0%R → one_ripple_at_rest st' id (ticked rp)).
Proof.
  intros (Hshape & HF & HV & HM & Hrate & Hq & HnR & Hid & Hrp & Hw & Hr & Hc) Hi.
  assert (Hrow : is_Some (WaveModel.F this !! Ripple.r rp)).
  { apply (cell_row _ _ (Ripple.c rp)). rewrite (HF _ _ Hr Hc). eauto. }
  destruct (applyForce_ok rp (WaveModel.F this) Hw Hrow) as (F1 & HF1 & Happ).
  fold (ticked rp) in Happ.
  assert (Hrun : apply_all [id] (WaveModel.objs this) (WaveModel.F this)
                 = Ok ([id], <[id := ticked rp]> (WaveModel.objs this), F1)).
  { cbn [apply_all]. rewrite Hrp, Happ. cbn [mbind jsres_bind].
    destruct (Ripple.iWave rp - 1 =? 0) eqn:E; [lia|]. done. }
  assert (Hh : holds (WaveModel.deref (WaveModel.ripples this) this) 0 [id]).
  { apply holds_cons. split; [done|apply holds_nil]. }
  pose proof (spawnRipples_idle this Hrate Hq) as Hspawn. rewrite HnR in Hspawn.
  destruct (genForces_after_spawn this this [id] _ _ _ Hspawn Hh Hrun)
    as (st1 & Hgen & Ho1 & HF1' & _ & Hh1 & HnR1 & _ & _ & Hfix1 & Hcnt1).
  apply fixed_part_eq in Hfix1
    as (Hrows1 & Hcols1 & Hconf1 & HV1 & HV_1 & HM1 & HM_1 & Hrnd1).
  apply counters_eq in Hcnt1 as (Hnext1 & HnRand1 & Hq1).
  assert (HcellF1 : ∀ r c, 0 ≤ r < WaveModel.rows this → 0 ≤ c < WaveModel.cols this →
     cell (WaveModel.F st1) r c
     = Some (if decide ((Ripple.r rp, Ripple.c rp) = (r, c)) then Ripple.force rp else 0%R)).
  { intros r c Hr' Hc'. rewrite HF1', (cell_write2 _ _ _ _ _ r c HF1).
    destruct (decide (Ripple.r rp = r ∧ Ripple.c rp = c)) as [[<- <-]|Hne].
    - by rewrite decide_True.
    - rewrite decide_False; [by apply HF|]. intros Heq. inversion Heq. tauto. }
  destruct Hshape as (_ & HsV & HsV_ & HsM & HsM_).
  assert (Hshape1 : buffers_shaped st1).
  { unfold buffers_shaped. rewrite Hrows1, Hcols1, HV1, HV_1, HM1, HM_1.
    repeat split; try done. intros r c Hr' Hc'. rewrite (HcellF1 r c Hr' Hc'). eauto. }
  destruct (modelStep_from_rest st1 Hshape1)
    as (st' & Hstep & Hshape' & _ & Hframe & HF' & Hcells).
  { by rewrite Hrows1, Hcols1, HV1. }
  { by rewrite Hrows1, Hcols1, HM1. }
  rewrite Hrows1, Hcols1 in HF', Hcells.
  assert (Hrows' : WaveModel.rows st' = WaveModel.rows this)
    by (apply (f_equal WaveModel.rows) in Hframe; cbn in Hframe; congruence).
  assert (Hcols' : WaveModel.cols st' = WaveModel.cols this)
    by (apply (f_equal WaveModel.cols) in Hframe; cbn in Hframe; congruence).
  assert (Hconf' : WaveModel.conf st' = WaveModel.conf this)
    by (apply (f_equal WaveModel.conf) in Hframe; cbn in Hframe; congruence).
  assert (Hval : ∀ r c, 0 ≤ r < WaveModel.rows this → 0 ≤ c < WaveModel.cols this →
     (val (WaveModel.F st1) r c * WaveModel.FORCE_INFLUENCE)%R
     = (if decide ((Ripple.r rp, Ripple.c rp) = (r, c))
        then Ripple.force rp * WaveModel.FORCE_INFLUENCE else 0)%R).
  { intros r c Hr' Hc'. rewrite (val_cell _ _ _ _ (HcellF1 r c Hr' Hc')).
    destruct (decide _); lra. }
  exists st'. split.
  { unfold tick. rewrite Hgen. cbn [mbind jsres_bind]. done. }
  split; [done|]. split; [done|]. split; [done|]. split.
  { intros r c Hr' Hc'. destruct (Hcells r c Hr' Hc') as (_ & ->).
    by rewrite (Hval r c Hr' Hc'). }
  intros H0.
  assert (Hzero : ∀ r c, 0 ≤ r < WaveModel.rows this → 0 ≤ c < WaveModel.cols this →
     (val (WaveModel.F st1) r c * WaveModel.FORCE_INFLUENCE)%R = 0%R).
  { intros r c Hr' Hc'. rewrite (Hval r c Hr' Hc'), H0. destruct (decide _); lra. }
  unfold one_ripple_at_rest. rewrite Hrows', Hcols', Hconf'.
  split; [done|]. split; [done|]. split.
  { intros r c Hr' Hc'. destruct (Hcells r c Hr' Hc') as (-> & _).
    by rewrite (Hzero r c Hr' Hc'). }
  split.
  { intros r c Hr' Hc'. destruct (Hcells r c Hr' Hc') as (_ & ->).
    by rewrite (Hzero r c Hr' Hc'). }
  split; [done|].
  assert (Hq' : WaveModel.ripplesToGen st' = WaveModel.ripplesToGen this)
    by (apply (f_equal WaveModel.ripplesToGen) in Hframe; cbn in Hframe; congruence).
  assert (HnR' : WaveModel.nRipples st' = 1).
  { apply (f_equal WaveModel.nRipples) in Hframe. cbn in Hframe.
    rewrite <- Hframe, HnR1. done. }
  assert (Hrip' : WaveModel.ripples st' = WaveModel.ripples st1)
    by (apply (f_equal WaveModel.ripples) in Hframe; cbn in Hframe; congruence).
  assert (Harr' : ∀ a, WaveModel.deref a st' = WaveModel.deref a st1).
  { intros []; [apply (f_equal WaveModel.array0) in Hframe
               |apply (f_equal WaveModel.array1) in Hframe]; cbn in Hframe; done. }
  assert (Hobjs' : WaveModel.objs st' = WaveModel.objs st1)
    by (apply (f_equal WaveModel.objs) in Hframe; cbn in Hframe; congruence).
  split; [by rewrite Hq'|]. split; [done|]. split.
  { rewrite Hrip', Harr'. apply holds_cons in Hh1 as [Hh1 _]. done. }
  split.
  { rewrite Hobjs', Ho1. by rewrite lookup_insert_eq. }
  done.
Qed.

(** ** The end-to-end scenario *)

Lemma pond_ripple_init :
  Ripple.init pond_conf 5 5 (λ _, 0%Q) 0 = (pond_ripple, O).
Proof. reflexivity. Qed.

Lemma pond_ready :
  ∃ st0, pond_with_ripple = Ok st0
    ∧ WaveModel.rows st0 = 5 ∧ WaveModel.cols st0 = 5
    ∧ WaveModel.conf st0 = pond_conf
    ∧ WaveModel.objs st0 !! O = Some pond_ripple
    ∧ one_ripple_at_rest st0 O pond_ripple.
Proof.
  destruct (new_zero 5 5 pond_conf (λ _, 0%Q)) as (f & v & v' & m & m' & Hnew & Hf & Hv & Hv' & Hm & Hm');
    [lia|lia|].
  unfold pond_with_ripple, pond. rewrite Hnew. cbn [mbind jsres_bind].
  unfold WaveModel.newRipple.
  cbn [WaveModel.conf WaveModel.rows WaveModel.cols WaveModel.Math_random WaveModel.nRandom].
  rewrite pond_ripple_init.
  eexists. split; [reflexivity|]. cbn.
  split; [done|]. split; [done|]. split; [done|]. split; [done|].
  unfold one_ripple_at_rest, buffers_shaped. cbn.
  repeat split; try done; try (by apply zero_on_shaped).
Qed.

Lemma Q2R_ten : Q2R 10 = 10%R.
Proof. unfold Q2R. cbn. lra. Qed.

Lemma pond_second_force : Ripple.force (ticked pond_ripple) = 10%R.
Proof.
  unfold Ripple.force, ticked, pond_ripple. cbn.
  rewrite Q2R_ten. change (4 - (4 - 1)) with 1.
  replace (1 / 4 * PI * 2)%R with (PI / 2)%R by lra.
  rewrite sin_PI2. lra.
Qed.

(** The scenario, tick by tick. *)
Lemma pond_two_ticks :
  ∃ st0 st1 st2,
    pond_with_ripple = Ok st0
    ∧ WaveModel.objs st0 !! O = Some pond_ripple
    ∧ tick st0 = Ok st1
    ∧ (∀ r c, 0 ≤ r < 5 → 0 ≤ c < 5 → cell (WaveModel.M st1) r c = Some 0%R)
    ∧ tick st1 = Ok st2
    ∧ (∀ r c, 0 ≤ r < 5 → 0 ≤ c < 5 →
         cell (WaveModel.M st2) r c
         = Some (if decide ((2, 2) = (r, c)) then 1%R else 0%R)).
Proof.
  destruct pond_ready as (st0 & Hst0 & Hrows0 & Hcols0 & Hconf0 & Hobj0 & Hrest0).
  destruct (tick_one_ripple st0 O pond_ripple Hrest0)
    as (st1 & Ht1 & Hrows1 & Hcols1 & Hconf1 & HM1 & Hrest1); [done|].
  assert (Hf0 : Ripple.force pond_ripple = 0%R) by (by apply force_at_start).
  specialize (Hrest1 Hf0).
  destruct (tick_one_ripple st1 O (ticked pond_ripple) Hrest1)
    as (st2 & Ht2 & Hrows2 & Hcols2 & Hconf2 & HM2 & _); [done|].
  rewrite Hrows0, Hcols0 in HM1. rewrite Hrows1, Hcols1, Hrows0, Hcols0 in HM2.
  exists st0, st1, st2. repeat split; try done.
  - intros r c Hr Hc. rewrite (HM1 r c Hr Hc), Hf0. f_equal. destruct (decide _); lra.
  - intros r c Hr Hc. rewrite (HM2 r c Hr Hc), pond_second_force.
    change (Ripple.r (ticked pond_ripple), Ripple.c (ticked pond_ripple)) with (2, 2).
    f_equal. unfold WaveModel.FORCE_INFLUENCE. destruct (decide _); lra.
Qed.

(** C3 (counterexample).  In the scenario the magnitude at (2,2) after
    the first tick is exactly zero: it is not nonzero. *)
Lemma pond_source_cell_zero_after_one_tick :
  ∃ st0 st1,
    pond_with_ripple = Ok st0
    ∧ WaveModel.objs st0 !! O = Some pond_ripple
    ∧ tick st0 = Ok st1
    ∧ cell (WaveModel.M st1) 2 2 = Some 0%R
    ∧ ¬ (∃ m, cell (WaveModel.M st1) 2 2 = Some m ∧ m ≠ 0%R).
Proof.
  destruct pond_two_ticks as (st0 & st1 & _ & H0 & Hobj & H1 & HM1 & _).
  exists st0, st1. repeat split; try done.
  - by apply HM1.
  - intros (m & Hm & Hne). rewrite HM1 in Hm by done. by inversion Hm.
Qed.

(** C3 (as the code has it).  On the 5 x 5 non-torus grid with damping
    0, all-zero initial state and one ripple on (2,2) of wavelength 4 and
    magnitude 10: after one tick every cell, (2,2) included, has
    magnitude exactly zero, the ripple's first force being 10 sin 0 = 0;
    after the second tick the magnitude at (2,2) is exactly 1 and every
    other cell is still exactly zero. *)
Theorem pond_source_cell_moves_on_second_tick :
  ∃ st0 st1 st2,
    pond_with_ripple = Ok st0
    ∧ (∃ rp, WaveModel.objs st0 !! O = Some rp
             ∧ active st0 = Some [O]
             ∧ (Ripple.r rp, Ripple.c rp) = (2, 2)
             ∧ Ripple.wavelength rp = 4 ∧ Ripple.iWave rp = 4
             ∧ Ripple.mag rp = 10%R)
    ∧ tick st0 = Ok st1
    ∧ (∀ r c, 0 ≤ r < 5 → 0 ≤ c < 5 → cell (WaveModel.M st1) r c = Some 0%R)
    ∧ tick st1 = Ok st2
    ∧ cell (WaveModel.M st2) 2 2 = Some 1%R
    ∧ (∀ r c, 0 ≤ r < 5 → 0 ≤ c < 5 → (r, c) ≠ (2, 2) →
         cell (WaveModel.M st2) r c = Some 0%R).
Proof.
  destruct pond_two_ticks as (st0 & st1 & st2 & H0 & Hobj & H1 & HM1 & H2 & HM2).
  destruct pond_ready as (st0' & H0' & _ & _ & _ & _ & Hrest).
  rewrite H0 in H0'. inversion H0'; subst st0'.
  destruct Hrest as (_ & _ & _ & _ & _ & _ & HnR & Hid & _).
  exists st0, st1, st2. split; [done|]. split.
  { exists pond_ripple. split; [done|]. split.
    - unfold active. rewrite HnR. apply (mapM_holds _ [O]).
      apply holds_cons. split; [done|apply holds_nil].
    - repeat split; try done. apply Q2R_ten. }
  split; [done|]. split; [done|]. split; [done|]. split.
  - rewrite HM2 by done. by rewrite decide_True.
  - intros r c Hr Hc Hne. rewrite HM2 by done. rewrite decide_False; [done|].
    intros Heq. by rewrite Heq in Hne.
Qed.

(** ** The statements at sample stores *)

Lemma zeros_2x1_zero : zero_on zeros_2x1 2 1.
Proof.
  intros r c Hr Hc. assert (c = 0) as -> by lia.
  assert (r = 0 ∨ r = 1) as [-> | ->] by lia; reflexivity.
Defined.

Lemma still_2x1_shaped : buffers_shaped still_2x1.
Proof. repeat split; apply zero_on_shaped, zeros_2x1_zero. Defined.

Lemma zero_state_is_steady_witness :
  ∃ st', steps 3 still_2x1 = Ok st'
    ∧ zero_on (WaveModel.M st') 2 1
    ∧ zero_on (WaveModel.V st') 2 1
    ∧ zero_on (WaveModel.F st') 2 1.
Proof.
  exact (zero_state_is_steady 3 still_2x1 still_2x1_shaped
           zeros_2x1_zero zeros_2x1_zero zeros_2x1_zero).
Defined.

Lemma nontorus_getter_default_outside_stored_inside_witness :
  let get := WaveModel.getterFactory moving_1x1 WaveModel.M 0%R in
  (∀ r c, r < 0 ∨ 1 ≤ r ∨ c < 0 ∨ 1 ≤ c → get r c = Ok 0%R)
  ∧ (∀ c, 0 ≤ c < 1 → get (-1) c = Ok 0%R ∧ get 1 c = Ok 0%R)
  ∧ (∀ r c, 0 ≤ r < 1 → 0 ≤ c < 1 →
       ∃ v, cell (WaveModel.M moving_1x1) r c = Some v ∧ get r c = Ok v)
  ∧ (∀ r c, ∃ v, get r c = Ok v).
Proof.
  exact (nontorus_getter_default_outside_stored_inside moving_1x1 WaveModel.M 0%R
           eq_refl (one_cell_shaped 1%R)).
Defined.

Lemma cell_2_2_row : is_Some (cell_2_2 !! 2).
Proof. exists {[ 2 := 0%R ]}. reflexivity. Defined.

Lemma fresh_ripple_first_force_is_zero_witness :
  let rp := (Ripple.init pond_conf 5 5 (λ _, 0%Q) 0).1 in
  ∃ b rp' F', Ripple.applyForce rp cell_2_2 = Ok (b, rp', F')
              ∧ Ripple.force rp = 0%R
              ∧ cell F' (Ripple.r rp) (Ripple.c rp) = Some 0%R.
Proof.
  refine (fresh_ripple_first_force_is_zero pond_conf 5 5 (λ _, 0%Q) 0 cell_2_2 _ _).
  - discriminate.
  - exact cell_2_2_row.
Defined.

Lemma two_ripples_active : active two_ripples = Some [0%nat; 1%nat].
Proof. reflexivity. Defined.

Lemma genForces_keeps_exactly_the_active_witness :
  ∃ news st2,
    WaveModel.spawnRipples two_ripples = Some (2 + Z.of_nat (length news), st2)
    ∧ news = seq 2 (length news)
    ∧ holds (WaveModel.deref Arr1 st2) 0 ([0%nat; 1%nat] ++ news)
    ∧ (appliable ([0%nat; 1%nat] ++ news) st2 →
       ∃ st' surv,
         WaveModel.genForces two_ripples = Ok st'
         ∧ apply_all ([0%nat; 1%nat] ++ news) (WaveModel.objs st2) (WaveModel.F st2)
           = Ok (surv, WaveModel.objs st', WaveModel.F st')
         ∧ active st' = Some surv
         ∧ WaveModel.nRipples st' = Z.of_nat (length surv)
         ∧ WaveModel.ripples st' = Arr1
         ∧ WaveModel.ripples_ st' = Arr1
         ∧ surv `sublist_of` ([0%nat; 1%nat] ++ news)
         ∧ (NoDup ([0%nat; 1%nat] ++ news) →
            NoDup surv
            ∧ ∀ id, id ∈ surv ↔
                id ∈ [0%nat; 1%nat] ++ news
                ∧ ∃ rp, WaveModel.objs st2 !! id = Some rp ∧ Ripple.iWave rp - 1 ≠ 0)).
Proof.
  refine (genForces_keeps_exactly_the_active two_ripples [0%nat; 1%nat] _ _).
  - cbn. lia.
  - exact two_ripples_active.
Defined.

(** A second call, on the store where [ripples] and [ripples_] are one
    array: the ripple on its last tick goes, the other one moves to the
    front. *)
Lemma genForces_on_shared_array :
  ∃ st', WaveModel.genForces two_ripples = Ok st'
    ∧ active st' = Some [1%nat]
    ∧ WaveModel.nRipples st' = 1
    ∧ WaveModel.ripples st' = WaveModel.ripples_ st'.
Proof.
  assert (Hspawn : WaveModel.spawnRipples two_ripples
                   = Some (Z.of_nat (length [0%nat; 1%nat]), two_ripples)).
  { apply (spawnRipples_idle two_ripples); cbn; lra. }
  assert (Hh : holds (WaveModel.deref (WaveModel.ripples two_ripples) two_ripples) 0
                 [0%nat; 1%nat]).
  { apply holds_cons. split; [reflexivity|]. apply holds_cons.
    split; [reflexivity|apply holds_nil]. }
  destruct (apply_all_ok [0%nat; 1%nat] (WaveModel.objs two_ripples)
              (WaveModel.F two_ripples)) as (surv & o & F' & Hrun).
  { intros id Hid. apply elem_of_cons in Hid as [->|Hid].
    - exists ripple_last. split; [reflexivity|]. split; [discriminate|].
      exact zeros_2x1_row0.
    - apply elem_of_cons in Hid as [->|Hid]; [|by apply elem_of_nil in Hid].
      exists ripple_w8. split; [reflexivity|]. split; [discriminate|].
      exact zeros_2x1_row0. }
  assert (Hkept := apply_all_kept _ _ _ _ _ _ (NoDup_seq 0 2) Hrun).
  assert (Hsub := apply_all_sublist _ _ _ _ _ _ Hrun).
  assert (surv = [1%nat]) as ->.
  { assert (H0 : 0%nat ∉ surv).
    { intros Hin. apply Hkept in Hin as (_ & rp & Hrp & Hi).
      inversion Hrp; subst. by cbn in Hi. }
    assert (H1 : 1%nat ∈ surv).
    { apply Hkept. split; [by right; left|]. exists ripple_w8. split; [reflexivity|]. by cbn. }
    apply sublist_cons_r in Hsub as [Hsub|(l' & -> & _)]; [|by destruct H0; left].
    apply sublist_cons_r in Hsub as [Hsub|(l' & -> & Hsub)].
    - apply sublist_nil_r in Hsub. subst. by apply elem_of_nil in H1.
    - apply sublist_nil_r in Hsub. by subst. }
  destruct (genForces_after_spawn two_ripples two_ripples _ _ _ _ Hspawn Hh Hrun)
    as (st' & Hgen & _ & _ & Hact & _ & HnR & Hr & Hr' & _).
  exists st'. rewrite Hr, Hr'. done.
Qed.

(** * Further properties of the code *)

(** ** Utils.mod *)

(** X1.  For a non-negative [n] and a positive modulus, [Utils.mod] is
    the mathematical modulus, a number of [[0, m)]. *)
Theorem mod_nonnegative_is_modulus (n m : Z) :
  0 ≤ n → 0 < m →
  Utils.mod_ n m = Some (n mod m) ∧ 0 ≤ n mod m < m.
Proof.
  intros Hn Hm. rewrite mod_nonneg by lia. split.
  - f_equal. apply Z.rem_mod_nonneg; lia.
  - apply Z.mod_pos_bound. lia.
Qed.

Lemma mod_nonnegative_is_modulus_witness :
  Utils.mod_ 7 5 = Some (7 mod 5) ∧ 0 ≤ 7 mod 5 < 5.
Proof. apply (mod_nonnegative_is_modulus 7 5); lia. Defined.

Lemma mod_negative_unfold (n m : Z) :
  n < 0 → 0 < m → Utils.mod_ n m = Some (Z.rem (Z.rem n m + m) n).
Proof.
  intros Hn Hm. unfold Utils.mod_, Utils.rem.
  destruct (n >=? 0) eqn:E; [lia|].
  destruct (m =? 0) eqn:E1; [lia|]. cbn [mbind option_bind].
  destruct (n =? 0) eqn:E2; [lia|]. done.
Qed.

Lemma rem_neg_dividend (n m : Z) :
  n < 0 → 0 < m → Z.rem n m + m = (if decide (n mod m = 0) then m else n mod m).
Proof.
  intros Hn Hm.
  pose proof (Z.rem_mod n m ltac:(lia)) as Hrm.
  rewrite Z.sgn_neg, Z.abs_neq, (Z.abs_eq m) in Hrm by lia.
  pose proof (Z.mod_pos_bound n m Hm) as Hb.
  pose proof (Z.mod_pos_bound (- n) m Hm) as Hb'.
  destruct (decide (n mod m = 0)) as [H0|Hne].
  - apply Z.mod_opp_l_z in H0; [|lia]. lia.
  - rewrite Z.mod_opp_l_nz in Hrm by lia. lia.
Qed.

(** X2.  For a negative [n] that the positive modulus [m] does not
    divide and with [m <= -n], [Utils.mod] is the mathematical modulus
    in spite of its last [% n]. *)
Theorem mod_negative_is_modulus_when_large (n m : Z) :
  0 < m → m ≤ - n → n mod m ≠ 0 →
  Utils.mod_ n m = Some (n mod m) ∧ 0 ≤ n mod m < m.
Proof.
  intros Hm Hn Hnd. pose proof (Z.mod_pos_bound n m Hm) as Hb.
  split; [|done].
  rewrite mod_negative_unfold by lia. rewrite rem_neg_dividend by lia.
  rewrite decide_False by done. f_equal.
  rewrite <- Z.rem_abs_r by lia. apply Z.rem_small. lia.
Qed.

Lemma mod_negative_is_modulus_when_large_witness :
  Utils.mod_ (-7) 5 = Some ((-7) mod 5) ∧ 0 ≤ (-7) mod 5 < 5.
Proof. apply (mod_negative_is_modulus_when_large (-7) 5); [lia|lia|discriminate]. Defined.

(** X3.  For a negative multiple [n] of the positive modulus [m] other
    than [-m], [Utils.mod] returns [m] itself, which is outside
    [[0, m)]; and for a negative [n] above [-m] the result is below
    [-n], so it is not the modulus as soon as that is [-n] or more. *)
Theorem mod_negative_leaves_range (n m : Z) :
  0 < m → n < 0 →
  (n mod m = 0 → n ≠ - m → Utils.mod_ n m = Some m)
  ∧ (- m < n → ∃ k, Utils.mod_ n m = Some k ∧ 0 ≤ k < - n
                    ∧ (- n ≤ n mod m → k ≠ n mod m)).
Proof.
  intros Hm Hn. split.
  - intros Hd Hne. rewrite mod_negative_unfold by lia. rewrite rem_neg_dividend by lia.
    rewrite decide_True by done. f_equal.
    rewrite <- Z.rem_abs_r by lia. apply Z.rem_small.
    apply Z.mod_divide in Hd as [k Hk]; [|lia]. rewrite Z.abs_neq by lia.
    assert (k < 0) by nia. assert (k ≠ -1) by (intros ->; lia). nia.
  - intros Hlt. rewrite mod_negative_unfold by lia. eexists. split; [done|].
    pose proof (Z.rem_bound_pos (Z.rem n m + m) (- n)) as Hb.
    rewrite Z.rem_opp_r in Hb by lia.
    assert (0 ≤ Z.rem n m + m).
    { rewrite rem_neg_dividend by lia. pose proof (Z.mod_pos_bound n m Hm).
      destruct (decide _); lia. }
    lia.
Qed.

Lemma mod_negative_leaves_range_witness :
  ((-10) mod 5 = 0 → -10 ≠ - 5 → Utils.mod_ (-10) 5 = Some 5)
  ∧ (- 5 < -10 → ∃ k, Utils.mod_ (-10) 5 = Some k ∧ 0 ≤ k < - -10
                    ∧ (- -10 ≤ (-10) mod 5 → k ≠ (-10) mod 5)).
Proof. apply (mod_negative_leaves_range (-10) 5); lia. Defined.

(** ** Utils.boundVal *)

Lemma Qmax_cases (a b : Q) :
  ((a < b)%Q ∧ Qminmax.Qmax a b = b) ∨ ((b <= a)%Q ∧ Qminmax.Qmax a b = a).
Proof.
  unfold Qminmax.Qmax, GenericMinMax.gmax.
  destruct (Qcompare_spec a b) as [H|H|H]; [right|left|right]; split; try done; lra.
Qed.

Lemma Qmin_cases (a b : Q) :
  ((b < a)%Q ∧ Qminmax.Qmin a b = b) ∨ ((a <= b)%Q ∧ Qminmax.Qmin a b = a).
Proof.
  unfold Qminmax.Qmin, GenericMinMax.gmin.
  destruct (Qcompare_spec a b) as [H|H|H]; [right|right|left]; split; try done; lra.
Qed.

(** X4.  With [min <= max], [boundVal] returns a value between the two
    bounds, and the value itself when that is between them already;
    with the bounds the wrong way round it returns [min]. *)
Theorem boundVal_bounds (v min max : Q) :
  ((min <= max)%Q →
     (min <= Utils.boundVal v min max)%Q ∧ (Utils.boundVal v min max <= max)%Q
     ∧ ((min <= v)%Q → (v <= max)%Q → Utils.boundVal v min max = v))
  ∧ ((max < min)%Q → Utils.boundVal v min max = min).
Proof.
  unfold Utils.boundVal.
  destruct (Qmin_cases v max) as [[H1 ->]|[H1 ->]];
    destruct (Qmax_cases max min) as [[H2 E2]|[H2 E2]];
    destruct (Qmax_cases v min) as [[H3 E3]|[H3 E3]];
    rewrite ?E2, ?E3; repeat split; intros; try done; try lra.
Qed.

(** ** Utils.numArray2D and the constructor *)

Lemma const_map_lookup_None {A : Type} (l : list Z) (v : A) (k : Z) :
  k ∉ l → (list_to_map ((λ k, (k, v)) <$> l) : gmap Z A) !! k = None.
Proof.
  intros Hk. apply not_elem_of_list_to_map_1.
  rewrite <- list_fmap_compose. cbn. by rewrite list_fmap_id.
Qed.



(** X6.  [numArray2D] throws a RangeError for a row count that is
    negative or 2^32 or more, and for such a column count when there is
    at least one row; with no rows the column count is not looked at and
    the grid is empty. *)
Theorem numArray2D_range_errors (rows cols : Z) (val : option R) :
  ((rows < 0 ∨ 2 ^ 32 ≤ rows) → Utils.numArray2D rows cols val = Err RangeError)
  ∧ (0 < rows < 2 ^ 32 → (cols < 0 ∨ 2 ^ 32 ≤ cols) →
       Utils.numArray2D rows cols val = Err RangeError)
  ∧ (rows = 0 → Utils.numArray2D rows cols val = Ok ∅).
Proof.
  unfold Utils.numArray2D, Utils.numArray, Utils.Array. repeat split.
  - intros H. destruct (0 <=? rows) eqn:E1; destruct (rows <? 2 ^ 32) eqn:E2; try done; lia.
  - intros Hr Hc.
    destruct (0 <=? rows) eqn:E1; [|lia]. destruct (rows <? 2 ^ 32) eqn:E2; [|lia].
    cbn [andb mbind jsres_bind].
    destruct (seqZ 0 rows) as [|k0 ks] eqn:Hkeys.
    { assert (0 ∈ seqZ 0 rows) as Hin by (apply elem_of_seqZ; lia).
      rewrite Hkeys in Hin. by apply elem_of_nil in Hin. }
    destruct (0 <=? cols) eqn:E3; destruct (cols <? 2 ^ 32) eqn:E4; try done; lia.
  - intros ->. done.
Qed.



(** ** insertRipple *)

Lemma deref_set_ripples a this r r' n q :
  WaveModel.deref a (WaveModel.set_ripples this r r' n q) = WaveModel.deref a this.
Proof. by destruct a. Qed.

Lemma active_holds (this : WaveModel.t) (ids : list rid) :
  0 ≤ WaveModel.nRipples this →
  active this = Some ids ↔
  (Z.of_nat (length ids) = WaveModel.nRipples this
   ∧ holds (WaveModel.deref (WaveModel.ripples this) this) 0 ids).
Proof.
  intros Hn. unfold active. split.
  - intros H. rewrite <- (Z2Nat.id (WaveModel.nRipples this)) in H by done.
    apply holds_mapM in H as [Hlen Hh]. split; [lia|done].
  - intros [Hlen Hh]. rewrite <- Hlen. by apply mapM_holds.
Qed.

Lemma insertRipple_active (this : WaveModel.t) (ids : list rid) (ripple : rid) :
  0 ≤ WaveModel.nRipples this →
  active this = Some ids →
  active (WaveModel.insertRipple ripple this) = Some (ids ++ [ripple]).
Proof.
  intros Hn Hact. apply active_holds in Hact as [Hlen Hh]; [|done].
  apply active_holds; [cbn; lia|]. split.
  { rewrite length_app. cbn. lia. }
  unfold WaveModel.insertRipple. cbn [WaveModel.ripples WaveModel.set_ripples].
  rewrite deref_set_ripples.
  change (WaveModel.ripples (WaveModel.store _ _ _ this)) with (WaveModel.ripples this).
  apply holds_app. split.
  - apply (holds_ext (WaveModel.deref (WaveModel.ripples this) this)); [|done].
    intros k Hk. rewrite deref_store, decide_False; [done|lia].
  - apply holds_cons. split; [|apply holds_nil].
    rewrite deref_store, decide_True; [done|]. split; [done|lia].
Qed.

(** X8.  [insertRipple] appends: the active set afterwards is the one
    before followed by the inserted ripple, the count goes up by one, and
    neither the buffers nor the ripple objects nor the spawn quota
    change. *)
Theorem insertRipple_appends (this : WaveModel.t) (ids : list rid) (ripple : rid) :
  0 ≤ WaveModel.nRipples this →
  active this = Some ids →
  let this' := WaveModel.insertRipple ripple this in
  active this' = Some (ids ++ [ripple])
  ∧ WaveModel.nRipples this' = WaveModel.nRipples this + 1
  ∧ WaveModel.objs this' = WaveModel.objs this
  ∧ WaveModel.F this' = WaveModel.F this
  ∧ fixed_part this' = fixed_part this
  ∧ counters this' = counters this.
Proof.
  intros Hn Hact this'. split; [by apply insertRipple_active|done].
Qed.

Lemma insertRipple_appends_witness :
  let this' := WaveModel.insertRipple 7%nat two_ripples in
  active this' = Some ([0%nat; 1%nat] ++ [7%nat])
  ∧ WaveModel.nRipples this' = WaveModel.nRipples two_ripples + 1
  ∧ WaveModel.objs this' = WaveModel.objs two_ripples
  ∧ WaveModel.F this' = WaveModel.F two_ripples
  ∧ fixed_part this' = fixed_part two_ripples
  ∧ counters this' = counters two_ripples.
Proof.
  refine (insertRipple_appends two_ripples [0%nat; 1%nat] 7%nat _ _).
  - cbn. lia.
  - exact two_ripples_active.
Defined.

(** ** Ripple.init *)

Lemma Qfloor_between (x : Q) (lo hi : Z) :
  (inject_Z lo <= x)%Q → (x < inject_Z hi)%Q → lo ≤ Qfloor x < hi.
Proof.
  intros Hlo Hhi.
  pose proof (Qfloor_le x) as H1. pose proof (Qlt_floor x) as H2.
  split.
  - assert (inject_Z lo < inject_Z (Qfloor x + 1))%Q as H by lra.
    rewrite <- Zlt_Qlt in H. lia.
  - assert (inject_Z (Qfloor x) < inject_Z hi)%Q as H by lra.
    rewrite <- Zlt_Qlt in H. lia.
Qed.

(** On the non-negative rationals below 2^31, [~~] is the floor. *)
Lemma toInt32_floor (q : Q) : in_int32 q → toInt32 q = Qfloor q.
Proof.
  intros [H0 H1].
  assert (Hb : 0 ≤ Qfloor q < 2 ^ 31) by (apply Qfloor_between; [exact H0|exact H1]).
  unfold toInt32. destruct q as [n d]. cbn [Qnum Qden Qfloor] in *.
  assert (0 ≤ n).
  { unfold Qle in H0. cbn in H0. lia. }
  rewrite Z.quot_div_nonneg by lia.
  rewrite Z.mod_small by lia. lia.
Qed.

(** The fields of a fresh ripple: each is computed from the configured
    value, or from a random draw where the configuration asks for one. *)
Lemma init_fields (conf : Conf.t) (rows cols : Z) (rnd : nat → Q) (k : nat) :
  ∃ w fr fc m,
    (Ripple.init conf rows cols rnd k).1
    = {| Ripple.wavelength := 1 + toInt32 w; Ripple.iWave := 1 + toInt32 w;
         Ripple.r := toInt32 (fr * inject_Z rows);
         Ripple.c := toInt32 (fc * inject_Z cols);
         Ripple.mag := Q2R m |}
    ∧ (((0 <= Conf.wavelength conf)%Q ∧ w = Conf.wavelength conf)
       ∨ ((Conf.wavelength conf < 0)%Q ∧ ∃ j, w = (rnd j * - Conf.wavelength conf)%Q))
    ∧ (Conf.spawnRow conf = Some fr ∨ (Conf.spawnRow conf = None ∧ ∃ j, fr = rnd j))
    ∧ (Conf.spawnCol conf = Some fc ∨ (Conf.spawnCol conf = None ∧ ∃ j, fc = rnd j))
    ∧ (((0 <= Conf.magnitude conf)%Q ∧ m = Conf.magnitude conf)
       ∨ ((Conf.magnitude conf < 0)%Q ∧ ∃ j, m = (rnd j * - Conf.magnitude conf)%Q)).
Proof.
  unfold Ripple.init.
  destruct (Qlt_le_dec (Conf.wavelength conf) 0) as [Hw|Hw];
    destruct (Conf.spawnRow conf) as [fr|];
    destruct (Conf.spawnCol conf) as [fc|];
    destruct (Qlt_le_dec (Conf.magnitude conf) 0) as [Hm|Hm];
    cbn [fst]; eexists _, _, _, _; (split; [reflexivity|]);
    (split; [eauto 6|split; [eauto 6|split; eauto 6]]).
Qed.

Lemma fraction_in_range (f : Q) (n : Z) :
  (0 <= f)%Q → (f < 1)%Q → 0 < n < 2 ^ 31 →
  0 ≤ toInt32 (f * inject_Z n) < n.
Proof.
  intros H0 H1 Hn.
  assert (Hn0 : (0 < inject_Z n)%Q) by (rewrite (Zlt_Qlt 0 n) in Hn; tauto).
  assert (Hlo : (inject_Z 0 <= f * inject_Z n)%Q) by (change (inject_Z 0) with 0%Q; nra).
  assert (Hhi : (f * inject_Z n < inject_Z n)%Q) by nra.
  rewrite toInt32_floor.
  - by apply Qfloor_between.
  - split; [exact Hlo|]. assert (inject_Z n < inject_Z (2 ^ 31))%Q; [|lra].
    rewrite <- Zlt_Qlt. lia.
Qed.

(** X9.  With random draws in [[0,1)], configured spawn fractions in
    [[0,1)] and dimensions between 1 and 2^31 - 1, a fresh ripple sits on
    a cell of the grid. *)
Theorem init_position_in_grid (conf : Conf.t) (rows cols : Z) (rnd : nat → Q) (k : nat) :
  unit_draws rnd →
  unit_fraction (Conf.spawnRow conf) → unit_fraction (Conf.spawnCol conf) →
  0 < rows < 2 ^ 31 → 0 < cols < 2 ^ 31 →
  let rp := (Ripple.init conf rows cols rnd k).1 in
  0 ≤ Ripple.r rp < rows ∧ 0 ≤ Ripple.c rp < cols.
Proof.
  intros Hrnd Hfr Hfc Hrows Hcols rp.
  destruct (init_fields conf rows cols rnd k) as (w & fr & fc & m & Hrp & _ & Hr & Hc & _).
  unfold rp. rewrite Hrp. cbn [Ripple.r Ripple.c]. split.
  - apply fraction_in_range; [| |done].
    + destruct Hr as [Hr|[_ [j ->]]]; [rewrite Hr in Hfr; apply Hfr|apply Hrnd].
    + destruct Hr as [Hr|[_ [j ->]]]; [rewrite Hr in Hfr; apply Hfr|apply Hrnd].
  - apply fraction_in_range; [| |done].
    + destruct Hc as [Hc|[_ [j ->]]]; [rewrite Hc in Hfc; apply Hfc|apply Hrnd].
    + destruct Hc as [Hc|[_ [j ->]]]; [rewrite Hc in Hfc; apply Hfc|apply Hrnd].
Qed.

Lemma unit_draws_zero : unit_draws (λ _, 0%Q).
Proof. intros k. split; lra. Defined.

Lemma pond_fraction : unit_fraction (Some (2 # 5)).
Proof. split; lra. Defined.

Lemma init_position_in_grid_witness :
  let rp := (Ripple.init pond_conf 5 5 (λ _, 0%Q) 0).1 in
  0 ≤ Ripple.r rp < 5 ∧ 0 ≤ Ripple.c rp < 5.
Proof.
  refine (init_position_in_grid pond_conf 5 5 (λ _, 0%Q) 0
            unit_draws_zero pond_fraction pond_fraction _ _); lia.
Defined.

(** X10.  With random draws in [[0,1)] and a wavelength parameter [p]
    with [|p| < 2^31], a fresh ripple has all its ticks remaining and a
    wavelength of at least 1: exactly [1 + floor p] for [p >= 0], and
    between 1 and [1 + floor (-p)] for [p < 0]. *)
Theorem init_wavelength_at_least_one
    (conf : Conf.t) (rows cols : Z) (rnd : nat → Q) (k : nat) :
  unit_draws rnd →
  (- inject_Z (2 ^ 31) < Conf.wavelength conf)%Q →
  (Conf.wavelength conf < inject_Z (2 ^ 31))%Q →
  let rp := (Ripple.init conf rows cols rnd k).1 in
  Ripple.iWave rp = Ripple.wavelength rp
  ∧ 1 ≤ Ripple.wavelength rp
  ∧ ((0 <= Conf.wavelength conf)%Q →
       Ripple.wavelength rp = 1 + Qfloor (Conf.wavelength conf))
  ∧ ((Conf.wavelength conf < 0)%Q →
       Ripple.wavelength rp ≤ 1 + Qfloor (- Conf.wavelength conf)).
Proof.
  intros Hrnd Hlo Hhi rp.
  destruct (init_fields conf rows cols rnd k) as (w & fr & fc & m & Hrp & Hw & _).
  unfold rp. rewrite Hrp. cbn [Ripple.iWave Ripple.wavelength]. split; [done|].
  assert (Hin : in_int32 w ∧ ((Conf.wavelength conf < 0)%Q → (w <= - Conf.wavelength conf)%Q)).
  { destruct Hw as [[H0 ->]|[Hneg [j ->]]].
    - split; [by split|]. intros; lra.
    - destruct (Hrnd j) as [Hj0 Hj1]. split; [split|]; [nra|nra|]. intros _. nra. }
  destruct Hin as [Hin Hle]. rewrite (toInt32_floor w Hin).
  destruct Hin as [H0 H1].
  assert (0 ≤ Qfloor w) by (apply (Qfloor_between w 0 (2 ^ 31)); [exact H0|exact H1]).
  split; [lia|]. split.
  - intros Hp. destruct Hw as [[_ ->]|[Hneg _]]; [done|lra].
  - intros Hp. specialize (Hle Hp).
    assert (Qfloor w ≤ Qfloor (- Conf.wavelength conf)) by (by apply Qfloor_resp_le).
    lia.
Qed.

Lemma init_wavelength_at_least_one_witness :
  let rp := (Ripple.init pond_conf 5 5 (λ _, 0%Q) 0).1 in
  Ripple.iWave rp = Ripple.wavelength rp
  ∧ 1 ≤ Ripple.wavelength rp
  ∧ ((0 <= Conf.wavelength pond_conf)%Q →
       Ripple.wavelength rp = 1 + Qfloor (Conf.wavelength pond_conf))
  ∧ ((Conf.wavelength pond_conf < 0)%Q →
       Ripple.wavelength rp ≤ 1 + Qfloor (- Conf.wavelength pond_conf)).
Proof.
  refine (init_wavelength_at_least_one pond_conf 5 5 (λ _, 0%Q) 0 unit_draws_zero _ _);
    reflexivity.
Defined.

(** X11.  With random draws in [[0,1)], the peak magnitude of a fresh
    ripple is the magnitude parameter [p] itself when [p >= 0], and a
    number of [[0, -p)] when [p < 0]. *)
Theorem init_magnitude_range
    (conf : Conf.t) (rows cols : Z) (rnd : nat → Q) (k : nat) :
  unit_draws rnd →
  let rp := (Ripple.init conf rows cols rnd k).1 in
  ((0 <= Conf.magnitude conf)%Q → Ripple.mag rp = Q2R (Conf.magnitude conf))
  ∧ ((Conf.magnitude conf < 0)%Q →
       (0 <= Ripple.mag rp)%R ∧ (Ripple.mag rp < Q2R (- Conf.magnitude conf))%R).
Proof.
  intros Hrnd rp.
  destruct (init_fields conf rows cols rnd k) as (w & fr & fc & m & Hrp & _ & _ & _ & Hm).
  unfold rp. rewrite Hrp. cbn [Ripple.mag]. split.
  - intros Hp. destruct Hm as [[_ ->]|[Hneg _]]; [done|lra].
  - intros Hp. destruct Hm as [[H0 _]|[_ [j ->]]]; [lra|].
    destruct (Hrnd j) as [Hj0 Hj1]. split.
    + replace 0%R with (Q2R 0) by (unfold Q2R; cbn; lra). apply Qle_Rle. nra.
    + apply Qlt_Rlt. nra.
Qed.

Lemma init_magnitude_range_witness :
  let rp := (Ripple.init pond_conf 5 5 (λ _, 0%Q) 0).1 in
  ((0 <= Conf.magnitude pond_conf)%Q → Ripple.mag rp = Q2R (Conf.magnitude pond_conf))
  ∧ ((Conf.magnitude pond_conf < 0)%Q →
       (0 <= Ripple.mag rp)%R ∧ (Ripple.mag rp < Q2R (- Conf.magnitude pond_conf))%R).
Proof. exact (init_magnitude_range pond_conf 5 5 (λ _, 0%Q) 0 unit_draws_zero). Defined.

(** ** modelStep as a whole-grid update *)

(** X12.  On complete buffers [modelStep] succeeds and is a synchronous
    update: every cell's new velocity and magnitude are computed from the
    values that all cells had at the start of the step, the force buffer
    is cleared, the old current velocity and magnitude buffers become the
    spare ones, and nothing but the five buffers changes. *)
Theorem modelStep_synchronous_update (this : WaveModel.t) :
  buffers_shaped this →
  ∃ st', WaveModel.modelStep this = Ok st'
    ∧ (∀ r c, 0 ≤ r < WaveModel.rows this → 0 ≤ c < WaveModel.cols this →
         cell (WaveModel.F st') r c = Some 0%R
         ∧ cell (WaveModel.V st') r c = Some (next_velocity this r c)
         ∧ cell (WaveModel.M st') r c
           = Some (val (WaveModel.M this) r c + next_velocity this r c)%R)
    ∧ WaveModel.V_ st' = WaveModel.V this
    ∧ WaveModel.M_ st' = WaveModel.M this
    ∧ buffers_shaped st'
    ∧ st' = WaveModel.set_grids this (WaveModel.F st') (WaveModel.V st')
              (WaveModel.V_ st') (WaveModel.M st') (WaveModel.M_ st').
Proof.
  intros Hshape. destruct (modelStep_cells this Hshape) as (b & Hstep & Hcells).
  eexists. split; [exact Hstep|]. cbn. split; [exact Hcells|].
  split; [done|]. split; [done|]. split; [|done].
  destruct Hshape as (_ & HV & _ & HM & _).
  unfold buffers_shaped. cbn. repeat split; try done.
  - intros r c Hr Hc. destruct (Hcells r c Hr Hc) as (-> & _). eauto.
  - intros r c Hr Hc. destruct (Hcells r c Hr Hc) as (_ & -> & _). eauto.
  - intros r c Hr Hc. destruct (Hcells r c Hr Hc) as (_ & _ & ->). eauto.
Qed.

Lemma modelStep_synchronous_update_witness :
  ∃ st', WaveModel.modelStep moving_1x1 = Ok st'
    ∧ (∀ r c, 0 ≤ r < 1 → 0 ≤ c < 1 →
         cell (WaveModel.F st') r c = Some 0%R
         ∧ cell (WaveModel.V st') r c = Some (next_velocity moving_1x1 r c)
         ∧ cell (WaveModel.M st') r c
           = Some (val (WaveModel.M moving_1x1) r c + next_velocity moving_1x1 r c)%R)
    ∧ WaveModel.V_ st' = WaveModel.V moving_1x1
    ∧ WaveModel.M_ st' = WaveModel.M moving_1x1
    ∧ buffers_shaped st'
    ∧ st' = WaveModel.set_grids moving_1x1 (WaveModel.F st') (WaveModel.V st')
              (WaveModel.V_ st') (WaveModel.M st') (WaveModel.M_ st').
Proof. exact (modelStep_synchronous_update moving_1x1 moving_1x1_shaped). Defined.

Lemma for_loop_skip {S : Type} (n : Z) (body : Z → S → jsres S) (s : S) :
  (∀ i s0, body i s0 = Ok s0) → for_loop n body s = Ok s.
Proof.
  intros Hbody. unfold for_loop. generalize (seqZ 0 n). intros l.
  induction l as [|x l IH] using rev_ind; [done|].
  rewrite foldl_app. cbn. rewrite IH. cbn. apply Hbody.
Qed.

(** X13.  With no row or no column to visit, [modelStep] only exchanges
    the buffers, whatever they hold: it reads and writes no cell. *)
Theorem modelStep_empty_grid (this : WaveModel.t) :
  WaveModel.rows this ≤ 0 ∨ WaveModel.cols this ≤ 0 →
  WaveModel.modelStep this
  = Ok (WaveModel.set_grids this (WaveModel.F this) (WaveModel.V_ this)
          (WaveModel.V this) (WaveModel.M_ this) (WaveModel.M this)).
Proof.
  intros H. unfold WaveModel.modelStep.
  assert (Hloop : for_loop (WaveModel.rows this)
            (λ r b, for_loop (WaveModel.cols this)
               (λ c b', WaveModel.cellStep this
                  (WaveModel.getterFactory this WaveModel.M 0%R) r c b') b)
            {| WaveModel.bF := WaveModel.F this; WaveModel.bV_ := WaveModel.V_ this;
               WaveModel.bM_ := WaveModel.M_ this |}
          = Ok {| WaveModel.bF := WaveModel.F this; WaveModel.bV_ := WaveModel.V_ this;
                  WaveModel.bM_ := WaveModel.M_ this |}).
  { destruct H as [Hr|Hc].
    - unfold for_loop at 1. by rewrite seqZ_nil by lia.
    - apply for_loop_skip. intros r b.
      unfold for_loop. by rewrite seqZ_nil by lia. }
  rewrite Hloop. done.
Qed.

Lemma modelStep_empty_grid_witness :
  let empty :=
    {| WaveModel.rows := 0; WaveModel.cols := 3; WaveModel.conf := damped_conf;
       WaveModel.F := ∅; WaveModel.V := one_cell 1; WaveModel.V_ := ∅;
       WaveModel.M := ∅; WaveModel.M_ := ∅;
       WaveModel.ripples := Arr0; WaveModel.ripples_ := Arr1;
       WaveModel.nRipples := 0; WaveModel.ripplesToGen := 0;
       WaveModel.array0 := ∅; WaveModel.array1 := ∅;
       WaveModel.objs := ∅; WaveModel.nextId := O;
       WaveModel.Math_random := λ _, 0%Q; WaveModel.nRandom := O |} in
  WaveModel.modelStep empty
  = Ok (WaveModel.set_grids empty (WaveModel.F empty) (WaveModel.V_ empty)
          (WaveModel.V empty) (WaveModel.M_ empty) (WaveModel.M empty)).
Proof. intros empty. apply (modelStep_empty_grid empty). left. cbn. lia. Defined.

(** ** What a cell's neighbours are *)


(** ** Finite speed of propagation *)







(** ** Superposition *)






(** ** genForces: the spawn quota *)



(** ** genForces: what a successful call keeps *)

Lemma for_loop_preserves {S : Type} (P : S → Prop) (n : Z) (body : Z → S → jsres S)
    (s s' : S) :
  P s →
  (∀ i s0 s1, P s0 → body i s0 = Ok s1 → P s1) →
  for_loop n body s = Ok s' → P s'.
Proof.
  intros H0 Hstep. unfold for_loop. generalize (seqZ 0 n). intros l. revert s'.
  induction l as [|x l IH] using rev_ind; intros s' H.
  - cbn in H. by inversion H; subst.
  - rewrite foldl_app in H. cbn in H.
    destruct (foldl _ (Ok s) l) as [s0|] eqn:Hl; [|done].
    cbn in H. eapply Hstep; [|exact H]. by apply IH.
Qed.

Lemma applyRipple_inv (src dst : aref) (i j j' : Z) (st st' : WaveModel.t) :
  WaveModel.applyRipple src dst i (j, st) = Ok (j', st') →
  ∃ id rp b rp' F',
    WaveModel.deref src st !! i = Some id
    ∧ WaveModel.objs st !! id = Some rp
    ∧ Ripple.applyForce rp (WaveModel.F st) = Ok (b, rp', F')
    ∧ WaveModel.objs st' = <[id := rp']> (WaveModel.objs st)
    ∧ WaveModel.F st' = F'
    ∧ fixed_part st' = fixed_part st
    ∧ counters st' = counters st
    ∧ WaveModel.ripples st' = WaveModel.ripples st
    ∧ WaveModel.ripples_ st' = WaveModel.ripples_ st.
Proof.
  unfold WaveModel.applyRipple, WaveModel.applyForce.
  destruct (WaveModel.deref src st !! i) as [id|] eqn:Hid; [|done].
  destruct (WaveModel.objs st !! id) as [rp|] eqn:Hrp; [|done].
  destruct (Ripple.applyForce rp (WaveModel.F st)) as [[[b rp'] F']|] eqn:Happ; [|done].
  cbn [mbind jsres_bind]. intros H. exists id, rp, b, rp', F'.
  destruct b; inversion H; subst; done.
Qed.

Lemma genForces_inv (this st' : WaveModel.t) :
  WaveModel.genForces this = Ok st' →
  ∃ n2 st2 j st3,
    WaveModel.spawnRipples this = Some (n2, st2)
    ∧ for_loop n2 (WaveModel.applyRipple (WaveModel.ripples this) (WaveModel.ripples_ this))
        (0, st2) = Ok (j, st3)
    ∧ WaveModel.objs st' = WaveModel.objs st3
    ∧ WaveModel.F st' = WaveModel.F st3
    ∧ fixed_part st' = fixed_part st3
    ∧ counters st' = counters st3
    ∧ WaveModel.nRipples st' = j
    ∧ WaveModel.ripples st' = WaveModel.ripples_ this
    ∧ WaveModel.ripples_ st' = WaveModel.ripples_ this.
Proof.
  unfold WaveModel.genForces.
  destruct (WaveModel.spawnRipples this) as [[n2 st2]|]; [|done].
  destruct (for_loop n2 _ (0, st2)) as [[j st3]|] eqn:Hloop; [|done].
  cbn [mbind jsres_bind]. intros H. inversion H; subst.
  exists n2, st2, j, st3. done.
Qed.

(** X17.  A successful [genForces] call changes neither the dimensions
    nor the configuration nor the velocity and magnitude buffers; it
    leaves both ripple fields on the array that [ripples_] referred to
    before the call (the two arrays are not exchanged), and a spawn quota
    below 1. *)
Theorem genForces_keeps_model_and_shares_array (this st' : WaveModel.t) :
  WaveModel.genForces this = Ok st' →
  fixed_part st' = fixed_part this
  ∧ WaveModel.ripples st' = WaveModel.ripples_ this
  ∧ WaveModel.ripples_ st' = WaveModel.ripples_ this
  ∧ (WaveModel.ripplesToGen st' < 1)%Q.
Proof.
  intros H. apply genForces_inv in H
    as (n2 & st2 & j & st3 & Hspawn & Hloop & _ & _ & Hfix & Hcnt & _ & Hr & Hr').
  destruct (spawnRipples_appends this) as (news & st2' & Hspawn' & _ & _ & _ & _ & _ & _ & Hfix2 & Hq2).
  rewrite Hspawn in Hspawn'. inversion Hspawn'; subst st2'.
  destruct (for_loop_preserves
    (λ s : Z * WaveModel.t, fixed_part s.2 = fixed_part st2 ∧ counters s.2 = counters st2)
    n2 (WaveModel.applyRipple (WaveModel.ripples this) (WaveModel.ripples_ this))
    (0, st2) (j, st3)) as [Hfix3 Hcnt3]; [done| |exact Hloop|].
  { intros i [j0 s0] [j1 s1] [Hf Hc] Hbody. cbn [snd] in *.
    apply applyRipple_inv in Hbody
      as (id & rp & b & rp' & F' & _ & _ & _ & _ & _ & Hf1 & Hc1 & _).
    split; congruence. }
  cbn [snd] in *. split; [congruence|]. split; [done|]. split; [done|].
  apply counters_eq in Hcnt as (_ & _ & ->). apply counters_eq in Hcnt3 as (_ & _ & ->).
  done.
Qed.

Lemma two_ripples_genForces :
  ∃ st', WaveModel.genForces two_ripples = Ok st'.
Proof. destruct genForces_on_shared_array as (st' & H & _). eauto. Qed.

Lemma genForces_keeps_model_and_shares_array_witness :
  ∃ st', WaveModel.genForces two_ripples = Ok st'
    ∧ fixed_part st' = fixed_part two_ripples
    ∧ WaveModel.ripples st' = WaveModel.ripples_ two_ripples
    ∧ WaveModel.ripples_ st' = WaveModel.ripples_ two_ripples
    ∧ (WaveModel.ripplesToGen st' < 1)%Q.
Proof.
  destruct two_ripples_genForces as [st' H]. exists st'. split; [exact H|].
  exact (genForces_keeps_model_and_shares_array two_ripples st' H).
Defined.

(** ** genForces: where the force buffer is written *)

Lemma applyForce_keeps_column (rp rp' : Ripple.t) (F F' : grid) (b : bool) :
  Ripple.applyForce rp F = Ok (b, rp', F') → Ripple.c rp' = Ripple.c rp.
Proof.
  unfold Ripple.applyForce. destruct (Ripple.wavelength rp =? 0); [done|].
  destruct (write2 _ _ _ _); [|done]. cbn. intros H. by inversion H.
Qed.

Lemma applyRipple_written (F0 : grid) (src dst : aref) (i : Z) (s0 s1 : Z * WaveModel.t) :
  written_by_ripples F0 s0 →
  WaveModel.applyRipple src dst i s0 = Ok s1 →
  written_by_ripples F0 s1.
Proof.
  destruct s0 as [j0 st0], s1 as [j1 st1]. intros Hw Hbody r c.
  unfold written_by_ripples in Hw.
  apply applyRipple_inv in Hbody
    as (id & rp & b & rp' & F' & _ & Hrp & Happ & Hobjs & HF & _).
  pose proof (applyForce_keeps_column _ _ _ _ _ Happ) as Hc'.
  apply applyForce_inv in Happ as (_ & Hwrite & _ & _ & _ & Hr').
  cbn [snd] in *. rewrite Hobjs, HF.
  destruct (decide ((Ripple.r rp, Ripple.c rp) = (r, c))) as [Heq|Hne].
  - right. exists id, rp'. rewrite lookup_insert_eq. split; [done|]. congruence.
  - rewrite (cell_write2_ne _ _ _ _ _ r c Hwrite Hne).
    destruct (Hw r c) as [Hsame|(id0 & rp0 & Hrp0 & Hpos0)]; [by left|]. right.
    destruct (decide (id0 = id)) as [->|Hid].
    + rewrite Hrp in Hrp0. inversion Hrp0; subst rp0. done.
    + exists id0, rp0. by rewrite lookup_insert_ne.
Qed.

(** What a successful call keeps across its loop, measured from the
    store that spawning leaves. *)
Lemma genForces_across_loop (this st' : WaveModel.t) :
  WaveModel.genForces this = Ok st' →
  ∃ (news : list rid) st2,
    WaveModel.spawnRipples this
      = Some (WaveModel.nRipples this + Z.of_nat (length news), st2)
    ∧ WaveModel.F st2 = WaveModel.F this
    ∧ fixed_part st2 = fixed_part this
    ∧ (WaveModel.ripplesToGen st2 < 1)%Q
    ∧ fixed_part st' = fixed_part st2
    ∧ counters st' = counters st2
    ∧ written_by_ripples (WaveModel.F this) (0, st').
Proof.
  intros H. apply genForces_inv in H
    as (n2 & st2 & j & st3 & Hspawn & Hloop & Ho & HF & Hfix & Hcnt & _).
  destruct (spawnRipples_appends this)
    as (news & st2' & Hspawn' & _ & _ & _ & _ & _ & HF2 & Hfix2 & Hq2).
  rewrite Hspawn in Hspawn'. inversion Hspawn'; subst st2' n2.
  exists news, st2. rewrite Hspawn.
  destruct (for_loop_preserves
    (λ s : Z * WaveModel.t,
       (fixed_part s.2 = fixed_part st2 ∧ counters s.2 = counters st2)
       ∧ written_by_ripples (WaveModel.F this) s)
    (WaveModel.nRipples this + Z.of_nat (length news))
    (WaveModel.applyRipple (WaveModel.ripples this) (WaveModel.ripples_ this))
    (0, st2) (j, st3)) as [[Hfix3 Hcnt3] Hw3]; [| |exact Hloop|].
  { split; [done|]. intros r c. left. cbn. by rewrite HF2. }
  { intros i [j0 s0] [j1 s1] [[Hf Hc] Hw] Hbody. split.
    - apply applyRipple_inv in Hbody
        as (id & rp & b & rp' & F' & _ & _ & _ & _ & _ & Hf1 & Hc1 & _).
      cbn [snd] in *. split; congruence.
    - by apply (applyRipple_written _ _ _ _ _ _ Hw Hbody). }
  cbn [snd] in *. repeat split; try done; try congruence.
  intros r c. cbn [snd]. rewrite Ho, HF. exact (Hw3 r c).
Qed.


(** X19.  After a successful [genForces] call on a model whose rate is
    not positive there is nothing left to spawn: the quota is below 1 and
    stays untouched, and the spawning half of any later call creates no
    ripple. *)
Theorem genForces_spawns_once_for_nonpositive_rate (this st' : WaveModel.t) :
  (Conf.ripples (WaveModel.conf this) <= 0)%Q →
  WaveModel.genForces this = Ok st' →
  idle st' ∧ WaveModel.spawnRipples st' = Some (WaveModel.nRipples st', st').
Proof.
  intros Hrate H.
  apply genForces_across_loop in H
    as (news & st2 & _ & _ & Hfix2 & Hq2 & Hfix & Hcnt & _).
  apply fixed_part_eq in Hfix as (_ & _ & Hconf & _).
  apply fixed_part_eq in Hfix2 as (_ & _ & Hconf2 & _).
  apply counters_eq in Hcnt as (_ & _ & Hq).
  assert (Hidle : idle st').
  { split; [by rewrite Hconf, Hconf2|by rewrite Hq]. }
  split; [done|]. destruct Hidle. by apply spawnRipples_idle.
Qed.

Lemma still_2x1_genForces :
  ∃ st', WaveModel.genForces still_2x1 = Ok st' ∧ WaveModel.objs st' = ∅.
Proof.
  assert (Hspawn : WaveModel.spawnRipples still_2x1
                   = Some (Z.of_nat (length (@nil rid)), still_2x1)).
  { apply (spawnRipples_idle still_2x1); cbn; lra. }
  destruct (genForces_after_spawn still_2x1 still_2x1 [] [] _ _ Hspawn
              (holds_nil _ _) eq_refl) as (st' & Hgen & Ho & _).
  exists st'. done.
Qed.


Lemma still_2x1_rate : (Conf.ripples (WaveModel.conf still_2x1) <= 0)%Q.
Proof. cbn. lra. Defined.

Lemma genForces_spawns_once_for_nonpositive_rate_witness :
  ∃ st', WaveModel.genForces still_2x1 = Ok st'
    ∧ idle st' ∧ WaveModel.spawnRipples st' = Some (WaveModel.nRipples st', st').
Proof.
  destruct still_2x1_genForces as (st' & Hgen & _). exists st'.
  split; [exact Hgen|].
  exact (genForces_spawns_once_for_nonpositive_rate still_2x1 st' still_2x1_rate Hgen).
Defined.

(** ** A ripple's life in the active set *)

Lemma active_one_holds (this : WaveModel.t) (id : rid) :
  active this = Some [id] →
  WaveModel.nRipples this = 1
  ∧ holds (WaveModel.deref (WaveModel.ripples this) this) 0 [id].
Proof.
  intros H. destruct (decide (0 ≤ WaveModel.nRipples this)) as [Hn|Hn].
  - apply active_holds in H as [Hlen Hh]; [|done]. cbn in Hlen. split; [lia|done].
  - unfold active in H. rewrite seqZ_nil in H by lia. cbn in H. done.
Qed.

(** One call on an idle model with one active ripple. *)
Lemma genForces_single (this : WaveModel.t) (id : rid) (rp : Ripple.t) :
  idle this →
  active this = Some [id] →
  WaveModel.objs this !! id = Some rp →
  Ripple.wavelength rp ≠ 0 →
  is_Some (WaveModel.F this !! Ripple.r rp) →
  ∃ st', WaveModel.genForces this = Ok st'
    ∧ idle st'
    ∧ WaveModel.objs st' !! id = Some (ticked rp)
    ∧ is_Some (WaveModel.F st' !! Ripple.r rp)
    ∧ active st' = Some (if decide (Ripple.iWave rp - 1 = 0) then [] else [id]).
Proof.
  intros [Hrate Hq] Hact Hrp Hw Hrow.
  apply active_one_holds in Hact as [HnR Hh].
  destruct (applyForce_ok rp (WaveModel.F this) Hw Hrow) as (F1 & HF1 & Happ).
  fold (ticked rp) in Happ.
  assert (Hrun : apply_all [id] (WaveModel.objs this) (WaveModel.F this)
                 = Ok (if negb (Ripple.iWave rp - 1 =? 0) then [id] else [],
                       <[id := ticked rp]> (WaveModel.objs this), F1)).
  { cbn [apply_all]. rewrite Hrp, Happ. cbn [mbind jsres_bind]. done. }
  pose proof (spawnRipples_idle this Hrate Hq) as Hspawn. rewrite HnR in Hspawn.
  destruct (genForces_after_spawn this this [id] _ _ _ Hspawn Hh Hrun)
    as (st' & Hgen & Ho & HF & Hact' & _ & _ & _ & _ & Hfix & Hcnt).
  exists st'. split; [done|].
  apply fixed_part_eq in Hfix as (_ & _ & Hconf & _).
  apply counters_eq in Hcnt as (_ & _ & Hq').
  split; [split; [by rewrite Hconf|by rewrite Hq']|].
  split; [by rewrite Ho, lookup_insert_eq|].
  split; [rewrite HF; by apply (row_write2 _ _ _ _ _ _ HF1)|].
  rewrite Hact'. destruct (Ripple.iWave rp - 1 =? 0) eqn:E; cbn.
  - rewrite decide_True; [done|lia].
  - rewrite decide_False; [done|lia].
Qed.

Lemma gens_single (k : nat) : ∀ (this : WaveModel.t) (id : rid) (rp : Ripple.t),
  idle this →
  active this = Some [id] →
  WaveModel.objs this !! id = Some rp →
  Ripple.wavelength rp ≠ 0 →
  is_Some (WaveModel.F this !! Ripple.r rp) →
  1 ≤ Ripple.iWave rp →
  Z.of_nat k ≤ Ripple.iWave rp →
  ∃ st', gens k this = Ok st'
    ∧ active st' = Some (if decide (Z.of_nat k = Ripple.iWave rp) then [] else [id]).
Proof.
  induction k as [|k IH]; intros this id rp Hidle Hact Hrp Hw Hrow Hi Hk.
  - exists this. split; [done|]. rewrite decide_False; [done|lia].
  - destruct (genForces_single this id rp Hidle Hact Hrp Hw Hrow)
      as (st1 & Hgen & Hidle1 & Hrp1 & Hrow1 & Hact1).
    cbn [gens]. rewrite Hgen. cbn [mbind jsres_bind].
    destruct (decide (Ripple.iWave rp - 1 = 0)) as [H1|H1].
    + assert (k = O) as -> by lia. exists st1. split; [done|].
      rewrite Hact1. rewrite decide_True; [done|lia].
    + destruct (IH st1 id (ticked rp) Hidle1 Hact1 Hrp1 Hw Hrow1) as (st' & Hg & Ha);
        [cbn; lia|cbn; lia|].
      exists st'. split; [done|]. rewrite Ha. cbn [ticked Ripple.iWave].
      destruct (decide (Z.of_nat k = Ripple.iWave rp - 1)).
      * rewrite decide_True; [done|lia].
      * rewrite decide_False; [done|lia].
Qed.

(** X20.  On a model with nothing to spawn, a ripple of wavelength
    [w >= 1] that is the one active ripple, with all its ticks remaining,
    is still the active set after each of the first [w - 1] calls of
    [genForces], and the active set is empty after call [w]. *)
Theorem ripple_leaves_active_set_after_its_wavelength
    (this : WaveModel.t) (id : rid) (rp : Ripple.t) (w : Z) (k : nat) :
  idle this →
  active this = Some [id] →
  WaveModel.objs this !! id = Some rp →
  Ripple.wavelength rp = w → Ripple.iWave rp = w → 1 ≤ w →
  is_Some (WaveModel.F this !! Ripple.r rp) →
  Z.of_nat k ≤ w →
  ∃ st', gens k this = Ok st'
    ∧ active st' = Some (if decide (Z.of_nat k = w) then [] else [id]).
Proof.
  intros Hidle Hact Hrp Hw Hi H1 Hrow Hk.
  destruct (gens_single k this id rp Hidle Hact Hrp) as (st' & Hg & Ha);
    [lia|done|lia|lia|].
  exists st'. by rewrite <- Hi.
Qed.

Lemma one_ripple_2x1_idle : idle one_ripple_2x1.
Proof. split; cbn; lra. Defined.

Lemma ripple_leaves_active_set_after_its_wavelength_witness :
  ∃ st', gens 5 one_ripple_2x1 = Ok st'
    ∧ active st' = Some (if decide (Z.of_nat 5 = 5) then [] else [0%nat]).
Proof.
  refine (ripple_leaves_active_set_after_its_wavelength one_ripple_2x1 0%nat ripple_w5 5 5
            one_ripple_2x1_idle _ _ _ _ _ _ _).
  - reflexivity.
  - reflexivity.
  - reflexivity.
  - reflexivity.
  - lia.
  - exact zeros_2x1_row0.
  - lia.
Defined.

(** ** A ripple spawned on the row fraction 1 *)

Lemma foldl_err {S : Type} (body : Z → S → jsres S) (e : jserr) (l : list Z) :
  foldl (λ acc i, s' ← acc; body i s') (Err e) l = Err e.
Proof. induction l as [|x l IH]; [done|]. cbn. exact IH. Qed.

Lemma for_loop_first_error {S : Type} (n : Z) (body : Z → S → jsres S) (s : S) (e : jserr) :
  1 ≤ n → body 0 s = Err e → for_loop n body s = Err e.
Proof.
  intros Hn H. unfold for_loop.
  replace n with (Z.succ (Z.pred n)) by lia. rewrite seqZ_cons by lia.
  cbn. rewrite H. apply foldl_err.
Qed.

Lemma numArray2D_no_row (rows cols : Z) (val : option R) (g : grid) (r : Z) :
  Utils.numArray2D rows cols val = Ok g → r < 0 ∨ rows ≤ r → g !! r = None.
Proof.
  unfold Utils.numArray2D, Utils.Array.
  destruct ((0 <=? rows) && (rows <? 2 ^ 32)); [|done]. cbn [mbind jsres_bind].
  destruct (seqZ 0 rows) as [|k0 ks] eqn:Hkeys.
  - intros [= <-] _. apply lookup_empty.
  - destruct (Utils.numArray cols val) as [row|]; [|done]. cbn [mbind jsres_bind].
    intros [= <-] Hr. apply (const_map_lookup_None (k0 :: ks)).
    rewrite <- Hkeys, elem_of_seqZ. lia.
Qed.

Lemma init_wavelength_ge1 (conf : Conf.t) (rows cols : Z) (rnd : nat → Q) (k : nat) :
  unit_draws rnd →
  (- inject_Z (2 ^ 31) < Conf.wavelength conf)%Q →
  (Conf.wavelength conf < inject_Z (2 ^ 31))%Q →
  1 ≤ Ripple.wavelength (Ripple.init conf rows cols rnd k).1.
Proof.
  intros Hrnd Hlo Hhi.
  destruct (init_fields conf rows cols rnd k) as (w & fr & fc & m & Hrp & Hw & _).
  rewrite Hrp. cbn [Ripple.wavelength].
  assert (Hin : in_int32 w).
  { destruct Hw as [[H0 ->]|[Hneg [j ->]]]; [by split|].
    destruct (Hrnd j) as [Hj0 Hj1]. split; nra. }
  rewrite (toInt32_floor w Hin). destruct Hin as [H0 H1].
  assert (0 ≤ Qfloor w) by (apply (Qfloor_between w 0 (2 ^ 31)); [exact H0|exact H1]).
  lia.
Qed.

Lemma init_row_at_fraction_one (conf : Conf.t) (rows cols : Z) (rnd : nat → Q) (k : nat) :
  Conf.spawnRow conf = Some 1%Q → 0 < rows < 2 ^ 31 →
  Ripple.r (Ripple.init conf rows cols rnd k).1 = rows.
Proof.
  intros Hrow Hrows.
  destruct (init_fields conf rows cols rnd k) as (w & fr & fc & m & Hrp & _ & Hr & _).
  rewrite Hrp. cbn [Ripple.r].
  destruct Hr as [Hr|[Hr _]]; [|congruence].
  rewrite Hrow in Hr. inversion Hr; subst fr.
  assert (Hq : (1 * inject_Z rows == inject_Z rows)%Q) by lra.
  rewrite toInt32_floor.
  - assert (rows ≤ Qfloor (1 * inject_Z rows) < rows + 1); [|lia].
    apply Qfloor_between; [lra|]. rewrite inject_Z_plus. change (inject_Z 1) with 1%Q. lra.
  - split.
    + rewrite Hq. change 0%Q with (inject_Z 0). rewrite <- Zle_Qle. lia.
    + rewrite Hq. rewrite <- Zlt_Qlt. lia.
Qed.

(** X21.  A spawn row fraction of exactly 1 puts the ripple on row
    [rows], one past the last row: on a freshly constructed model whose
    first [genForces] call has a ripple to spawn, that call throws a
    TypeError when it applies the ripple. *)
Theorem genForces_throws_for_spawn_row_one
    (rows cols : Z) (conf : Conf.t) (rnd : nat → Q) (this : WaveModel.t) :
  WaveModel.new rows cols conf rnd = Ok this →
  0 < rows < 2 ^ 31 →
  Conf.spawnRow conf = Some 1%Q →
  unit_draws rnd →
  (- inject_Z (2 ^ 31) < Conf.wavelength conf)%Q →
  (Conf.wavelength conf < inject_Z (2 ^ 31))%Q →
  (1 <= topped_up this)%Q →
  WaveModel.genForces this = Err TypeError.
Proof.
  intros Hnew Hrows Hrow Hrnd Hlo Hhi Hq.
  unfold WaveModel.new in Hnew.
  destruct (Utils.numArray2D rows cols None) as [g|] eqn:Hg; [|done].
  cbn [mbind jsres_bind] in Hnew. injection Hnew as Hthis.
  assert (HF : WaveModel.F this = g) by (by rewrite <- Hthis).
  assert (Hconf : WaveModel.conf this = conf) by (by rewrite <- Hthis).
  assert (Hrs : WaveModel.rows this = rows) by (by rewrite <- Hthis).
  assert (Hsrc : WaveModel.ripples this = Arr0) by (by rewrite <- Hthis).
  assert (HnR : WaveModel.nRipples this = 0) by (by rewrite <- Hthis).
  assert (Hnext : WaveModel.nextId this = O) by (by rewrite <- Hthis).
  assert (Hrand : WaveModel.Math_random this = rnd) by (by rewrite <- Hthis).
  clear Hthis.
  unfold WaveModel.genForces, WaveModel.spawnRipples. cbv zeta.
  set (this1 := if Qlt_le_dec 0 (Conf.ripples (WaveModel.conf this))
                then WaveModel.set_ripples this (WaveModel.ripples this)
                       (WaveModel.ripples_ this) (WaveModel.nRipples this)
                       (WaveModel.ripplesToGen this + Conf.ripples (WaveModel.conf this))%Q
                else this).
  assert (H1 : WaveModel.ripplesToGen this1 = topped_up this
               ∧ WaveModel.F this1 = g ∧ WaveModel.conf this1 = conf
               ∧ WaveModel.rows this1 = rows ∧ WaveModel.nextId this1 = O
               ∧ WaveModel.Math_random this1 = rnd).
  { unfold this1, topped_up.
    by destruct (Qlt_le_dec 0 (Conf.ripples (WaveModel.conf this))). }
  destruct H1 as (Hq1 & HF1 & Hconf1 & Hrs1 & Hnext1 & Hrand1). rewrite Hq1, Hsrc, HnR.
  assert (Hfl : 1 ≤ Qfloor (topped_up this)).
  { apply (Qfloor_between _ 1 (Qfloor (topped_up this) + 1)); [exact Hq|apply Qlt_floor]. }
  destruct (Z.to_nat (Qfloor (topped_up this))) as [|fuel] eqn:Hfuel; [lia|].
  cbn [WaveModel.spawnLoop]. rewrite Hq1.
  assert (E : Qle_bool 1 (topped_up this) = true) by (by apply Qle_bool_iff).
  rewrite E. unfold WaveModel.newRipple. rewrite Hconf1, Hrs1, Hnext1.
  pose proof (init_row_at_fraction_one conf rows (WaveModel.cols this1)
                (WaveModel.Math_random this1) (WaveModel.nRandom this1) Hrow Hrows) as Hr0.
  pose proof (init_wavelength_ge1 conf rows (WaveModel.cols this1)
                (WaveModel.Math_random this1) (WaveModel.nRandom this1)) as Hw0.
  destruct (Ripple.init conf rows _ _ _) as [rp k]. cbn [fst] in Hr0, Hw0.
  set (st3 := WaveModel.set_ripples _ _ _ _ _).
  destruct (spawnLoop_appends fuel Arr0 (0 + 1) st3)
    as (news & st2 & Hloop & _ & _ & Harr & Hobjs & _ & _ & HF2 & _).
  { subst st3. cbn [WaveModel.ripplesToGen WaveModel.set_ripples WaveModel.store
                    WaveModel.set_objs]. rewrite Hq1.
    pose proof (Qlt_floor (topped_up this)) as Hlt.
    assert (Hf : Qfloor (topped_up this) = Z.of_nat fuel + 1) by lia.
    rewrite Hf, !inject_Z_plus in Hlt. change (inject_Z 1) with 1%Q in Hlt. lra. }
  rewrite Hloop.
  assert (Hthrow : for_loop (0 + 1 + Z.of_nat (length news))
            (WaveModel.applyRipple Arr0 (WaveModel.ripples_ this)) (0, st2)
          = Err TypeError); [|by rewrite Hthrow].
  apply for_loop_first_error; [lia|].
  unfold WaveModel.applyRipple, WaveModel.applyForce.
  rewrite Harr by (right; lia). subst st3.
  rewrite deref_set_ripples, deref_store, decide_True by done.
  rewrite Hobjs by (cbn; lia). cbn [WaveModel.objs WaveModel.set_ripples WaveModel.store
                                    WaveModel.set_objs].
  rewrite lookup_insert_eq, HF2.
  cbn [WaveModel.F WaveModel.set_ripples WaveModel.store WaveModel.set_objs]. rewrite HF1.
  unfold Ripple.applyForce. destruct (Ripple.wavelength rp =? 0) eqn:Ew.
  { rewrite Hrand1 in Hw0. specialize (Hw0 Hrnd Hlo Hhi). lia. }
  unfold write2. rewrite Hr0, (numArray2D_no_row _ _ _ _ rows Hg) by lia. done.
Qed.

Lemma edge_model :
  ∃ this, WaveModel.new 5 5 edge_conf (λ _, 0%Q) = Ok this ∧ (1 <= topped_up this)%Q.
Proof.
  destruct (new_zero 5 5 edge_conf (λ _, 0%Q)) as (f & v & v' & m & m' & Hnew & _);
    [lia|lia|].
  eexists. split; [exact Hnew|]. vm_compute. discriminate.
Qed.

Lemma genForces_throws_for_spawn_row_one_witness :
  ∃ this, WaveModel.new 5 5 edge_conf (λ _, 0%Q) = Ok this
    ∧ WaveModel.genForces this = Err TypeError.
Proof.
  destruct edge_model as (this & Hnew & Hq). exists this. split; [exact Hnew|].
  refine (genForces_throws_for_spawn_row_one 5 5 edge_conf (λ _, 0%Q) this Hnew
            _ eq_refl unit_draws_zero _ _ Hq).
  - lia.
  - reflexivity.
  - reflexivity.
Defined.

(** ** The torus accessor on non-negative positions *)

(** X22.  In torus mode, on a buffer that has all its cells, the
    accessor wraps every non-negative position by the mathematical
    modulus: it returns the cell at [(r mod rows, c mod cols)]; so
    [get(rows, c)] is [get(0, c)] and [get(r, cols)] is [get(r, 0)]. *)
Theorem torus_getter_wraps_nonnegative
    (this : WaveModel.t) (prop : WaveModel.t → grid) (d : R) (r c : Z) :
  Conf.isTorus (WaveModel.conf this) = true →
  shaped (prop this) (WaveModel.rows this) (WaveModel.cols this) →
  0 < WaveModel.rows this → 0 < WaveModel.cols this →
  0 ≤ r → 0 ≤ c →
  let get := WaveModel.getterFactory this prop d in
  get r c = Ok (val (prop this) (r mod WaveModel.rows this) (c mod WaveModel.cols this))
  ∧ get (r + WaveModel.rows this) c = get r c
  ∧ get r (c + WaveModel.cols this) = get r c.
Proof.
  intros HT Hshape Hrows Hcols Hr Hc get.
  assert (Hget : ∀ r' c', 0 ≤ r' → 0 ≤ c' →
     get r' c' = Ok (val (prop this) (r' mod WaveModel.rows this)
                       (c' mod WaveModel.cols this))).
  { intros r' c' Hr' Hc'. unfold get, WaveModel.getterFactory. rewrite HT.
    rewrite !mod_nonneg by lia. rewrite !Z.rem_mod_nonneg by lia.
    cbn [WaveModel.read2nan]. apply read2_of_cell.
    apply (shaped_cell _ _ _ _ _ Hshape); apply Z.mod_pos_bound; lia. }
  split; [by apply Hget|]. split.
  - rewrite !Hget by lia. do 2 f_equal.
    rewrite <- (Z.mul_1_l (WaveModel.rows this)) at 1. apply Z.mod_add. lia.
  - rewrite !Hget by lia. do 2 f_equal.
    rewrite <- (Z.mul_1_l (WaveModel.cols this)) at 1. apply Z.mod_add. lia.
Qed.

Lemma torus_2x1_M_shaped : shaped (WaveModel.M torus_2x1) 2 1.
Proof.
  intros r c Hr Hc. assert (c = 0) as -> by lia.
  assert (r = 0 ∨ r = 1) as [-> | ->] by lia; eexists; reflexivity.
Defined.

Lemma torus_getter_wraps_nonnegative_witness :
  let get := WaveModel.getterFactory torus_2x1 WaveModel.M 0%R in
  get 1 0 = Ok (val (WaveModel.M torus_2x1) (1 mod 2) (0 mod 1))
  ∧ get (1 + 2) 0 = get 1 0
  ∧ get 1 (0 + 1) = get 1 0.
Proof.
  refine (torus_getter_wraps_nonnegative torus_2x1 WaveModel.M 0%R 1 0
            eq_refl torus_2x1_M_shaped _ _ _ _); cbn; lia.
Defined.

(** ** Ripple.applyForce: errors and cells outside the grid *)


(** ** WaveSim.toGridPos and WaveSim.addRipple *)

Lemma toInt32_between (q : Q) (lo hi : Z) :
  0 ≤ lo → hi ≤ 2 ^ 31 →
  (inject_Z lo <= q)%Q → (q < inject_Z hi)%Q → lo ≤ toInt32 q < hi.
Proof.
  intros Hlo Hhi H1 H2.
  assert (Hin : in_int32 q).
  { split.
    - assert (inject_Z 0 <= inject_Z lo)%Q by (rewrite <- Zle_Qle; lia).
      change (inject_Z 0) with 0%Q in *. lra.
    - assert (inject_Z hi <= inject_Z (2 ^ 31))%Q by (rewrite <- Zle_Qle; lia). lra. }
  rewrite (toInt32_floor q Hin). by apply Qfloor_between.
Qed.

Lemma scaled_position (x size : Q) (n : Z) :
  (0 < size)%Q → (0 <= x)%Q → (x < size)%Q → 0 < n < 2 ^ 31 →
  0 ≤ toInt32 (x * inject_Z n / size) < n.
Proof.
  intros Hs H0 H1 Hn.
  assert (Hn0 : (0 < inject_Z n)%Q) by (rewrite (Zlt_Qlt 0 n) in Hn; tauto).
  apply toInt32_between; [lia|lia| |].
  - change (inject_Z 0) with 0%Q. apply Qle_shift_div_l; [done|]. nra.
  - apply Qlt_shift_div_r; [done|]. nra.
Qed.

(** X24.  A pointer position inside the canvas maps to a cell of the
    grid: for [0 <= x < width], [0 <= y < height] and dimensions between
    1 and 2^31 - 1, [toGridPos] gives a row of [[0, rows)] and a column
    of [[0, cols)]. *)
Theorem toGridPos_in_grid (rows cols : Z) (width height x y : Q) :
  0 < rows < 2 ^ 31 → 0 < cols < 2 ^ 31 →
  (0 < width)%Q → (0 < height)%Q →
  (0 <= x)%Q → (x < width)%Q → (0 <= y)%Q → (y < height)%Q →
  let pos := WaveSim.toGridPos rows cols width height x y in
  0 ≤ pos.1 < rows ∧ 0 ≤ pos.2 < cols.
Proof.
  intros Hrows Hcols Hw Hh Hx0 Hx1 Hy0 Hy1 pos. unfold pos, WaveSim.toGridPos.
  cbn [fst snd]. split; by apply scaled_position.
Qed.

Lemma toGridPos_in_grid_witness :
  let pos := WaveSim.toGridPos 200 200 800 600 400 599 in
  0 ≤ pos.1 < 200 ∧ 0 ≤ pos.2 < 200.
Proof.
  refine (toGridPos_in_grid 200 200 800 600 400 599 _ _ _ _ _ _ _ _);
    first [lia | reflexivity | discriminate].
Defined.

Lemma boundVal_between (v lo hi : Q) :
  (lo <= hi)%Q → (lo <= Utils.boundVal v lo hi)%Q ∧ (Utils.boundVal v lo hi <= hi)%Q.
Proof.
  intros H. unfold Utils.boundVal.
  destruct (Qmax_cases (Qminmax.Qmin v hi) lo) as [[H1 ->]|[H1 ->]];
    destruct (Qmin_cases v hi) as [[H2 E]|[H2 E]]; rewrite ?E in *; split; lra.
Qed.

(** X25.  [addRipple] on a simulator with a model creates one ripple and
    appends it to the active set: it sits at the given position, its
    wavelength is an integer of [[10, 50]] and its magnitude lies in
    [[5, 50]], whatever the delay; its count of remaining ticks is the
    one the constructor set, the wavelength drawn from the
    configuration, which the later assignment to [wavelength] does not
    touch.  The buffers stay as they were.  Without a model nothing
    happens. *)
Theorem addRipple_appends_bounded_ripple
    (this : WaveModel.t) (ids : list rid) (pos : Z * Z) (delay : Q) :
  0 ≤ WaveModel.nRipples this →
  active this = Some ids →
  WaveSim.addRipple pos delay None = None
  ∧ ∃ this' rp,
      WaveSim.addRipple pos delay (Some this) = Some this'
      ∧ active this' = Some (ids ++ [WaveModel.nextId this])
      ∧ WaveModel.objs this' !! WaveModel.nextId this = Some rp
      ∧ (Ripple.r rp, Ripple.c rp) = pos
      ∧ 10 ≤ Ripple.wavelength rp ≤ 50
      ∧ (5 <= Ripple.mag rp <= 50)%R
      ∧ Ripple.iWave rp
        = Ripple.wavelength
            (Ripple.init (WaveModel.conf this) (WaveModel.rows this) (WaveModel.cols this)
               (WaveModel.Math_random this) (WaveModel.nRandom this)).1
      ∧ WaveModel.F this' = WaveModel.F this
      ∧ fixed_part this' = fixed_part this.
Proof.
  intros Hn Hact. split; [done|].
  unfold WaveSim.addRipple, WaveModel.newRipple.
  rewrite <- init_iWave.
  destruct (Ripple.init _ _ _ _ _) as [rp0 k]. cbn [fst].
  eexists _, _. split; [reflexivity|]. split.
  { apply insertRipple_active; [exact Hn|exact Hact]. }
  split.
  { cbn [WaveModel.insertRipple WaveModel.objs WaveModel.set_ripples WaveModel.store
         WaveModel.set_objs].
    rewrite lookup_alter_eq, lookup_insert_eq. reflexivity. }
  cbn [Ripple.r Ripple.c Ripple.wavelength Ripple.mag Ripple.iWave].
  split; [by destruct pos|]. split.
  { destruct (boundVal_between (delay / 20 + 10) 10 50) as [H1 H2]; [lra|].
    assert (10 ≤ toInt32 (Utils.boundVal (delay / 20 + 10) 10 50) < 51); [|lia].
    apply toInt32_between; [lia|lia| |].
    - change (inject_Z 10) with 10%Q. exact H1.
    - change (inject_Z 51) with 51%Q. lra. }
  split.
  { destruct (boundVal_between (delay / 40 + 5) 5 50) as [H1 H2]; [lra|].
    apply Qle_Rle in H1, H2.
    replace 5%R with (Q2R 5) by (unfold Q2R; cbn; lra).
    replace 50%R with (Q2R 50) by (unfold Q2R; cbn; lra). done. }
  done.
Qed.

Lemma addRipple_appends_bounded_ripple_witness :
  WaveSim.addRipple (2, 3) 400 None = None
  ∧ ∃ this' rp,
      WaveSim.addRipple (2, 3) 400 (Some two_ripples) = Some this'
      ∧ active this' = Some ([0%nat; 1%nat] ++ [WaveModel.nextId two_ripples])
      ∧ WaveModel.objs this' !! WaveModel.nextId two_ripples = Some rp
      ∧ (Ripple.r rp, Ripple.c rp) = (2, 3)
      ∧ 10 ≤ Ripple.wavelength rp ≤ 50
      ∧ (5 <= Ripple.mag rp <= 50)%R
      ∧ Ripple.iWave rp
        = Ripple.wavelength
            (Ripple.init (WaveModel.conf two_ripples) (WaveModel.rows two_ripples)
               (WaveModel.cols two_ripples)
               (WaveModel.Math_random two_ripples) (WaveModel.nRandom two_ripples)).1
      ∧ WaveModel.F this' = WaveModel.F two_ripples
      ∧ fixed_part this' = fixed_part two_ripples.
Proof.
  refine (addRipple_appends_bounded_ripple two_ripples [0%nat; 1%nat] (2, 3) 400 _ _).
  - cbn. lia.
  - exact two_ripples_active.
Defined.

(** ** WaveSim.magToCol *)

Lemma boundValR_between (v lo hi : R) :
  (lo <= hi)%R → (lo <= WaveSim.boundValR v lo hi <= hi)%R.
Proof.
  intros H. unfold WaveSim.boundValR, Rmax, Rmin.
  repeat destruct (Rle_dec _ _); lra.
Qed.

Lemma toInt32R_floor (x : R) :
  (0 <= x)%R → (x < IZR (2 ^ 31))%R →
  WaveSim.toInt32R x = Int_part x ∧ (IZR (Int_part x) <= x)%R ∧ 0 ≤ Int_part x.
Proof.
  intros H0 H1. destruct (base_Int_part x) as [Hlo Hhi].
  assert (Hn : 0 ≤ Int_part x).
  { apply Z.lt_succ_r, lt_IZR. rewrite succ_IZR. lra. }
  assert (Hb : Int_part x < 2 ^ 31) by (apply lt_IZR; lra).
  split; [|done]. unfold WaveSim.toInt32R, WaveSim.truncR.
  destruct (Rle_dec 0 x); [|lra]. rewrite Z.mod_small; lia.
Qed.

Lemma channel_in_range (x : R) :
  0 ≤ WaveSim.toInt32R (WaveSim.boundValR x 0 255) ≤ 255.
Proof.
  destruct (boundValR_between x 0 255) as [H0 H1]; [lra|].
  destruct (toInt32R_floor (WaveSim.boundValR x 0 255)) as (-> & Hle & Hn); [done| |].
  { apply Rle_lt_trans with 255%R; [done|]. apply IZR_lt. lia. }
  split; [done|]. apply le_IZR. lra.
Qed.

(** X26.  [magToCol] always yields a displayable colour: the three
    channels are integers of [[0, 255]] for every magnitude, base colour
    and opacity.  For an opacity below 1 the alpha component lies in
    [[0, 1]] and the channels depend on the sign of the magnitude only;
    for an opacity of 1 or more the alpha component of [col] is left as
    it was. *)
Theorem magToCol_displayable
    (mag : R) (base : WaveSim.rgb) (alpha : R) (col : WaveSim.colour) :
  let col' := WaveSim.magToCol mag base alpha col in
  (0 ≤ WaveSim.col_r col' ≤ 255 ∧ 0 ≤ WaveSim.col_g col' ≤ 255
   ∧ 0 ≤ WaveSim.col_b col' ≤ 255)
  ∧ ((alpha < 1)%R →
       (0 <= WaveSim.col_a col' <= 1)%R
       ∧ ∀ mag2 col2, ((mag < 0)%R ↔ (mag2 < 0)%R) →
           let col2' := WaveSim.magToCol mag2 base alpha col2 in
           (WaveSim.col_r col2', WaveSim.col_g col2', WaveSim.col_b col2')
           = (WaveSim.col_r col', WaveSim.col_g col', WaveSim.col_b col'))
  ∧ ((1 <= alpha)%R → WaveSim.col_a col' = WaveSim.col_a col).
Proof.
  cbv zeta. unfold WaveSim.magToCol. destruct (Rlt_dec alpha 1) as [Ha|Ha].
  - cbn [WaveSim.col_r WaveSim.col_g WaveSim.col_b WaveSim.col_a].
    split; [repeat split; apply channel_in_range|]. split; [|lra].
    intros _. split; [apply boundValR_between; lra|].
    intros mag2 col2 Hsign.
    destruct (Rlt_dec mag 0), (Rlt_dec mag2 0); tauto || reflexivity.
  - cbn [WaveSim.col_r WaveSim.col_g WaveSim.col_b WaveSim.col_a].
    split; [repeat split; apply channel_in_range|]. split; [lra|done].
Qed.

(** ** WaveSim.drawSquare *)

Lemma floor_step (a w : Q) : Qfloor (a + w) ≤ Qfloor a + Qceiling w.
Proof.
  pose proof (Qfloor_le (a + w)). pose proof (Qlt_floor a). pose proof (Qle_ceiling w).
  apply Z.lt_succ_r. rewrite Zlt_Qlt. unfold Z.succ.
  rewrite !inject_Z_plus in *. change (inject_Z 1) with 1%Q in *. lra.
Qed.

Lemma floor_ceiling_reach (a w : Q) (n : Z) :
  (a + w == inject_Z n)%Q → n ≤ Qfloor a + Qceiling w.
Proof.
  intros E. pose proof (Qlt_floor a). pose proof (Qle_ceiling w).
  apply Z.lt_succ_r. rewrite Zlt_Qlt. unfold Z.succ.
  rewrite !inject_Z_plus in *. change (inject_Z 1) with 1%Q in *. lra.
Qed.

(** A chain of intervals [[f c, f c + W)] without gaps covers every point
    between its first start and its last end. *)
Lemma chain_covers (f : Z → Z) (W p : Z) (n : nat) :
  (∀ c, 0 ≤ c → f (c + 1) ≤ f c + W) →
  f 0 ≤ p → p < f (Z.of_nat n) + W →
  ∃ c, 0 ≤ c ≤ Z.of_nat n ∧ f c ≤ p < f c + W.
Proof.
  intros Hstep H0. induction n as [|n IH]; intros Hn.
  - exists 0. change (Z.of_nat 0) with 0 in *. lia.
  - destruct (Z_le_gt_dec (f (Z.of_nat (S n))) p) as [Hle|Hgt].
    + exists (Z.of_nat (S n)). lia.
    + destruct IH as (c & Hc & Hp).
      { specialize (Hstep (Z.of_nat n)). rewrite Nat2Z.inj_succ in Hgt.
        unfold Z.succ in Hgt. lia. }
      exists c. lia.
Qed.

Lemma shares_sum (s a : Q) :
  ¬ (a == 0)%Q → ((a + -1) * (s / a) + s / a == s)%Q.
Proof. intros Ha. field. exact Ha. Qed.

Lemma axis_covered (size n p : Z) :
  0 < n → 0 ≤ p < size →
  let w := (inject_Z size / inject_Z n)%Q in
  ∃ c, 0 ≤ c < n ∧ Qfloor (inject_Z c * w) ≤ p < Qfloor (inject_Z c * w) + Qceiling w.
Proof.
  intros Hn Hp w.
  assert (Hn0 : ¬ (inject_Z n == 0)%Q).
  { intros E. assert (0 < inject_Z n)%Q by (rewrite (Zlt_Qlt 0 n) in Hn; exact Hn). lra. }
  destruct (chain_covers (λ c, Qfloor (inject_Z c * w)) (Qceiling w) p (Z.to_nat (n - 1)))
    as (c & Hc & Hcov).
  - intros c _. cbv beta.
    assert (E : (inject_Z (c + 1) * w == inject_Z c * w + w)%Q).
    { rewrite inject_Z_plus. change (inject_Z 1) with 1%Q. ring. }
    rewrite (Qfloor_comp _ _ E). apply floor_step.
  - cbv beta. assert (E : (inject_Z 0 * w == 0)%Q) by (change (inject_Z 0) with 0%Q; ring).
    rewrite (Qfloor_comp _ _ E). change (Qfloor 0) with 0. lia.
  - cbv beta. rewrite Z2Nat.id by lia.
    assert (E : (inject_Z (n - 1) * w + w == inject_Z size)%Q).
    { unfold w. replace (n - 1) with (n + -1) by lia. rewrite inject_Z_plus.
      change (inject_Z (-1)) with (-1)%Q.
      by apply shares_sum. }
    pose proof (floor_ceiling_reach _ _ _ E). lia.
  - exists c. rewrite Z2Nat.id in Hc by lia. split; [lia|exact Hcov].
Qed.

(** X27.  The squares that [drawSquare] paints leave no pixel of the
    canvas out: for a grid with at least one row and one column, every
    pixel [(px, py)] of a canvas of [width] by [height] pixels lies in
    the rectangle filled for some cell of the grid. *)
Theorem drawSquare_squares_cover_canvas {style : Type}
    (width height rows cols : Z) (col : style) (toClear : bool) (px py : Z) :
  0 < rows → 0 < cols → 0 ≤ px < width → 0 ≤ py < height →
  ∃ r c, 0 ≤ r < rows ∧ 0 ≤ c < cols
         ∧ WaveSim.filled (WaveSim.drawSquare width height rows cols r c col toClear) px py.
Proof.
  intros Hrows Hcols Hpx Hpy.
  destruct (axis_covered width cols px Hcols Hpx) as (c & Hc & Hx).
  destruct (axis_covered height rows py Hrows Hpy) as (r & Hr & Hy).
  exists r, c. split; [done|]. split; [done|].
  unfold WaveSim.filled, WaveSim.drawSquare. cbv zeta.
  eexists _, _, _, _. split; [|split; [exact Hx|exact Hy]].
  apply elem_of_cons. right. apply elem_of_app. right. apply elem_of_cons. by left.
Qed.

Lemma drawSquare_squares_cover_canvas_witness :
  ∃ r c, 0 ≤ r < 3 ∧ 0 ≤ c < 10
         ∧ WaveSim.filled (WaveSim.drawSquare 19 7 3 10 r c tt true) 3 6.
Proof.
  refine (drawSquare_squares_cover_canvas 19 7 3 10 tt true 3 6 _ _ _ _); lia.
Defined.
